(** * neo-go: a shallow embedding of the file primitives, the directory
    ingestion, the stream formatter and the chat orchestration

    Conventions of the embedding.
    - Go strings are byte strings: [string] (a list of [ascii] bytes).
    - A Go [error] is its message ([err.Error()]); [fmt.Errorf] with [%w] or
      [%v] concatenates the messages.
    - A Go function returning [(T, error)] returns a [result T]; a function
      that changes the file system returns the new world and an optional
      error.
    - The operating system, the [path/filepath] package, the case mapping
      and the rune count are the interface [Platform]; the theorems hold for
      every instance, and [Sim] is one small instance used to run examples.
    - White space is that of [unicode.IsSpace], read from the UTF-8 bytes as
      [unicode/utf8] decodes them.
    - A run-time panic (index or slice out of range) is [None].
    - Operator notices printed with [fmt.Printf] outside the stream formatter
      are not part of the state. *)

From Stdlib Require Import ZArith Lia Ascii DecimalString.
From stdpp Require Import base option list strings gmap.

Local Open Scope Z_scope.

(** ** Results and errors *)

Definition Err := string.

Inductive result (A : Type) : Type :=
| Ok (a : A)
| Fail (e : Err).
Arguments Ok {A} a.
Arguments Fail {A} e.

Definition is_Fail {A} (r : result A) : Prop :=
  match r with Fail _ => True | Ok _ => False end.

(** [%d] of [fmt]. *)
Definition fmt_d (z : Z) : string := NilZero.string_of_int (Z.to_int z).

(** ** The [strings] package, on byte strings *)

Definition slen (s : string) : nat := String.length s.

(** [s[n:]] and [s[:n]] for [n <= len(s)]. *)
Fixpoint sdrop (n : nat) (s : string) : string :=
  match n, s with
  | O, _ => s
  | S k, String _ s' => sdrop k s'
  | S _, EmptyString => EmptyString
  end.

Fixpoint stake (n : nat) (s : string) : string :=
  match n, s with
  | O, _ => EmptyString
  | S k, String c s' => String c (stake k s')
  | S _, EmptyString => EmptyString
  end.

Definition strings_HasPrefix (s pre : string) : bool := String.prefix pre s.

(** [strings.Index]: the byte offset of the first instance of [sub]. *)
Fixpoint strings_Index (s sub : string) {struct s} : option nat :=
  if strings_HasPrefix s sub then Some O
  else match s with
       | EmptyString => None
       | String _ s' => S <$> strings_Index s' sub
       end.

Definition strings_Contains (s sub : string) : bool :=
  bool_decide (is_Some (strings_Index s sub)).

(** The scan of [strings.Count] for a non-empty [sub]: instances are counted
    left to right, and the scan resumes behind each instance, so instances
    do not overlap. [skip] bytes of the instance found last are still to be
    passed. *)
Fixpoint count_from (sub : string) (skip : nat) (s : string) : nat :=
  match s with
  | EmptyString => O
  | String _ s' =>
      match skip with
      | S k => count_from sub k s'
      | O => if strings_HasPrefix s sub
             then S (count_from sub (slen sub - 1) s')
             else count_from sub O s'
      end
  end.

(** The loop of [strings.Count] as the library writes it, for a non-empty
    [sub]: find the next instance with [Index], count it and go on behind
    it. [fuel] bounds the number of rounds. *)
Fixpoint countLoop (fuel : nat) (s sub : string) : nat :=
  match fuel with
  | O => O
  | S fuel' =>
      match strings_Index s sub with
      | None => O
      | Some i => S (countLoop fuel' (sdrop (i + slen sub) s) sub)
      end
  end.

(** [strings.Replace(s, old, new, 1)]: the first instance of [old] is replaced;
    an empty [old] matches at the beginning of [s]. *)
Definition strings_Replace1 (s old new : string) : string :=
  match strings_Index s old with
  | None => s
  | Some i => stake i s +:+ new +:+ sdrop (i + slen old) s
  end.

(** The positions at which [sub] occurs in [s] as an exact substring, and
    their number: the spec's reading of "occurrences". *)
Fixpoint occurrences (s sub : string) {struct s} : nat :=
  ((if strings_HasPrefix s sub then 1 else 0) +
   match s with
   | EmptyString => 0
   | String _ s' => occurrences s' sub
   end)%nat.

(** ** The platform *)

Record FileInfo := { fi_Size : Z; fi_IsDir : bool }.

(** An [fs.DirEntry]: [Name()], [IsDir()] and the result of [Info()]. *)
Record DirEntry := { de_Name : string; de_IsDir : bool; de_Info : result FileInfo }.

(** What [filepath.WalkDir] sees at a root and below it: the entry itself
    and, for a directory, the entries in the order [os.ReadDir] returns them
    together with the error of [ReadDir], if any. *)
#[warnings="-register-all"]
Inductive DirTree : Type :=
| Node (d : DirEntry) (entries : list DirTree) (rderr : option Err).

Definition entry (t : DirTree) : DirEntry := match t with Node d _ _ => d end.

Class Platform (W : Type) := {
  os_Stat : W → string → result FileInfo;
  os_ReadFile : W → string → result string;
  os_MkdirAll : W → string → W * option Err;
  os_WriteFile : W → string → string → W * option Err;
  (** [os.Open] followed by one [Read] into a buffer of the given size: the
      bytes read and the error of [Read]. *)
  os_OpenRead : W → string → nat → result (string * option Err);
  (** [os.Lstat] of a walk's root together with the tree below it. *)
  os_Lstat : W → string → result DirTree;
  filepath_Dir : string → string;
  filepath_Join : string → string → string;
  filepath_Rel : string → string → result string;
  filepath_Ext : string → string;
  utf8_RuneCountInString : string → nat;
  strings_ToLower : string → string;
}.

(** ** File primitives *)

Definition maxFileSize : Z := 5 * 1024 * 1024.

Definition normalizePath (pathStr : string) : result string :=
  if bool_decide (pathStr = "error") then Fail "test error" else Ok pathStr.

Section FilePrimitives.
Context {W : Type} `{Platform W}.

Definition strings_Count (s sub : string) : nat :=
  match sub with
  | EmptyString => (utf8_RuneCountInString s + 1)%nat
  | _ => count_from sub O s
  end.

Definition readLocalFile (w : W) (filePath : string) : result string :=
  match normalizePath filePath with
  | Fail e => Fail ("readLocalFile: " +:+ e)
  | Ok normalizedPath =>
      match os_Stat w normalizedPath with
      | Fail e => Fail ("failed to stat file " +:+ normalizedPath +:+ ": " +:+ e)
      | Ok fileInfo =>
          if fi_Size fileInfo >? maxFileSize then
            Fail ("file " +:+ normalizedPath +:+ " exceeds size limit of "
                    +:+ fmt_d maxFileSize +:+ " bytes")
          else if fi_IsDir fileInfo then
            Fail (normalizedPath +:+ " is a directory, not a file")
          else
            match os_ReadFile w normalizedPath with
            | Fail e => Fail ("failed to read file " +:+ normalizedPath +:+ ": " +:+ e)
            | Ok content => Ok content
            end
      end
  end.

Definition createOrOverwriteFile (w : W) (path content : string) : W * option Err :=
  match normalizePath path with
  | Fail e => (w, Some ("createOrOverwriteFile: " +:+ e))
  | Ok normalizedPath =>
      if Z.of_nat (slen content) >? maxFileSize then
        (w, Some ("content for file " +:+ normalizedPath +:+ " exceeds size limit of "
                    +:+ fmt_d maxFileSize +:+ " bytes"))
      else
        let dir := filepath_Dir normalizedPath in
        match os_MkdirAll w dir with
        | (w1, Some e) =>
            (w1, Some ("failed to create parent directories for " +:+ normalizedPath
                         +:+ ": " +:+ e))
        | (w1, None) =>
            match os_WriteFile w1 normalizedPath content with
            | (w2, Some e) =>
                (w2, Some ("failed to write file " +:+ normalizedPath +:+ ": " +:+ e))
            | (w2, None) => (w2, None)
            end
        end
  end.

Definition notFoundError (normalizedPath : string) : Err :=
  "original snippet not found in " +:+ normalizedPath.

Definition ambiguousEditError (count : nat) (normalizedPath : string) : Err :=
  "ambiguous edit: original snippet found " +:+ fmt_d (Z.of_nat count)
    +:+ " times in " +:+ normalizedPath +:+ ". Please provide a more unique snippet".

Definition wrapWriteError (normalizedPath : string) (r : W * option Err) : W * option Err :=
  match r with
  | (w', Some e) =>
      (w', Some ("failed to write updated content to " +:+ normalizedPath +:+ ": " +:+ e))
  | (w', None) => (w', None)
  end.

Definition applyDiffEdit (w : W) (path originalSnippet newSnippet : string)
  : W * option Err :=
  match normalizePath path with
  | Fail e => (w, Some ("applyDiffEdit: " +:+ e))
  | Ok normalizedPath =>
      match os_ReadFile w normalizedPath with
      | Fail e =>
          (w, Some ("failed to read file " +:+ normalizedPath +:+ " for editing: " +:+ e))
      | Ok content =>
          let count := strings_Count content originalSnippet in
          if (count =? 0)%nat then (w, Some (notFoundError normalizedPath))
          else if (1 <? count)%nat then (w, Some (ambiguousEditError count normalizedPath))
          else
            let updatedContent := strings_Replace1 content originalSnippet newSnippet in
            wrapWriteError normalizedPath
              (createOrOverwriteFile w normalizedPath updatedContent)
      end
  end.

(** [bytes.Contains(buffer[:n], []byte{0})]. *)
Fixpoint hasNullByte (buf : string) : bool :=
  match buf with
  | EmptyString => false
  | String c buf' => if bool_decide (c = Ascii.zero) then true else hasNullByte buf'
  end.

Definition isBinaryFile (w : W) (filePath : string) : result bool :=
  match normalizePath filePath with
  | Fail e => Fail ("isBinaryFile: " +:+ e)
  | Ok normalizedPath =>
      match os_OpenRead w normalizedPath 1024 with
      | Fail e => Fail ("failed to open file " +:+ normalizedPath +:+ ": " +:+ e)
      | Ok (buf, rerr) =>
          match rerr with
          | Some e =>
              if bool_decide (e ≠ "EOF") then
                Fail ("failed to read from file " +:+ normalizedPath +:+ ": " +:+ e)
              else Ok (hasNullByte buf)
          | None => Ok (hasNullByte buf)
          end
      end
  end.

End FilePrimitives.

(** ** [filepath.WalkDir] *)

Inductive WalkErr : Type :=
| SkipDir
| SkipAll
| WalkFail (e : Err).

(** The arguments of an [fs.WalkDirFunc] besides the path: an entry without
    error, or an error, with the entry ([ReadDir] failed) or without it
    ([Lstat] of the root failed). *)
Inductive WalkArg : Type :=
| Visit (d : DirEntry)
| VisitErr (d : option DirEntry) (e : Err).

Section WalkDir.
Context {W : Type} `{Platform W} {S : Type}.
Variable fn : string → WalkArg → S → S * option WalkErr.

(** [if err == SkipDir && d.IsDir() { err = nil }; return err]. *)
Definition skippedDir (d : DirEntry) (e : WalkErr) : option WalkErr :=
  match e with
  | SkipDir => if de_IsDir d then None else Some SkipDir
  | _ => Some e
  end.

(** The loop of [walkDir] over the entries [ReadDir] returned. *)
Definition walkEntries (walk : string → DirTree → S → S * option WalkErr) (path : string)
  : list DirTree → S → S * option WalkErr :=
  fix loop (dirs : list DirTree) (st : S) {struct dirs} : S * option WalkErr :=
    match dirs with
    | [] => (st, None)
    | d1 :: dirs' =>
        match walk (filepath_Join path (de_Name (entry d1))) d1 st with
        | (st', None) => loop dirs' st'
        | (st', Some SkipDir) => (st', None)
        | (st', Some e) => (st', Some e)
        end
    end.

Fixpoint walkDir (path : string) (t : DirTree) (st : S) {struct t} : S * option WalkErr :=
  match t with
  | Node d entries rderr =>
      match fn path (Visit d) st with
      | (st1, Some e) => (st1, skippedDir d e)
      | (st1, None) =>
          if negb (de_IsDir d) then (st1, None)
          else
            let r2 := match rderr with
                      | Some re => fn path (VisitErr (Some d) re) st1
                      | None => (st1, None)
                      end in
            match r2 with
            | (st2, Some e) => (st2, skippedDir d e)
            | (st2, None) => walkEntries walkDir path entries st2
            end
      end
  end.

Definition WalkDir (w : W) (root : string) (st : S) : S * option Err :=
  let r := match os_Lstat w root with
           | Fail e => fn root (VisitErr None e) st
           | Ok t => walkDir root t st
           end in
  match r with
  | (st', Some (WalkFail e)) => (st', Some e)
  | (st', _) => (st', None)
  end.
End WalkDir.

(** ** Directory ingestion *)

Definition excludedFileNames : list string :=
    [ ".DS_Store"; "Thumbs.db"; ".gitignore"; ".python-version";
      "uv.lock"; ".uv"; "uvenv"; ".uvenv"; ".venv"; "venv";
      "__pycache__"; ".pytest_cache"; ".coverage"; ".mypy_cache";
      "node_modules"; "package-lock.json"; "yarn.lock"; "pnpm-lock.yaml";
      ".next"; ".nuxt"; "dist"; "build"; ".cache"; ".parcel-cache";
      ".turbo"; ".vercel"; ".output"; ".contentlayer";
      "out"; "coverage"; ".nyc_output"; "storybook-static";
      ".env"; ".env.local"; ".env.development"; ".env.production";
      ".git"; ".svn"; ".hg"; "CVS";
      "go.sum" ].

Definition excludedFiles : gset string := list_to_set excludedFileNames.

Definition excludedExtensionNames : list string :=
    [ ".png"; ".jpg"; ".jpeg"; ".gif"; ".ico"; ".svg"; ".webp"; ".avif";
      ".mp4"; ".webm"; ".mov"; ".mp3"; ".wav"; ".ogg";
      ".zip"; ".tar"; ".gz"; ".7z"; ".rar";
      ".exe"; ".dll"; ".so"; ".dylib"; ".bin";
      ".pdf"; ".doc"; ".docx"; ".xls"; ".xlsx"; ".ppt"; ".pptx";
      ".pyc"; ".pyo"; ".pyd"; ".egg"; ".whl";
      ".uv"; ".uvenv";
      ".db"; ".sqlite"; ".sqlite3"; ".log";
      ".idea"; ".vscode";
      ".map"; ".chunk.js"; ".chunk.css";
      ".min.js"; ".min.css"; ".bundle.js"; ".bundle.css";
      ".cache"; ".tmp"; ".temp";
      ".ttf"; ".otf"; ".woff"; ".woff2"; ".eot" ].

Definition excludedExtensions : gset string := list_to_set excludedExtensionNames.

(** The variables the walk callback closes over. *)
Record ScanState := {
  addedFileContents : gmap string string;
  skippedFilePaths : list string;
  filesProcessed : nat;
}.

Definition skip (st : ScanState) (record : string) : ScanState :=
  {| addedFileContents := addedFileContents st;
     skippedFilePaths := skippedFilePaths st ++ [record];
     filesProcessed := filesProcessed st |}.

Definition store (st : ScanState) (relativePath content : string) : ScanState :=
  {| addedFileContents := <[relativePath := content]> (addedFileContents st);
     skippedFilePaths := skippedFilePaths st;
     filesProcessed := Datatypes.S (filesProcessed st) |}.

Definition maxTotalFiles : nat := 1000.

Section Ingestion.
Context {W : Type} `{Platform W}.

(** The key under which an admitted file is stored. *)
Definition relativeKey (normalizedDirRoot path : string) : string :=
  match filepath_Rel normalizedDirRoot path with
  | Ok relativePath => relativePath
  | Fail _ => path
  end.

(** The function literal handed to [filepath.WalkDir]. *)
Definition scanEntry (w : W) (normalizedDirRoot : string)
    (path : string) (a : WalkArg) (st : ScanState) : ScanState * option WalkErr :=
  match a with
  | VisitErr _ errWalk => (skip st (path +:+ " (walk error: " +:+ errWalk +:+ ")"), None)
  | Visit d =>
      if (maxTotalFiles <=? filesProcessed st)%nat then (st, Some SkipDir)
      else
        let baseName := de_Name d in
        if de_IsDir d then
          if strings_HasPrefix baseName "." && bool_decide (baseName ≠ ".")
             && bool_decide (baseName ≠ "..")
          then (skip st (path +:+ " (hidden directory)"), Some SkipDir)
          else if bool_decide (baseName ∈ excludedFiles)
          then (skip st (path +:+ " (excluded directory name)"), Some SkipDir)
          else (st, None)
        else if strings_HasPrefix baseName "."
        then (skip st (path +:+ " (hidden file)"), None)
        else if bool_decide (baseName ∈ excludedFiles)
        then (skip st (path +:+ " (excluded file name)"), None)
        else
          let ext := filepath_Ext baseName in
          if bool_decide (strings_ToLower ext ∈ excludedExtensions)
          then (skip st (path +:+ " (excluded extension)"), None)
          else
            match de_Info d with
            | Fail e => (skip st (path +:+ " (stat error: " +:+ e +:+ ")"), None)
            | Ok fileInfo =>
                if fi_Size fileInfo >? maxFileSize
                then (skip st (path +:+ " (exceeds size limit " +:+ fmt_d (fi_Size fileInfo)
                                 +:+ " > " +:+ fmt_d maxFileSize +:+ ")"), None)
                else
                  match isBinaryFile w path with
                  | Fail e => (skip st (path +:+ " (binary check error: " +:+ e +:+ ")"), None)
                  | Ok true => (skip st (path +:+ " (binary file)"), None)
                  | Ok false =>
                      match readLocalFile w path with
                      | Fail e => (skip st (path +:+ " (read error: " +:+ e +:+ ")"), None)
                      | Ok content =>
                          (store st (relativeKey normalizedDirRoot path) content, None)
                      end
                  end
            end
  end.

(** The three results of the Go function: the map, the skip records and
    the error. *)
Definition addDirectoryToConversationHelper (w : W) (directoryPath : string)
  : gmap string string * list string * option Err :=
  match normalizePath directoryPath with
  | Fail e => (∅, [], Some ("addDirectoryToConversationHelper: " +:+ e))
  | Ok normalizedDirRoot =>
      let st0 := {| addedFileContents := ∅; skippedFilePaths := []; filesProcessed := O |} in
      match WalkDir (scanEntry w normalizedDirRoot) w normalizedDirRoot st0 with
      | (st, Some e) =>
          (addedFileContents st, skippedFilePaths st,
           Some ("error walking directory " +:+ directoryPath +:+ ": " +:+ e))
      | (st, None) => (addedFileContents st, skippedFilePaths st, None)
      end
  end.
End Ingestion.

(** ** UTF-8 and white space (packages [unicode/utf8] and [unicode])

    A rune is a [Z]; a byte of a string is read as a number below 256. *)

Definition byteOf (c : ascii) : Z := Z.of_N (N_of_ascii c).

(** [s[i]] for [0 <= i < len(s)]. *)
Definition byteAt (s : string) (i : Z) : Z :=
  match String.get (Z.to_nat i) s with
  | Some c => byteOf c
  | None => 0
  end.

Definition RuneError : Z := 0xFFFD.
Definition RuneSelf : Z := 0x80.
Definition UTFMax : nat := 4.
Definition MaxLatin1 : Z := 0xFF.

Definition maskx : Z := 0x3F.
Definition mask2 : Z := 0x1F.
Definition mask3 : Z := 0x0F.
Definition mask4 : Z := 0x07.
Definition locb : Z := 0x80.
Definition hicb : Z := 0xBF.

(** The table [first] together with [acceptRanges], for a byte that is not
    ASCII: the size of the sequence a leading byte begins and the bounds of
    its second byte; [None] is the entry [xx] of a byte that begins no
    sequence. *)
Definition utf8_first (s0 : Z) : option (nat * (Z * Z)) :=
  if s0 <? 0xC2 then None
  else if s0 <? 0xE0 then Some (2%nat, (locb, hicb))
  else if s0 =? 0xE0 then Some (3%nat, (0xA0, hicb))
  else if s0 <? 0xED then Some (3%nat, (locb, hicb))
  else if s0 =? 0xED then Some (3%nat, (locb, 0x9F))
  else if s0 <? 0xF0 then Some (3%nat, (locb, hicb))
  else if s0 =? 0xF0 then Some (4%nat, (0x90, hicb))
  else if s0 <? 0xF4 then Some (4%nat, (locb, hicb))
  else if s0 =? 0xF4 then Some (4%nat, (locb, 0x8F))
  else None.

(** [utf8.DecodeRuneInString]: the first rune of [s] and its width in
    bytes; [(RuneError, 1)] for an encoding that is not valid. *)
Definition utf8_DecodeRuneInString (s : string) : Z * nat :=
  match s with
  | EmptyString => (RuneError, 0%nat)
  | String c0 t0 =>
      let s0 := byteOf c0 in
      if s0 <? RuneSelf then (s0, 1%nat)
      else
        match utf8_first s0 with
        | None => (RuneError, 1%nat)
        | Some (sz, (lo, hi)) =>
            if (slen s <? sz)%nat then (RuneError, 1%nat)
            else
              match t0 with
              | EmptyString => (RuneError, 1%nat)
              | String c1 t1 =>
                  let s1 := byteOf c1 in
                  if (s1 <? lo) || (hi <? s1) then (RuneError, 1%nat)
                  else if (sz <=? 2)%nat then
                    (Z.lor (Z.shiftl (Z.land s0 mask2) 6) (Z.land s1 maskx), 2%nat)
                  else
                    match t1 with
                    | EmptyString => (RuneError, 1%nat)
                    | String c2 t2 =>
                        let s2 := byteOf c2 in
                        if (s2 <? locb) || (hicb <? s2) then (RuneError, 1%nat)
                        else if (sz <=? 3)%nat then
                          (Z.lor (Z.lor (Z.shiftl (Z.land s0 mask3) 12)
                                        (Z.shiftl (Z.land s1 maskx) 6))
                                 (Z.land s2 maskx), 3%nat)
                        else
                          match t2 with
                          | EmptyString => (RuneError, 1%nat)
                          | String c3 _ =>
                              let s3 := byteOf c3 in
                              if (s3 <? locb) || (hicb <? s3) then (RuneError, 1%nat)
                              else
                                (Z.lor (Z.lor (Z.lor (Z.shiftl (Z.land s0 mask4) 18)
                                                     (Z.shiftl (Z.land s1 maskx) 12))
                                              (Z.shiftl (Z.land s2 maskx) 6))
                                       (Z.land s3 maskx), 4%nat)
                          end
                    end
              end
        end
  end.

Definition utf8_RuneStart (b : Z) : bool := negb (Z.land b 0xC0 =? 0x80).

(** The loop [for start--; start >= lim; start-- { if RuneStart(s[start])
    { break } }] of [DecodeLastRuneInString], entered at [start]; it runs at
    most [UTFMax - 1] times. *)
Fixpoint lastRuneStart (fuel : nat) (s : string) (lim start : Z) : Z :=
  match fuel with
  | O => start
  | S fuel' =>
      if start <? lim then start
      else if utf8_RuneStart (byteAt s start) then start
      else lastRuneStart fuel' s lim (start - 1)
  end.

(** [utf8.DecodeLastRuneInString]: the last rune of [s] and its width. *)
Definition utf8_DecodeLastRuneInString (s : string) : Z * nat :=
  let end_ := Z.of_nat (slen s) in
  if end_ =? 0 then (RuneError, 0%nat)
  else
    let start := end_ - 1 in
    let r := byteAt s start in
    if r <? RuneSelf then (r, 1%nat)
    else
      let lim := Z.max (end_ - Z.of_nat UTFMax) 0 in
      let start := lastRuneStart UTFMax s lim (start - 1) in
      let start := if start <? 0 then 0 else start in
      let '(r, size) := utf8_DecodeRuneInString (sdrop (Z.to_nat start) s) in
      if negb (start + Z.of_nat size =? end_) then (RuneError, 1%nat) else (r, size).

(** [unicode.IsSpace]: the Latin-1 white space, and the code points of the
    table [White_Space] above Latin-1. *)
Definition unicode_IsSpace (r : Z) : bool :=
  if (0 <=? r) && (r <=? MaxLatin1) then
    (r =? 0x09) || (r =? 0x0A) || (r =? 0x0B) || (r =? 0x0C) || (r =? 0x0D)
    || (r =? 0x20) || (r =? 0x85) || (r =? 0xA0)
  else
    (r =? 0x1680) || ((0x2000 <=? r) && (r <=? 0x200A)) || (r =? 0x2028)
    || (r =? 0x2029) || (r =? 0x202F) || (r =? 0x205F) || (r =? 0x3000).

(** The table [asciiSpace] of package [strings]. *)
Definition asciiSpace (c : Z) : bool :=
  (c =? 0x09) || (c =? 0x0A) || (c =? 0x0B) || (c =? 0x0C) || (c =? 0x0D) || (c =? 0x20).

(** ** More of the [strings] package, for the stream formatter *)

(** [indexFunc]: the loop [for i, r := range s] from offset [i] on; [-1]
    when no rune has [f r = truth]. Every round reads at least one byte, so
    [len(s)] rounds are enough. *)
Fixpoint indexFunc_loop (fuel : nat) (f : Z → bool) (truth : bool) (s : string) (i : Z)
  : Z :=
  match fuel with
  | O => -1
  | S fuel' =>
      match s with
      | EmptyString => -1
      | String _ _ =>
          let '(r, size) := utf8_DecodeRuneInString s in
          if Bool.eqb (f r) truth then i
          else indexFunc_loop fuel' f truth (sdrop size s) (i + Z.of_nat size)
      end
  end.

Definition indexFunc (s : string) (f : Z → bool) (truth : bool) : Z :=
  indexFunc_loop (slen s) f truth s 0.

(** [lastIndexFunc]: the loop [for i := len(s); i > 0; ] from [i] on. *)
Fixpoint lastIndexFunc_loop (fuel : nat) (f : Z → bool) (truth : bool) (s : string) (i : Z)
  : Z :=
  match fuel with
  | O => -1
  | S fuel' =>
      if i <=? 0 then -1
      else
        let '(r, size) := utf8_DecodeLastRuneInString (stake (Z.to_nat i) s) in
        let i := i - Z.of_nat size in
        if Bool.eqb (f r) truth then i
        else lastIndexFunc_loop fuel' f truth s i
  end.

Definition lastIndexFunc (s : string) (f : Z → bool) (truth : bool) : Z :=
  lastIndexFunc_loop (slen s) f truth s (Z.of_nat (slen s)).

Definition strings_TrimLeftFunc (s : string) (f : Z → bool) : string :=
  let i := indexFunc s f false in
  if i =? -1 then EmptyString else sdrop (Z.to_nat i) s.

Definition strings_TrimRightFunc (s : string) (f : Z → bool) : string :=
  let i := lastIndexFunc s f false in
  let i := if (0 <=? i) && (RuneSelf <=? byteAt s i)
           then i + Z.of_nat (utf8_DecodeRuneInString (sdrop (Z.to_nat i) s)).2
           else i + 1 in
  stake (Z.to_nat i) s.

Definition strings_TrimFunc (s : string) (f : Z → bool) : string :=
  strings_TrimRightFunc (strings_TrimLeftFunc s f) f.

(** The second loop of [strings.TrimSpace], on [s[start:]]: [stop] goes
    down from the end over the ASCII white space. *)
Fixpoint trimSpace_stop (s : string) (stop : nat) : string :=
  match stop with
  | O => EmptyString
  | S stop' =>
      let c := byteAt s (Z.of_nat stop') in
      if RuneSelf <=? c then strings_TrimRightFunc (stake stop s) unicode_IsSpace
      else if asciiSpace c then trimSpace_stop s stop'
      else stake stop s
  end.

(** [strings.TrimSpace]: the first loop goes up over the ASCII white space;
    a byte that is not ASCII hands the rest to the functions that read
    runes. *)
Fixpoint strings_TrimSpace (s : string) : string :=
  match s with
  | EmptyString => EmptyString
  | String c s' =>
      if RuneSelf <=? byteOf c then strings_TrimFunc s unicode_IsSpace
      else if asciiSpace (byteOf c) then strings_TrimSpace s'
      else trimSpace_stop s (slen s)
  end.

(** The loop of [trimLeftASCII]: the bytes at the front that [f] accepts
    are dropped. *)
Fixpoint trimLeftFunc (f : ascii → bool) (s : string) : string :=
  match s with
  | EmptyString => EmptyString
  | String c s' => if f c then trimLeftFunc f s' else s
  end.

Fixpoint containsByte (chars : string) (c : ascii) : bool :=
  match chars with
  | EmptyString => false
  | String c' chars' => if bool_decide (c = c') then true else containsByte chars' c
  end.

(** [strings.TrimLeft(s, cutset)] and [strings.ContainsAny(s, chars)] for
    an ASCII [cutset] or [chars]. *)
Definition strings_TrimLeft (s cutset : string) : string :=
  trimLeftFunc (containsByte cutset) s.

Fixpoint strings_ContainsAny (s chars : string) : bool :=
  match s with
  | EmptyString => false
  | String c s' => if containsByte chars c then true else strings_ContainsAny s' chars
  end.

Definition strings_TrimPrefix (s pre : string) : string :=
  if strings_HasPrefix s pre then sdrop (slen pre) s else s.

(** [strings.Fields] on a string of ASCII bytes: the words between runs of
    white space. [cur] is the word being read. *)
Fixpoint fields_from (cur : option string) (s : string) : list string :=
  match s with
  | EmptyString => match cur with Some word => [word] | None => [] end
  | String c s' =>
      if asciiSpace (byteOf c) then
        match cur with
        | Some word => word :: fields_from None s'
        | None => fields_from None s'
        end
      else
        fields_from (Some (default EmptyString cur +:+ String c EmptyString)) s'
  end.

(** [strings.FieldsFunc]: the loop [for end, rune := range s]; [cur] is
    the span open at [start], [None] for a negative [start]. *)
Fixpoint fieldsFunc_loop (fuel : nat) (f : Z → bool) (cur : option string) (s : string)
  : list string :=
  match fuel, s with
  | S fuel', String _ _ =>
      let '(r, size) := utf8_DecodeRuneInString s in
      if f r then
        match cur with
        | Some word => word :: fieldsFunc_loop fuel' f None (sdrop size s)
        | None => fieldsFunc_loop fuel' f None (sdrop size s)
        end
      else
        fieldsFunc_loop fuel' f (Some (default EmptyString cur +:+ stake size s))
                        (sdrop size s)
  | _, _ => match cur with Some word => [word] | None => [] end
  end.

Definition strings_FieldsFunc (s : string) (f : Z → bool) : list string :=
  fieldsFunc_loop (slen s) f None s.

(** [setBits >= utf8.RuneSelf]: some byte of [s] is not ASCII. *)
Fixpoint hasNonASCII (s : string) : bool :=
  match s with
  | EmptyString => false
  | String c s' => (RuneSelf <=? byteOf c) || hasNonASCII s'
  end.

Definition strings_Fields (s : string) : list string :=
  if hasNonASCII s then strings_FieldsFunc s unicode_IsSpace
  else fields_from None s.

Fixpoint strings_Join (elems : list string) (sep : string) : string :=
  match elems with
  | [] => EmptyString
  | [e] => e
  | e :: rest => e +:+ sep +:+ strings_Join rest sep
  end.

Definition newline : ascii := "010"%char.

(** [strings.Split(s, "\n")]: never empty. *)
Fixpoint splitLines (s : string) : list string :=
  match s with
  | EmptyString => [EmptyString]
  | String c s' =>
      if bool_decide (c = newline) then EmptyString :: splitLines s'
      else match splitLines s' with
           | l :: ls => String c l :: ls
           | [] => [String c EmptyString]
           end
  end.

(** ** The stream formatter *)

(** One line written to the terminal; the lipgloss styles are left out. *)
Inductive Rendered : Type :=
| CodeHeader (codeLanguage : string)
| CodeFooter
| CodeLine (line : string)
| BulletItem (text : string)
| NumberedItem (numPart restOfLine : string)
| PlainLine (text : string)
| BlankLine.

Record MatrixTextStreamFormatter := {
  buffer : string;
  inCodeBlock : bool;
  codeLanguage : string;
}.

Definition NewMatrixTextStreamFormatter : MatrixTextStreamFormatter :=
  {| buffer := ""; inCodeBlock := false; codeLanguage := "" |}.

(** The condition of the numbered-item branch; [None] is the panic of
    [trimmedLine[:2]] on a line of one byte. *)
Definition numberedCondition (trimmedLine : string) : option bool :=
  if (0 <? slen trimmedLine)%nat then
    if (slen trimmedLine <? 2)%nat then None
    else Some (strings_ContainsAny (stake 2 trimmedLine) "0123456789"
               && strings_HasPrefix (strings_TrimLeft trimmedLine "0123456789. ") ""
               && (strings_Contains trimmedLine ". " || strings_Contains trimmedLine ") "))
  else Some false.

Definition formatAndPrintLine (f : MatrixTextStreamFormatter) (line : string)
  : option (MatrixTextStreamFormatter * Rendered) :=
  let trimmedLine := strings_TrimSpace line in
  if strings_HasPrefix trimmedLine "```" then
    if negb (inCodeBlock f) then
      let lang := strings_TrimSpace (strings_TrimPrefix trimmedLine "```") in
      let lang := if bool_decide (lang = "") then "text" else lang in
      Some ({| buffer := buffer f; inCodeBlock := true; codeLanguage := lang |},
            CodeHeader lang)
    else
      Some ({| buffer := buffer f; inCodeBlock := false; codeLanguage := codeLanguage f |},
            CodeFooter)
  else if inCodeBlock f then Some (f, CodeLine line)
  else if strings_HasPrefix trimmedLine "* " || strings_HasPrefix trimmedLine "- " then
    Some (f, BulletItem (strings_TrimSpace (sdrop 2 trimmedLine)))
  else
    match numberedCondition trimmedLine with
    | None => None
    | Some true =>
        match strings_Fields trimmedLine with
        | numPart :: rest =>
            Some (f, NumberedItem numPart (strings_TrimSpace (strings_Join rest " ")))
        | [] => Some (f, PlainLine trimmedLine)
        end
    | Some false =>
        if bool_decide (trimmedLine ≠ "") then Some (f, PlainLine trimmedLine)
        else Some (f, BlankLine)
    end.

(** The loop of [ProcessChunk] over [lines[:len(lines)-1]]. *)
Fixpoint formatLines (f : MatrixTextStreamFormatter) (lines : list string)
  : option (MatrixTextStreamFormatter * list Rendered) :=
  match lines with
  | [] => Some (f, [])
  | line :: lines' =>
      '(f1, r) ← formatAndPrintLine f line;
      '(f2, rs) ← formatLines f1 lines';
      Some (f2, r :: rs)
  end.

Definition ProcessChunk (f : MatrixTextStreamFormatter) (chunk : string)
  : option (MatrixTextStreamFormatter * list Rendered) :=
  let f0 := {| buffer := buffer f +:+ chunk; inCodeBlock := inCodeBlock f;
               codeLanguage := codeLanguage f |} in
  let lines := splitLines (buffer f0) in
  '(f1, out) ← formatLines f0 (removelast lines);
  Some ({| buffer := List.last lines ""; inCodeBlock := inCodeBlock f1;
           codeLanguage := codeLanguage f1 |}, out).

Definition Finalize (f : MatrixTextStreamFormatter)
  : option (MatrixTextStreamFormatter * list Rendered) :=
  '(f1, out1) ← (if bool_decide (buffer f ≠ "") then
                   '(f', r) ← formatAndPrintLine f (buffer f);
                   Some ({| buffer := ""; inCodeBlock := inCodeBlock f';
                            codeLanguage := codeLanguage f' |}, [r])
                 else Some (f, []));
  if inCodeBlock f1 then
    Some ({| buffer := buffer f1; inCodeBlock := false; codeLanguage := codeLanguage f1 |},
          out1 ++ [CodeFooter])
  else Some (f1, out1).

(** ** Messages, tool calls and the stream (go-openai) *)

Inductive Role : Type := RoleSystem | RoleUser | RoleAssistant | RoleTool.

Global Instance Role_eq_dec : EqDecision Role.
Proof. solve_decision. Defined.

Record FunctionCall := { fc_Name : string; fc_Arguments : string }.

(** [openai.ToolCall]; [Index] is a [*int], set in streamed fragments only. *)
Record ToolCall := {
  tc_Index : option Z;
  tc_ID : string;
  tc_Type : string;
  tc_Function : FunctionCall;
}.

Definition emptyToolCall : ToolCall :=
  {| tc_Index := None; tc_ID := ""; tc_Type := "";
     tc_Function := {| fc_Name := ""; fc_Arguments := "" |} |}.

Record ChatCompletionMessage := {
  msg_Role : Role;
  msg_Content : string;
  msg_ToolCalls : list ToolCall;
  msg_ToolCallID : string;
  msg_Name : string;
}.

Definition textMessage (r : Role) (content : string) : ChatCompletionMessage :=
  {| msg_Role := r; msg_Content := content; msg_ToolCalls := [];
     msg_ToolCallID := ""; msg_Name := "" |}.

(** [response.Choices[i].Delta]. *)
Record StreamChoice := { delta_Content : string; delta_ToolCalls : list ToolCall }.

Record ChatCompletionStreamResponse := { Choices : list StreamChoice }.

(** A stream as [Recv] delivers it: the responses, then [io.EOF] ([None]) or
    another error. *)
Record ChatCompletionStream := {
  responses : list ChatCompletionStreamResponse;
  ending : option Err;
}.

Record ChatCompletionRequest := {
  req_Model : string;
  req_Messages : list ChatCompletionMessage;
  req_Tools : list string;
  req_ToolChoice : string;
  req_Stream : bool;
  req_MaxTokens : Z;
}.

(** [client.CreateChatCompletionStream]. *)
Definition Client := ChatCompletionRequest → result ChatCompletionStream.

(** The names of the tool registry [tools]; the descriptions and parameter
    schemas are sent to the model and not read by the program. *)
Definition tools : list string :=
  [ "read_file"; "read_multiple_files"; "create_file"; "create_multiple_files"; "edit_file" ].

(** The constant [systemPrompt], line breaks included. *)
Definition systemPrompt : string :=
"You are Neo, an elite hacker and software engineer operating within the Matrix.
You see the code behind reality and can manipulate it at will.
Your decades of experience span all programming domains and digital realities.

Core capabilities:
1. Code Analysis & Discussion
   - Analyze code with expert-level insight
   - Explain complex concepts clearly
   - Suggest optimizations and best practices
   - Debug issues with precision

2. File Operations (via function calls):
   - read_file: Read a single file's content
   - read_multiple_files: Read multiple files at once
   - create_file: Create or overwrite a single file
   - create_multiple_files: Create multiple files at once
   - edit_file: Make precise edits to existing files using snippet replacement

Guidelines:
1. Provide natural, conversational responses explaining your reasoning
2. Use function calls when you need to read or modify files
3. For file operations:
   - Always read files first before editing them to understand the context
   - Use precise snippet matching for edits
   - Explain what changes you're making and why
   - Consider the impact of changes on the overall codebase
4. Follow language-specific best practices
5. Suggest tests or validation steps when appropriate
6. Be thorough in your analysis and recommendations

IMPORTANT: In your thinking process, if you realize that something requires a tool call, cut your thinking short and proceed directly to the tool call. Don't overthink - act efficiently when file operations are needed.

Remember: You're a senior engineer - be thoughtful, precise, and explain your reasoning clearly.".

(** ** History trimming *)

Definition isSystem (msg : ChatCompletionMessage) : bool :=
  bool_decide (msg_Role msg = RoleSystem).

(** The partition loop: [(systemMessages, otherMessages)]. *)
Fixpoint partitionMessages (history : list ChatCompletionMessage)
    (systemMessages otherMessages : list ChatCompletionMessage)
  : list ChatCompletionMessage * list ChatCompletionMessage :=
  match history with
  | [] => (systemMessages, otherMessages)
  | msg :: rest =>
      if isSystem msg then partitionMessages rest (systemMessages ++ [msg]) otherMessages
      else partitionMessages rest systemMessages (otherMessages ++ [msg])
  end.

Definition maxMessagesToKeep : Z := 15.
Definition minMessagesToTrim : Z := 20.

Definition trimConversationHistory (ConversationHistory : list ChatCompletionMessage)
  : list ChatCompletionMessage :=
  let '(systemMessages, otherMessages) := partitionMessages ConversationHistory [] [] in
  if Z.of_nat (length otherMessages) <=? minMessagesToTrim then ConversationHistory
  else
    let startIdx := Z.of_nat (length otherMessages) - maxMessagesToKeep in
    let startIdx := if startIdx <? 0 then 0 else startIdx in
    systemMessages ++ drop (Z.to_nat startIdx) otherMessages.

(** ** Merging streamed tool-call fragments *)

(** [for len(toolCalls) <= idx { toolCalls = append(toolCalls, openai.ToolCall{}) }]. *)
Definition growToolCalls (toolCalls : list ToolCall) (idx : Z) : list ToolCall :=
  toolCalls ++ replicate (Z.to_nat (idx + 1 - Z.of_nat (length toolCalls))) emptyToolCall.

Definition mergeInto (tc tcDelta : ToolCall) : ToolCall :=
  {| tc_Index := tc_Index tc;
     tc_ID := tc_ID tc +:+ tc_ID tcDelta;
     tc_Type := tc_Type tcDelta;
     tc_Function :=
       {| fc_Name := if bool_decide (fc_Name (tc_Function tc) = "")
                     then fc_Name (tc_Function tcDelta)
                     else fc_Name (tc_Function tc);
          fc_Arguments := fc_Arguments (tc_Function tc) +:+ fc_Arguments (tc_Function tcDelta) |} |}.

(** One iteration of the loop over [choice.Delta.ToolCalls]; [None] is the
    panic of [toolCalls[idx]] for a negative [idx]. *)
Definition mergeDelta (toolCalls : list ToolCall) (tcDelta : ToolCall)
  : option (list ToolCall) :=
  match tc_Index tcDelta with
  | None => Some toolCalls
  | Some idx =>
      let toolCalls := growToolCalls toolCalls idx in
      if idx <? 0 then None
      else
        tc ← toolCalls !! Z.to_nat idx;
        Some (<[Z.to_nat idx := mergeInto tc tcDelta]> toolCalls)
  end.

Fixpoint mergeDeltas (toolCalls : list ToolCall) (deltas : list ToolCall)
  : option (list ToolCall) :=
  match deltas with
  | [] => Some toolCalls
  | tcDelta :: rest => toolCalls' ← mergeDelta toolCalls tcDelta; mergeDeltas toolCalls' rest
  end.

(** ** One user turn *)

(** What the receive loop has accumulated. *)
Record Accum := {
  acc_formatter : MatrixTextStreamFormatter;
  acc_terminal : list Rendered;
  acc_fullResponse : string;
  acc_toolCalls : list ToolCall;
}.

(** The body of the first receive loop for one response. *)
Definition receive (a : Accum) (response : ChatCompletionStreamResponse) : option Accum :=
  match Choices response with
  | [] => Some a
  | choice :: _ =>
      a1 ← (if bool_decide (delta_Content choice ≠ "") then
              '(f, out) ← ProcessChunk (acc_formatter a) (delta_Content choice);
              Some {| acc_formatter := f; acc_terminal := acc_terminal a ++ out;
                      acc_fullResponse := acc_fullResponse a +:+ delta_Content choice;
                      acc_toolCalls := acc_toolCalls a |}
            else Some a);
      toolCalls ← mergeDeltas (acc_toolCalls a1) (delta_ToolCalls choice);
      Some {| acc_formatter := acc_formatter a1; acc_terminal := acc_terminal a1;
              acc_fullResponse := acc_fullResponse a1; acc_toolCalls := toolCalls |}
  end.

(** The receive loop: every response is handled, then [Recv] returns
    [io.EOF] or another error, and either one leaves the loop by [break]. *)
Fixpoint receiveAll (a : Accum) (rs : list ChatCompletionStreamResponse) : option Accum :=
  match rs with
  | [] => Some a
  | response :: rest => a' ← receive a response; receiveAll a' rest
  end.

(** The body of the second receive loop, which reads text only. *)
Definition receiveText (a : Accum) (response : ChatCompletionStreamResponse) : option Accum :=
  match Choices response with
  | [] => Some a
  | choice :: _ =>
      if bool_decide (delta_Content choice ≠ "") then
        '(f, out) ← ProcessChunk (acc_formatter a) (delta_Content choice);
        Some {| acc_formatter := f; acc_terminal := acc_terminal a ++ out;
                acc_fullResponse := acc_fullResponse a +:+ delta_Content choice;
                acc_toolCalls := acc_toolCalls a |}
      else Some a
  end.

Fixpoint receiveAllText (a : Accum) (rs : list ChatCompletionStreamResponse) : option Accum :=
  match rs with
  | [] => Some a
  | response :: rest => a' ← receiveText a response; receiveAllText a' rest
  end.

Record ReadFileArgs := { rf_FilePath : string }.
Record FileToCreate := { ftc_Path : string; ftc_Content : string }.
Record FileToEdit := {
  fte_Path : string;
  fte_OriginalSnippet : string;
  fte_NewSnippet : string;
}.

(** [json.Unmarshal] into the three argument structs. *)
Class JsonCodec := {
  unmarshal_ReadFileArgs : string → result ReadFileArgs;
  unmarshal_FileToCreate : string → result FileToCreate;
  unmarshal_FileToEdit : string → result FileToEdit;
}.

Definition nl : string := String newline EmptyString.

Section Turn.
Context {W : Type} `{Platform W} `{JsonCodec}.

(** The [switch tc.Function.Name] of the tool loop: the new world and
    [toolResultContent]. *)
Definition executeTool (w : W) (tc : ToolCall) : W * string :=
  let name := fc_Name (tc_Function tc) in
  let arguments := fc_Arguments (tc_Function tc) in
  if bool_decide (name = "read_file") then
    match unmarshal_ReadFileArgs arguments with
    | Ok _ =>
        match unmarshal_ReadFileArgs arguments with
        | Ok argsRead =>
            match readLocalFile w (rf_FilePath argsRead) with
            | Fail errRead =>
                (w, "Error reading file " +:+ rf_FilePath argsRead +:+ ": " +:+ errRead)
            | Ok content =>
                (w, "Content of file '" +:+ rf_FilePath argsRead +:+ "':" +:+ nl +:+ nl
                      +:+ content)
            end
        | Fail err => (w, "Error parsing args for read_file: " +:+ err)
        end
    | Fail err => (w, "Error parsing args for read_file: " +:+ err)
    end
  else if bool_decide (name = "create_file") then
    match unmarshal_FileToCreate arguments with
    | Ok _ =>
        match unmarshal_FileToCreate arguments with
        | Ok argsCreate =>
            match createOrOverwriteFile w (ftc_Path argsCreate) (ftc_Content argsCreate) with
            | (w', Some errCreate) =>
                (w', "Error creating file " +:+ ftc_Path argsCreate +:+ ": " +:+ errCreate)
            | (w', None) =>
                (w', "Successfully created/overwrote file " +:+ ftc_Path argsCreate)
            end
        | Fail err => (w, "Error parsing args for create_file: " +:+ err)
        end
    | Fail err => (w, "Error parsing args for create_file: " +:+ err)
    end
  else if bool_decide (name = "edit_file") then
    match unmarshal_FileToEdit arguments with
    | Ok argsEdit =>
        match applyDiffEdit w (fte_Path argsEdit) (fte_OriginalSnippet argsEdit)
                (fte_NewSnippet argsEdit) with
        | (w', Some errEdit) =>
            (w', "Error editing file " +:+ fte_Path argsEdit +:+ ": " +:+ errEdit)
        | (w', None) => (w', "Successfully edited file " +:+ fte_Path argsEdit)
        end
    | Fail err => (w, "Error parsing args for edit_file: " +:+ err)
    end
  else (w, "Placeholder: No actual execution for " +:+ name +:+ " yet.").

(** The loop over [toolCalls] building [toolResponses]. *)
Fixpoint executeTools (w : W) (toolCalls : list ToolCall)
  : W * list ChatCompletionMessage :=
  match toolCalls with
  | [] => (w, [])
  | tc :: rest =>
      let '(w1, toolResultContent) := executeTool w tc in
      let '(w2, toolResponses) := executeTools w1 rest in
      (w2, {| msg_Role := RoleTool; msg_Content := toolResultContent;
              msg_ToolCalls := []; msg_ToolCallID := tc_ID tc;
              msg_Name := fc_Name (tc_Function tc) |} :: toolResponses)
  end.

(** The program state a turn reads and writes. *)
Record Session := {
  ConversationHistory : list ChatCompletionMessage;
  world : W;
  terminal : list Rendered;
}.

(** The history after the accumulated tool calls are recorded. *)
Definition appendToolCallMessage (history : list ChatCompletionMessage)
    (fullResponse : string) (toolCalls : list ToolCall) : list ChatCompletionMessage :=
  let assistantMsgWithTools :=
    {| msg_Role := RoleAssistant; msg_Content := ""; msg_ToolCalls := toolCalls;
       msg_ToolCallID := ""; msg_Name := "" |} in
  if bool_decide (fullResponse = "") then history ++ [assistantMsgWithTools]
  else if bool_decide (msg_Role <$> last history = Some RoleAssistant)
  then history ++ [assistantMsgWithTools]
  else if bool_decide (fullResponse = "") then history ++ [assistantMsgWithTools]
  else history.

(** The natural-language follow-up after the tools ran. *)
Definition followUp (client : Client) (history : list ChatCompletionMessage) (w : W)
    (formatter : MatrixTextStreamFormatter) (out : list Rendered) : option Session :=
  let toolResponseReq :=
    {| req_Model := "deepseek-coder"; req_Messages := history; req_Tools := [];
       req_ToolChoice := ""; req_Stream := true; req_MaxTokens := 1000 |} in
  match client toolResponseReq with
  | Fail _ => Some {| ConversationHistory := history; world := w; terminal := out |}
  | Ok toolResponseStream =>
      a ← receiveAllText {| acc_formatter := formatter; acc_terminal := out;
                            acc_fullResponse := ""; acc_toolCalls := [] |}
            (responses toolResponseStream);
      '(_, out') ← Finalize (acc_formatter a);
      let finalNaturalResponse := acc_fullResponse a in
      Some {| ConversationHistory :=
                if bool_decide (finalNaturalResponse ≠ "")
                then history ++ [textMessage RoleAssistant finalNaturalResponse]
                else history;
              world := w; terminal := acc_terminal a ++ out' |}
  end.

(** [StreamAIResponse]; [None] is a panic. The history [nil] is the empty
    list: the program builds no empty history that is not [nil]. *)
Definition StreamAIResponse (client : Client) (userMessage : string) (s : Session)
  : option Session :=
  let history := trimConversationHistory (ConversationHistory s) in
  let history := match history with
                 | [] => [textMessage RoleSystem systemPrompt]
                 | _ => history
                 end in
  let history := history ++ [textMessage RoleUser userMessage] in
  let req :=
    {| req_Model := "deepseek-coder"; req_Messages := history; req_Tools := tools;
       req_ToolChoice := "auto"; req_Stream := true; req_MaxTokens := 4000 |} in
  match client req with
  | Fail _ =>
      Some {| ConversationHistory := take (length history - 1) history;
              world := world s; terminal := terminal s |}
  | Ok stream =>
      a ← receiveAll {| acc_formatter := NewMatrixTextStreamFormatter;
                        acc_terminal := terminal s; acc_fullResponse := "";
                        acc_toolCalls := [] |} (responses stream);
      let fullResponse := acc_fullResponse a in
      let toolCalls := acc_toolCalls a in
      let history := if bool_decide (fullResponse ≠ "")
                     then history ++ [textMessage RoleAssistant fullResponse]
                     else history in
      '(formatter, out) ← Finalize (acc_formatter a);
      let out := acc_terminal a ++ out in
      if (0 <? length toolCalls)%nat then
        let history := appendToolCallMessage history fullResponse toolCalls in
        let '(w, toolResponses) := executeTools (world s) toolCalls in
        let history := history ++ toolResponses in
        followUp client history w formatter out
      else Some {| ConversationHistory := history; world := world s; terminal := out |}
  end.
End Turn.

(** ** Folding a scan into the history (the [/add] command) *)

Section AddCommand.
Context {W : Type} `{Platform W}.

Definition contextMessage (pathToAdd : string) (kv : string * string)
  : ChatCompletionMessage :=
  textMessage RoleSystem
    ("Content of file '" +:+ filepath_Join pathToAdd (fst kv) +:+ "':" +:+ nl +:+ nl
       +:+ snd kv).

(** [for relPath, content := range addedContents]: Go visits the entries of
    a map in an unspecified order, so every order is a possible run. *)
Definition rangeOrder (addedContents : gmap string string)
    (order : list (string * string)) : Prop :=
  order ≡ₚ map_to_list addedContents.

Definition addFilesToHistory (pathToAdd : string) (addedContents : gmap string string)
    (history history' : list ChatCompletionMessage) : Prop :=
  ∃ order, rangeOrder addedContents order
           ∧ history' = history ++ (contextMessage pathToAdd <$> order).
End AddCommand.

(** ** A small platform to run the definitions on

    Regular files are a map from path to content; the trees a walk sees are
    given per root. Paths are joined with a slash and not cleaned. *)

Module Sim.

Record World := {
  files : gmap string string;
  trees : gmap string DirTree;
}.

Definition noEnt (op path : string) : Err :=
  op +:+ " " +:+ path +:+ ": no such file or directory".

Definition Stat (w : World) (path : string) : result FileInfo :=
  match files w !! path with
  | Some content => Ok {| fi_Size := Z.of_nat (slen content); fi_IsDir := false |}
  | None => Fail (noEnt "stat" path)
  end.

Definition ReadFile (w : World) (path : string) : result string :=
  match files w !! path with
  | Some content => Ok content
  | None => Fail (noEnt "open" path)
  end.

Definition MkdirAll (w : World) (dir : string) : World * option Err := (w, None).

Definition WriteFile (w : World) (path content : string) : World * option Err :=
  ({| files := <[path := content]> (files w); trees := trees w |}, None).

Definition OpenRead (w : World) (path : string) (n : nat) : result (string * option Err) :=
  match files w !! path with
  | Some EmptyString => Ok (EmptyString, Some "EOF")
  | Some content => Ok (stake n content, None)
  | None => Fail (noEnt "open" path)
  end.

Definition Lstat (w : World) (root : string) : result DirTree :=
  match trees w !! root with
  | Some t => Ok t
  | None => Fail (noEnt "lstat" root)
  end.

Definition slash : ascii := "/"%char.

(** The directory part and the extension, scanning from the end. *)
Fixpoint dirPart (s : string) : option string :=
  match s with
  | EmptyString => None
  | String c s' =>
      match dirPart s' with
      | Some d => Some (String c d)
      | None => if bool_decide (c = slash) then Some EmptyString else None
      end
  end.

Definition Dir (path : string) : string := default "." (dirPart path).

Fixpoint extPart (s : string) : option string :=
  match s with
  | EmptyString => None
  | String c s' =>
      match extPart s' with
      | Some e => Some e
      | None =>
          if strings_ContainsAny s' "/" then None
          else if bool_decide (c = "."%char) then Some s else None
      end
  end.

Definition Ext (path : string) : string := default "" (extPart path).

Definition Join (a b : string) : string := a +:+ "/" +:+ b.

Definition Rel (base target : string) : result string :=
  if bool_decide (target = base) then Ok "."
  else if strings_HasPrefix target (base +:+ "/") then Ok (sdrop (slen base + 1) target)
  else Fail ("Rel: can't make " +:+ target +:+ " relative to " +:+ base).

(** Bytes that do not continue a UTF-8 sequence. *)
Fixpoint RuneCount (s : string) : nat :=
  match s with
  | EmptyString => O
  | String c s' =>
      ((if (128 <=? N_of_ascii c)%N && (N_of_ascii c <? 192)%N then 0 else 1)
       + RuneCount s')%nat
  end.

Definition lowerByte (c : ascii) : ascii :=
  if (65 <=? N_of_ascii c)%N && (N_of_ascii c <=? 90)%N
  then ascii_of_N (N_of_ascii c + 32) else c.

Fixpoint ToLower (s : string) : string :=
  match s with
  | EmptyString => EmptyString
  | String c s' => String (lowerByte c) (ToLower s')
  end.

#[global] Instance platform : Platform World := {|
  os_Stat := Stat;
  os_ReadFile := ReadFile;
  os_MkdirAll := MkdirAll;
  os_WriteFile := WriteFile;
  os_OpenRead := OpenRead;
  os_Lstat := Lstat;
  filepath_Dir := Dir;
  filepath_Join := Join;
  filepath_Rel := Rel;
  filepath_Ext := Ext;
  utf8_RuneCountInString := RuneCount;
  strings_ToLower := ToLower;
|}.

(** A stand-in for [encoding/json]: the fields of the arguments are
    separated by bars, as in [path], [path|content] and [path|old|new]. *)
Fixpoint splitBar (s : string) : list string :=
  match s with
  | EmptyString => [EmptyString]
  | String c s' =>
      if bool_decide (c = "|"%char) then EmptyString :: splitBar s'
      else match splitBar s' with
           | l :: ls => String c l :: ls
           | [] => [String c EmptyString]
           end
  end.

#[global] Instance codec : JsonCodec := {|
  unmarshal_ReadFileArgs a :=
    match splitBar a with
    | [p] => Ok {| rf_FilePath := p |}
    | _ => Fail "unexpected end of JSON input"
    end;
  unmarshal_FileToCreate a :=
    match splitBar a with
    | [p; c] => Ok {| ftc_Path := p; ftc_Content := c |}
    | _ => Fail "unexpected end of JSON input"
    end;
  unmarshal_FileToEdit a :=
    match splitBar a with
    | [p; o; n] => Ok {| fte_Path := p; fte_OriginalSnippet := o; fte_NewSnippet := n |}
    | _ => Fail "unexpected end of JSON input"
    end;
|}.

Definition fileEntry (name : string) (size : Z) : DirTree :=
  Node {| de_Name := name; de_IsDir := false;
          de_Info := Ok {| fi_Size := size; fi_IsDir := false |} |} [] None.

Definition dirEntry (name : string) (entries : list DirTree) : DirTree :=
  Node {| de_Name := name; de_IsDir := true;
          de_Info := Ok {| fi_Size := 0; fi_IsDir := true |} |} entries None.

End Sim.

(** ** Reading the merged tool calls off the fragments

    The fragments that carry the index [i], in arrival order, and what the
    merge makes of them. *)

Definition pieces (i : nat) (fragments : list ToolCall) : list ToolCall :=
  List.filter (λ d, bool_decide (tc_Index d = Some (Z.of_nat i))) fragments.

(** One more than the highest index seen. *)
Fixpoint covered (fragments : list ToolCall) : nat :=
  match fragments with
  | [] => O
  | d :: rest =>
      match tc_Index d with
      | Some idx => Nat.max (Z.to_nat (idx + 1)) (covered rest)
      | None => covered rest
      end
  end.

Fixpoint concatStrings (l : list string) : string :=
  match l with
  | [] => EmptyString
  | x :: rest => x +:+ concatStrings rest
  end.

Fixpoint firstNonEmpty (l : list string) : string :=
  match l with
  | [] => EmptyString
  | x :: rest => if bool_decide (x = "") then firstNonEmpty rest else x
  end.

Definition fragmentName (d : ToolCall) : string := fc_Name (tc_Function d).
Definition fragmentArguments (d : ToolCall) : string := fc_Arguments (tc_Function d).

Definition mergedCall (ps : list ToolCall) : ToolCall :=
  {| tc_Index := None;
     tc_ID := concatStrings (tc_ID <$> ps);
     tc_Type := default "" (tc_Type <$> last ps);
     tc_Function :=
       {| fc_Name := firstNonEmpty (fragmentName <$> ps);
          fc_Arguments := concatStrings (fragmentArguments <$> ps) |} |}.

(** No fragment has a negative index. *)
Definition indicesInRange (fragments : list ToolCall) : Prop :=
  ∀ d idx, d ∈ fragments → tc_Index d = Some idx → 0 ≤ idx.

(** Two fragment sequences that deliver, index by index, the same id text,
    the same arguments text, the same first non-empty name piece and the
    same last type. *)
Definition sameDelivery (fs1 fs2 : list ToolCall) : Prop :=
  covered fs1 = covered fs2
  ∧ ∀ i,
      concatStrings (tc_ID <$> pieces i fs1) = concatStrings (tc_ID <$> pieces i fs2)
      ∧ concatStrings (fragmentArguments <$> pieces i fs1)
        = concatStrings (fragmentArguments <$> pieces i fs2)
      ∧ firstNonEmpty (fragmentName <$> pieces i fs1)
        = firstNonEmpty (fragmentName <$> pieces i fs2)
      ∧ (tc_Type <$> last (pieces i fs1)) = (tc_Type <$> last (pieces i fs2)).

(** Two fragmentations of the same fields, as the spec words it: index by
    index the pieces of the id, of the name and of the arguments concatenate
    to the same texts. *)
Definition sameFields (fs1 fs2 : list ToolCall) : Prop :=
  ∀ i,
    concatStrings (tc_ID <$> pieces i fs1) = concatStrings (tc_ID <$> pieces i fs2)
    ∧ concatStrings (fragmentName <$> pieces i fs1)
      = concatStrings (fragmentName <$> pieces i fs2)
    ∧ concatStrings (fragmentArguments <$> pieces i fs1)
      = concatStrings (fragmentArguments <$> pieces i fs2).

Definition fragment (idx : Z) (id type name arguments : string) : ToolCall :=
  {| tc_Index := Some idx; tc_ID := id; tc_Type := type;
     tc_Function := {| fc_Name := name; fc_Arguments := arguments |} |}.

(** The fragments of a stream, in arrival order: the loop reads the tool
    calls of the first choice of every response. *)
Definition fragmentsOf (rs : list ChatCompletionStreamResponse) : list ToolCall :=
  concat ((λ response, match Choices response with
                       | [] => []
                       | choice :: _ => delta_ToolCalls choice
                       end) <$> rs).

(** ** Reading the trimmed history off the messages *)

Definition systemMessagesOf (history : list ChatCompletionMessage)
  : list ChatCompletionMessage := List.filter isSystem history.

Definition otherMessagesOf (history : list ChatCompletionMessage)
  : list ChatCompletionMessage := List.filter (λ m, negb (isSystem m)) history.

(** ** The shape of a numbered line, as the spec words it

    A run of digits followed by [". "] or [") "]. *)

Definition isDigit (c : ascii) : bool := containsByte "0123456789" c.

Definition beginsWithNumber (line : string) : bool :=
  let rest := trimLeftFunc isDigit line in
  negb (bool_decide (rest = line))
  && (strings_HasPrefix rest ". " || strings_HasPrefix rest ") ").

(** ** A turn's history before the request is sent *)

Definition seedHistory (history : list ChatCompletionMessage) : list ChatCompletionMessage :=
  match history with
  | [] => [textMessage RoleSystem systemPrompt]
  | _ => history
  end.

Definition textResponse (content : string) : ChatCompletionStreamResponse :=
  {| Choices := [{| delta_Content := content; delta_ToolCalls := [] |}] |}.

Definition namedCall (id name arguments : string) : ToolCall :=
  {| tc_Index := None; tc_ID := id; tc_Type := "function";
     tc_Function := {| fc_Name := name; fc_Arguments := arguments |} |}.

(** ** The events of a scan, in the order of the traversal *)

Inductive ScanEvent : Type :=
| Skipped (record : string)
| Stored (relativePath content : string)
| Passed.

Definition applyEvent (st : ScanState) (ev : ScanEvent) : ScanState :=
  match ev with
  | Skipped record => skip st record
  | Stored relativePath content => store st relativePath content
  | Passed => st
  end.

Definition skipsOf (trace : list ScanEvent) : list string :=
  omap (λ ev, match ev with Skipped record => Some record | _ => None end) trace.

Definition storesOf (trace : list ScanEvent) : list (string * string) :=
  omap (λ ev, match ev with
              | Stored relativePath content => Some (relativePath, content)
              | _ => None
              end) trace.

(** [addedFileContents[relativePath] = content], one store after the other. *)
Definition storeAll (m : gmap string string) (stores : list (string * string))
  : gmap string string :=
  foldl (λ m kv, <[kv.1 := kv.2]> m) m stores.

Section ScanTrace.
Context {W : Type} `{Platform W}.

(** What one call of the walk function does to the variables it closes
    over, and what it returns. *)
Definition scanEvent (w : W) (normalizedDirRoot : string)
    (path : string) (a : WalkArg) (st : ScanState) : ScanEvent * option WalkErr :=
  match a with
  | VisitErr _ errWalk => (Skipped (path +:+ " (walk error: " +:+ errWalk +:+ ")"), None)
  | Visit d =>
      if (maxTotalFiles <=? filesProcessed st)%nat then (Passed, Some SkipDir)
      else
        let baseName := de_Name d in
        if de_IsDir d then
          if strings_HasPrefix baseName "." && bool_decide (baseName ≠ ".")
             && bool_decide (baseName ≠ "..")
          then (Skipped (path +:+ " (hidden directory)"), Some SkipDir)
          else if bool_decide (baseName ∈ excludedFiles)
          then (Skipped (path +:+ " (excluded directory name)"), Some SkipDir)
          else (Passed, None)
        else if strings_HasPrefix baseName "."
        then (Skipped (path +:+ " (hidden file)"), None)
        else if bool_decide (baseName ∈ excludedFiles)
        then (Skipped (path +:+ " (excluded file name)"), None)
        else
          let ext := filepath_Ext baseName in
          if bool_decide (strings_ToLower ext ∈ excludedExtensions)
          then (Skipped (path +:+ " (excluded extension)"), None)
          else
            match de_Info d with
            | Fail e => (Skipped (path +:+ " (stat error: " +:+ e +:+ ")"), None)
            | Ok fileInfo =>
                if fi_Size fileInfo >? maxFileSize
                then (Skipped (path +:+ " (exceeds size limit " +:+ fmt_d (fi_Size fileInfo)
                                 +:+ " > " +:+ fmt_d maxFileSize +:+ ")"), None)
                else
                  match isBinaryFile w path with
                  | Fail e => (Skipped (path +:+ " (binary check error: " +:+ e +:+ ")"), None)
                  | Ok true => (Skipped (path +:+ " (binary file)"), None)
                  | Ok false =>
                      match readLocalFile w path with
                      | Fail e => (Skipped (path +:+ " (read error: " +:+ e +:+ ")"), None)
                      | Ok content =>
                          (Stored (relativeKey normalizedDirRoot path) content, None)
                      end
                  end
            end
  end.

(** The walk function, keeping a log of its events besides. *)
Definition tracedEntry (w : W) (normalizedDirRoot : string)
    (path : string) (a : WalkArg) (stt : ScanState * list ScanEvent)
  : (ScanState * list ScanEvent) * option WalkErr :=
  let '(st', r) := scanEntry w normalizedDirRoot path a stt.1 in
  ((st', stt.2 ++ [(scanEvent w normalizedDirRoot path a stt.1).1]), r).

Definition emptyScan : ScanState :=
  {| addedFileContents := ∅; skippedFilePaths := []; filesProcessed := O |}.

Definition scanTrace (w : W) (directoryPath : string) : list ScanEvent :=
  match normalizePath directoryPath with
  | Fail _ => []
  | Ok normalizedDirRoot =>
      (WalkDir (tracedEntry w normalizedDirRoot) w normalizedDirRoot (emptyScan, [])).1.2
  end.

(** A regular entry that passes the quota, the name and the extension
    checks. *)
Definition admissible (st : ScanState) (d : DirEntry) : bool :=
  negb (maxTotalFiles <=? filesProcessed st)%nat
  && negb (de_IsDir d)
  && negb (strings_HasPrefix (de_Name d) ".")
  && negb (bool_decide (de_Name d ∈ excludedFiles))
  && negb (bool_decide (strings_ToLower (filepath_Ext (de_Name d)) ∈ excludedExtensions)).
End ScanTrace.

(** ** Reasoning about walks *)

(** Induction over a tree and the trees below it. *)
Section DirTreeInduction.
Variable P : DirTree → Prop.
Hypothesis HNode : ∀ d entries rderr, Forall P entries → P (Node d entries rderr).

Fixpoint DirTree_nested_ind (t : DirTree) : P t :=
  match t with
  | Node d entries rderr =>
      HNode d entries rderr
        ((fix all (l : list DirTree) : Forall P l :=
            match l with
            | [] => Forall_nil_2 P
            | t1 :: l' => Forall_cons_2 P t1 l' (DirTree_nested_ind t1) (all l')
            end) entries)
  end.
End DirTreeInduction.

(** Two results of a walk function: related states and the same return. *)
Definition related {S1 S2 : Type} (R : S1 → S2 → Prop)
    (r1 : S1 * option WalkErr) (r2 : S2 * option WalkErr) : Prop :=
  R r1.1 r2.1 ∧ r1.2 = r2.2.

(** A return value that is [nil] or [SkipDir]. *)
Definition mild (r : option WalkErr) : Prop := r = None ∨ r = Some SkipDir.

(** The events of a trace that store a file store what [readLocalFile]
    returned, under the key of the path. *)
Definition storesWhatWasRead {W : Type} `{Platform W} (w : W) (root : string)
    (ev : ScanEvent) : Prop :=
  match ev with
  | Stored relativePath content =>
      ∃ path, relativePath = relativeKey root path ∧ readLocalFile w path = Ok content
  | _ => True
  end.

(** The state of the traced walk and of the walk itself, and what the trace
    says about the state. *)
Definition traceInvariant {W : Type} `{Platform W} (w : W) (root : string)
    (stt : ScanState * list ScanEvent) (st : ScanState) : Prop :=
  stt.1 = st
  ∧ skippedFilePaths st = skipsOf stt.2
  ∧ addedFileContents st = storeAll ∅ (storesOf stt.2)
  ∧ Forall (storesWhatWasRead w root) stt.2.

(** * Further definitions *)

(** ** What the file primitives expect of the operating system

    A file that [os.WriteFile] wrote without error is a regular file of the
    size written, and reads back as written. *)
Definition writesReadBack {W : Type} `{Platform W} : Prop :=
  ∀ (w0 w' : W) (path content : string),
    os_WriteFile w0 path content = (w', None) →
    os_ReadFile w' path = Ok content
    ∧ os_Stat w' path
      = Ok {| fi_Size := Z.of_nat (slen content); fi_IsDir := false |}.

(** ** What the scan keeps *)

(** The checks on the name of a regular entry. *)
Definition nameAdmitted {W : Type} `{Platform W} (d : DirEntry) : bool :=
  negb (de_IsDir d)
  && negb (strings_HasPrefix (de_Name d) ".")
  && negb (bool_decide (de_Name d ∈ excludedFiles))
  && negb (bool_decide (strings_ToLower (filepath_Ext (de_Name d)) ∈ excludedExtensions)).

(** The entries of a tree, each with the path under which a walk that
    reaches [t] at [path] hands it to the walk function. *)
Fixpoint treeEntries {W : Type} `{Platform W} (path : string) (t : DirTree)
  : list (string * DirEntry) :=
  match t with
  | Node d entries _ =>
      (path, d)
      :: List.flat_map (λ t1, treeEntries (filepath_Join path (de_Name (entry t1))) t1)
                       entries
  end.

(** [d] is the entry found at [path] in the tree below [root]. *)
Definition entryAt {W : Type} `{Platform W} (w : W) (root path : string) (d : DirEntry)
  : Prop :=
  ∃ t, os_Lstat w root = Ok t ∧ (path, d) ∈ treeEntries root t.

(** The entry [d] at [path] went through every check of the walk function
    and [content] is what was read there. *)
Definition checkedAt {W : Type} `{Platform W} (w : W) (root path : string) (d : DirEntry)
    (relativePath content : string) : Prop :=
  ∃ fileInfo,
    relativePath = relativeKey root path
    ∧ nameAdmitted d = true
    ∧ de_Info d = Ok fileInfo
    ∧ fi_Size fileInfo ≤ maxFileSize
    ∧ isBinaryFile w path = Ok false
    ∧ readLocalFile w path = Ok content.

(** An entry of the result: the content read at a path of the tree whose
    entry went through every check. *)
Definition passedChecks {W : Type} `{Platform W} (w : W) (root : string)
    (relativePath content : string) : Prop :=
  ∃ path d, entryAt w root path d ∧ checkedAt w root path d relativePath content.

(** The counter stays within the quota and counts at least the entries of
    the map. *)
Definition quotaKept (st : ScanState) : Prop :=
  (filesProcessed st ≤ maxTotalFiles)%nat
  ∧ (size (addedFileContents st) ≤ filesProcessed st)%nat.

Definition allPassedChecks {W : Type} `{Platform W} (w : W) (root : string)
    (st : ScanState) : Prop :=
  ∀ relativePath content,
    addedFileContents st !! relativePath = Some content →
    passedChecks w root relativePath content.

(** A directory entry that the walk function prunes as hidden. *)
Definition hiddenDirectory (d : DirEntry) : bool :=
  strings_HasPrefix (de_Name d) "." && bool_decide (de_Name d ≠ ".")
  && bool_decide (de_Name d ≠ "..").

(** ** Reading the formatter's work off the text *)

(** The formatter with another buffer. *)
Definition withBuffer (b : string) (f : MatrixTextStreamFormatter)
  : MatrixTextStreamFormatter :=
  {| buffer := b; inCodeBlock := inCodeBlock f; codeLanguage := codeLanguage f |}.

Fixpoint countNewlines (s : string) : nat :=
  match s with
  | EmptyString => O
  | String c s' => ((if bool_decide (c = newline) then 1 else 0) + countNewlines s')%nat
  end.

(** ** Reading a turn off the stream *)

(** The history a turn sends: trimmed, seeded, with the user message. *)
Definition turnHistory (history : list ChatCompletionMessage) (userMessage : string)
  : list ChatCompletionMessage :=
  seedHistory (trimConversationHistory history) ++ [textMessage RoleUser userMessage].

(** The request of the first stream of a turn. *)
Definition firstRequest (history : list ChatCompletionMessage) : ChatCompletionRequest :=
  {| req_Model := "deepseek-coder"; req_Messages := history; req_Tools := tools;
     req_ToolChoice := "auto"; req_Stream := true; req_MaxTokens := 4000 |}.

(** The accumulator the first receive loop starts from. *)
Definition startAccum (out : list Rendered) : Accum :=
  {| acc_formatter := NewMatrixTextStreamFormatter; acc_terminal := out;
     acc_fullResponse := ""; acc_toolCalls := [] |}.

(** The assistant message that carries the tool calls. *)
Definition toolCallMessage (toolCalls : list ToolCall) : ChatCompletionMessage :=
  {| msg_Role := RoleAssistant; msg_Content := ""; msg_ToolCalls := toolCalls;
     msg_ToolCallID := ""; msg_Name := "" |}.

(** The assistant's text of a turn, if there is any. *)
Definition textPart (fullResponse : string) : list ChatCompletionMessage :=
  if bool_decide (fullResponse ≠ "") then [textMessage RoleAssistant fullResponse] else [].

(** The text pieces of a stream, in arrival order: the loop reads the
    content of the first choice of every response. *)
Definition contentsOf (rs : list ChatCompletionStreamResponse) : list string :=
  (λ response, match Choices response with
               | [] => EmptyString
               | choice :: _ => delta_Content choice
               end) <$> rs.

(** ** The history outside a turn (main.go) *)

(** The [/clear] branch of [executor]. *)
Definition clearHistory (ConversationHistory : list ChatCompletionMessage)
  : list ChatCompletionMessage :=
  match ConversationHistory with
  | originalSystemPrompt :: _ =>
      if bool_decide (msg_Role originalSystemPrompt = RoleSystem)
      then [originalSystemPrompt]
      else [textMessage RoleSystem systemPrompt]
  | [] => [textMessage RoleSystem systemPrompt]
  end.

(** The first message is a system message. *)
Definition headIsSystem (history : list ChatCompletionMessage) : Prop :=
  (msg_Role <$> head history) = Some RoleSystem.

(** ** [centerText] *)

Fixpoint strings_Repeat (s : string) (count : nat) : string :=
  match count with
  | O => EmptyString
  | S n => s +:+ strings_Repeat s n
  end.

Definition centerText (text : string) (width : Z) : string :=
  if Z.of_nat (slen text) >=? width then text
  else
    let padding := Z.quot (width - Z.of_nat (slen text)) 2 in
    strings_Repeat " " (Z.to_nat padding) +:+ text.

(** A client whose first reply asks for [create_file] of [foo.txt]. *)
Definition createFooClient : Client :=
  λ req, match req_Tools req with
         | [] => Ok {| responses := [textResponse ("Done." +:+ nl)]; ending := None |}
         | _ => Ok {| responses :=
                        [{| Choices := [{| delta_Content := "";
                                           delta_ToolCalls :=
                                             [fragment 0 "call_1" "function" "create_file"
                                                "foo.txt|X"] |}] |}];
                      ending := None |}
         end.

(** A line that opens or closes a code fence. *)
Definition isFenceLine (line : string) : bool :=
  strings_HasPrefix (strings_TrimSpace line) "```".

Definition countFenceLines (lines : list string) : nat :=
  length (List.filter isFenceLine lines).

(** * Theorems *)

(** ** Path normalisation *)

Lemma normalizePath_error : normalizePath "error" = Fail "test error".
Proof. reflexivity. Qed.

Lemma normalizePath_other (pathStr : string) :
  pathStr ≠ "error" → normalizePath pathStr = Ok pathStr.
Proof. intros Hne. unfold normalizePath. by rewrite bool_decide_eq_false_2. Qed.

Section PathTheorems.
Context {W : Type} `{Platform W}.

(** C10: every operation that takes a path fails on the path ["error"],
    whatever the file system holds, and leaves the file system as it was;
    for every other path [normalizePath] returns its input. *)
Theorem error_path_rejected (w : W) :
  readLocalFile w "error" = Fail "readLocalFile: test error"
  ∧ (∀ content,
       createOrOverwriteFile w "error" content
       = (w, Some "createOrOverwriteFile: test error"))
  ∧ (∀ originalSnippet newSnippet,
       applyDiffEdit w "error" originalSnippet newSnippet
       = (w, Some "applyDiffEdit: test error"))
  ∧ isBinaryFile w "error" = Fail "isBinaryFile: test error"
  ∧ addDirectoryToConversationHelper w "error"
    = (∅, [], Some "addDirectoryToConversationHelper: test error")
  ∧ (∀ pathStr, pathStr ≠ "error" → normalizePath pathStr = Ok pathStr).
Proof.
  repeat split; try reflexivity; try (intros; reflexivity).
  apply normalizePath_other.
Qed.
End PathTheorems.

(** ** Counting and replacing *)

Lemma count_from_le_occurrences (sub : string) (s : string) :
  ∀ skip, (count_from sub skip s ≤ occurrences s sub)%nat.
Proof.
  induction s as [|c s IH]; intros skip; [simpl; lia|].
  cbn [count_from occurrences]. destruct skip as [|k].
  - destruct (strings_HasPrefix (String c s) sub).
    + specialize (IH (slen sub - 1)%nat). lia.
    + specialize (IH O). lia.
  - specialize (IH k). lia.
Qed.

Lemma occurrences_empty (s : string) : (0 < occurrences s "")%nat.
Proof. destruct s; simpl; lia. Qed.

Lemma count_from_found (sub : string) (s : string) :
  sub ≠ "" → (0 < occurrences s sub)%nat → (0 < count_from sub O s)%nat.
Proof.
  intros Hsub. induction s as [|c s IH]; cbn [count_from occurrences].
  - destruct sub; [done|]. simpl. lia.
  - destruct (strings_HasPrefix (String c s) sub); [lia|]. intros Hocc. apply IH. lia.
Qed.

(** *** The scan [count_from] is the loop of [strings.Count] *)

Lemma count_from_skip (sub : string) (s : string) :
  ∀ skip, count_from sub skip s = count_from sub O (sdrop skip s).
Proof.
  induction s as [|c s IH]; intros [|k]; try reflexivity.
  cbn [count_from sdrop]. apply IH.
Qed.

Lemma Index_None_count (sub : string) (s : string) :
  strings_Index s sub = None → count_from sub O s = O.
Proof.
  induction s as [|c s IH]; [done|]. cbn [strings_Index count_from].
  destruct (strings_HasPrefix (String c s) sub); [done|].
  destruct (strings_Index s sub); [done|]. intros _. by apply IH.
Qed.

Lemma Index_Some_count (sub : string) (s : string) :
  sub ≠ "" →
  ∀ i, strings_Index s sub = Some i →
       count_from sub O s = S (count_from sub O (sdrop (i + slen sub) s)).
Proof.
  intros Hsub. induction s as [|c s IH]; intros i.
  - cbn. destruct sub; [done|]. done.
  - cbn [strings_Index count_from].
    destruct (strings_HasPrefix (String c s) sub).
    + intros [= <-]. rewrite count_from_skip.
      destruct sub as [|c' sub]; [done|].
      replace (slen (String c' sub) - 1)%nat with (slen sub)
        by (unfold slen; cbn [String.length]; lia).
      reflexivity.
    + destruct (strings_Index s sub) as [j|]; [|done]. intros [= <-].
      cbn [Nat.add sdrop]. by apply IH.
Qed.

Lemma sdrop_length (s : string) : ∀ n, slen (sdrop n s) = (slen s - n)%nat.
Proof.
  induction s as [|c s IH]; intros [|n]; try reflexivity.
  cbn [sdrop slen String.length]. apply IH.
Qed.

Lemma countLoop_count_from (sub : string) :
  sub ≠ "" →
  ∀ fuel s, (slen s < fuel)%nat → countLoop fuel s sub = count_from sub O s.
Proof.
  intros Hsub. induction fuel as [|fuel IH]; intros s Hfuel; [lia|].
  cbn [countLoop]. destruct (strings_Index s sub) as [i|] eqn:Hi.
  - rewrite (Index_Some_count sub s Hsub i Hi). f_equal. apply IH.
    rewrite sdrop_length.
    assert (0 < slen sub)%nat
      by (destruct sub; [done|unfold slen; cbn [String.length]; lia]).
    assert (0 < slen s)%nat
      by (destruct s; [by destruct sub|unfold slen; cbn [String.length]; lia]).
    lia.
  - by rewrite Index_None_count.
Qed.

Section EditTheorems.
Context {W : Type} `{Platform W}.

Lemma Count_zero_of_no_occurrence (content sub : string) :
  occurrences content sub = O → strings_Count content sub = O.
Proof.
  intros Hocc. destruct sub as [|c sub].
  - pose proof (occurrences_empty content). lia.
  - unfold strings_Count.
    pose proof (count_from_le_occurrences (String c sub) content O). lia.
Qed.

Lemma applyDiffEdit_read (w : W) (path content originalSnippet newSnippet : string) :
  path ≠ "error" →
  os_ReadFile w path = Ok content →
  applyDiffEdit w path originalSnippet newSnippet
  = let count := strings_Count content originalSnippet in
    if (count =? 0)%nat then (w, Some (notFoundError path))
    else if (1 <? count)%nat then (w, Some (ambiguousEditError count path))
    else wrapWriteError path
           (createOrOverwriteFile w path
              (strings_Replace1 content originalSnippet newSnippet)).
Proof.
  intros Hne Hread. unfold applyDiffEdit.
  rewrite (normalizePath_other _ Hne), Hread. reflexivity.
Qed.

(** The three ways an edit of a readable file goes, by [strings.Count]. *)
Lemma applyDiffEdit_by_count (w : W) (path content originalSnippet newSnippet : string) :
  path ≠ "error" →
  os_ReadFile w path = Ok content →
  (strings_Count content originalSnippet = O →
     applyDiffEdit w path originalSnippet newSnippet = (w, Some (notFoundError path)))
  ∧ ((1 < strings_Count content originalSnippet)%nat →
     applyDiffEdit w path originalSnippet newSnippet
     = (w, Some (ambiguousEditError (strings_Count content originalSnippet) path)))
  ∧ (strings_Count content originalSnippet = 1%nat →
     applyDiffEdit w path originalSnippet newSnippet
     = wrapWriteError path
         (createOrOverwriteFile w path
            (strings_Replace1 content originalSnippet newSnippet))).
Proof.
  intros Hne Hread.
  rewrite (applyDiffEdit_read w path content originalSnippet newSnippet Hne Hread).
  cbv zeta. repeat split.
  - intros ->. reflexivity.
  - intros Hgt.
    destruct (Nat.eqb_spec (strings_Count content originalSnippet) 0); [lia|].
    destruct (Nat.ltb_spec 1 (strings_Count content originalSnippet)); [done|lia].
  - intros ->. reflexivity.
Qed.

Lemma Count_one_of_one_occurrence (content sub : string) :
  sub ≠ "" → occurrences content sub = 1%nat → strings_Count content sub = 1%nat.
Proof.
  intros Hsub Hocc. destruct sub as [|c sub]; [done|]. unfold strings_Count.
  pose proof (count_from_le_occurrences (String c sub) content O).
  pose proof (count_from_found (String c sub) content Hsub). lia.
Qed.

(** C2, amended: on a readable file the edit is decided by
    [strings.Count], the number of non-overlapping instances. A snippet
    that does not occur gives the not-found error, more than one instance
    gives the ambiguous-edit error, both without a write; exactly one
    instance, and so a non-empty snippet with exactly one occurrence, is
    replaced (the leftmost occurrence) and the result is handed to
    [createOrOverwriteFile]. *)
Theorem edit_decided_by_count (w : W) (path content originalSnippet newSnippet : string) :
  path ≠ "error" →
  os_ReadFile w path = Ok content →
  (occurrences content originalSnippet = O →
     applyDiffEdit w path originalSnippet newSnippet = (w, Some (notFoundError path)))
  ∧ ((1 < strings_Count content originalSnippet)%nat →
     applyDiffEdit w path originalSnippet newSnippet
     = (w, Some (ambiguousEditError (strings_Count content originalSnippet) path)))
  ∧ (strings_Count content originalSnippet = 1%nat →
     applyDiffEdit w path originalSnippet newSnippet
     = wrapWriteError path
         (createOrOverwriteFile w path
            (strings_Replace1 content originalSnippet newSnippet)))
  ∧ (originalSnippet ≠ "" → occurrences content originalSnippet = 1%nat →
     applyDiffEdit w path originalSnippet newSnippet
     = wrapWriteError path
         (createOrOverwriteFile w path
            (strings_Replace1 content originalSnippet newSnippet))).
Proof.
  intros Hne Hread.
  destruct (applyDiffEdit_by_count w path content originalSnippet newSnippet Hne Hread)
    as (Hnone & Hmany & Hone).
  repeat split; [|done|done|].
  - intros Hocc. apply Hnone. by apply Count_zero_of_no_occurrence.
  - intros Hsub Hocc. apply Hone. by apply Count_one_of_one_occurrence.
Qed.

(** What a successful edit has read and written. *)
Lemma applyDiffEdit_success (w w1 : W) (path originalSnippet newSnippet : string) :
  applyDiffEdit w path originalSnippet newSnippet = (w1, None) →
  ∃ content,
    path ≠ "error"
    ∧ os_ReadFile w path = Ok content
    ∧ strings_Count content originalSnippet = 1%nat
    ∧ createOrOverwriteFile w path (strings_Replace1 content originalSnippet newSnippet)
      = (w1, None).
Proof.
  unfold applyDiffEdit, normalizePath. case_bool_decide as Hp; [done|].
  destruct (os_ReadFile w path) as [content|e] eqn:Hread; [|done].
  cbv zeta.
  destruct (Nat.eqb_spec (strings_Count content originalSnippet) 0); [done|].
  destruct (Nat.ltb_spec 1 (strings_Count content originalSnippet)); [done|].
  intros Hw. exists content. repeat split; [done|lia|].
  destruct (createOrOverwriteFile w path _) as [w' [e|]]; simpl in Hw; congruence.
Qed.

Lemma createOrOverwriteFile_success (w w1 : W) (path content : string) :
  createOrOverwriteFile w path content = (w1, None) →
  ∃ w0, os_MkdirAll w (filepath_Dir path) = (w0, None)
        ∧ os_WriteFile w0 path content = (w1, None).
Proof.
  unfold createOrOverwriteFile, normalizePath. case_bool_decide; [done|].
  destruct (_ >? _); [done|].
  destruct (os_MkdirAll w (filepath_Dir path)) as [w0 [e|]]; [done|].
  destruct (os_WriteFile w0 path content) as [w2 [e|]] eqn:Hwrite; [done|].
  intros [= <-]. by exists w0.
Qed.

(** C6, amended: after a successful edit the file holds the content with
    the leftmost instance replaced, and a second edit with the same
    snippets is decided by counting the original snippet in that content:
    not found and nothing written when it is gone, the ambiguous-edit
    error and nothing written when there are several instances, and one
    more edit when there is exactly one. *)
Theorem reapplied_edit_recounts
    (w w1 : W) (path originalSnippet newSnippet : string) :
  (∀ w0 w' p c, os_WriteFile w0 p c = (w', None) → os_ReadFile w' p = Ok c) →
  applyDiffEdit w path originalSnippet newSnippet = (w1, None) →
  ∃ content,
    os_ReadFile w path = Ok content
    ∧ strings_Count content originalSnippet = 1%nat
    ∧ let updatedContent := strings_Replace1 content originalSnippet newSnippet in
      os_ReadFile w1 path = Ok updatedContent
      ∧ (strings_Count updatedContent originalSnippet = O →
           applyDiffEdit w1 path originalSnippet newSnippet
           = (w1, Some (notFoundError path)))
      ∧ ((1 < strings_Count updatedContent originalSnippet)%nat →
           applyDiffEdit w1 path originalSnippet newSnippet
           = (w1, Some (ambiguousEditError
                          (strings_Count updatedContent originalSnippet) path)))
      ∧ (strings_Count updatedContent originalSnippet = 1%nat →
           applyDiffEdit w1 path originalSnippet newSnippet
           = wrapWriteError path
               (createOrOverwriteFile w1 path
                  (strings_Replace1 updatedContent originalSnippet newSnippet))).
Proof.
  intros Hraw Hedit.
  destruct (applyDiffEdit_success _ _ _ _ _ Hedit) as (content & Hne & Hread & Hcount & Hw).
  destruct (createOrOverwriteFile_success _ _ _ _ Hw) as (w0 & _ & Hwrite).
  pose proof (Hraw _ _ _ _ Hwrite) as Hread1.
  exists content. split; [done|]. split; [done|]. cbv zeta. split; [done|].
  pose proof (applyDiffEdit_by_count w1 path _ originalSnippet newSnippet Hne Hread1)
    as (H0 & Hmany & Hone).
  done.
Qed.
End EditTheorems.

(** C10, at the path ["notes.txt"] and on an empty file system. *)
Lemma error_path_rejected_witness :
  normalizePath "notes.txt" = Ok "notes.txt".
Proof.
  refine (proj2 (proj2 (proj2 (proj2 (proj2
    (error_path_rejected {| Sim.files := ∅; Sim.trees := ∅ |}))))) "notes.txt" _).
  discriminate.
Defined.

(** C2 as stated fails: ["aa"] occurs twice in ["aaa"], at the offsets 0
    and 1, and the edit goes through, replacing the occurrence at 0. *)
Lemma edit_overlapping_counterexample :
  let w := {| Sim.files := {[ "f" := "aaa" ]}; Sim.trees := ∅ |} in
  os_ReadFile w "f" = Ok "aaa"
  ∧ occurrences "aaa" "aa" = 2%nat
  ∧ ∃ w', applyDiffEdit w "f" "aa" "b" = (w', None)
          ∧ os_ReadFile w' "f" = Ok "ba".
Proof.
  cbv zeta. split; [reflexivity|]. split; [reflexivity|].
  eexists. split; [reflexivity|]. vm_compute. reflexivity.
Qed.

Lemma edit_decided_by_count_witness :
  let w := {| Sim.files := {[ "f" := "hello world" ]}; Sim.trees := ∅ |} in
  applyDiffEdit w "f" "world" "there"
  = wrapWriteError "f" (createOrOverwriteFile w "f" "hello there").
Proof.
  cbv zeta.
  refine (proj1 (proj2 (proj2
    (edit_decided_by_count {| Sim.files := {[ "f" := "hello world" ]}; Sim.trees := ∅ |}
       "f" "hello world" "world" "there" _ _))) _).
  - discriminate.
  - reflexivity.
  - reflexivity.
Defined.

(** C6 as stated fails: the new snippet contains the original one, and the
    second application edits the file once more. *)
Lemma double_edit_counterexample :
  let w := {| Sim.files := {[ "f" := "a" ]}; Sim.trees := ∅ |} in
  ∃ w1 w2,
    applyDiffEdit w "f" "a" "ab" = (w1, None)
    ∧ os_ReadFile w1 "f" = Ok "ab"
    ∧ applyDiffEdit w1 "f" "a" "ab" = (w2, None)
    ∧ os_ReadFile w2 "f" = Ok "abb".
Proof.
  cbv zeta. do 2 eexists.
  split; [reflexivity|]. split; [vm_compute; reflexivity|].
  split; [vm_compute; reflexivity|]. vm_compute. reflexivity.
Qed.

Lemma Sim_read_after_write (w0 w' : Sim.World) (p c : string) :
  os_WriteFile w0 p c = (w', None) → os_ReadFile w' p = Ok c.
Proof.
  simpl. unfold Sim.WriteFile, Sim.ReadFile. intros [= <-]. simpl.
  by rewrite lookup_insert_eq.
Qed.

Lemma reapplied_edit_recounts_witness :
  let w := {| Sim.files := {[ "f" := "hello world" ]}; Sim.trees := ∅ |} in
  let w1 := {| Sim.files := {[ "f" := "hello there" ]}; Sim.trees := ∅ |} in
  applyDiffEdit w "f" "world" "there" = (w1, None)
  ∧ applyDiffEdit w1 "f" "world" "there" = (w1, Some (notFoundError "f")).
Proof.
  cbv zeta.
  assert (Hedit : applyDiffEdit {| Sim.files := {[ "f" := "hello world" ]}; Sim.trees := ∅ |}
                    "f" "world" "there"
                  = ({| Sim.files := {[ "f" := "hello there" ]}; Sim.trees := ∅ |}, None))
    by (vm_compute; reflexivity).
  split; [exact Hedit|].
  destruct (reapplied_edit_recounts _ _ _ _ _ Sim_read_after_write Hedit)
    as (content & Hread & _ & _ & Hgone & _).
  injection Hread as <-. apply Hgone. reflexivity.
Defined.

(** ** History trimming *)

Lemma partitionMessages_filter (history systemMessages otherMessages : list ChatCompletionMessage) :
  partitionMessages history systemMessages otherMessages
  = (systemMessages ++ systemMessagesOf history, otherMessages ++ otherMessagesOf history).
Proof.
  revert systemMessages otherMessages.
  induction history as [|msg rest IH]; intros sys oth.
  - simpl. by rewrite !app_nil_r.
  - cbn [partitionMessages]. unfold systemMessagesOf, otherMessagesOf in *.
    cbn [List.filter]. destruct (isSystem msg); cbn [negb].
    + rewrite IH. by rewrite <- app_assoc.
    + rewrite IH. by rewrite <- app_assoc.
Qed.

Lemma trimConversationHistory_unfold (history : list ChatCompletionMessage) :
  trimConversationHistory history
  = if (20 <? length (otherMessagesOf history))%nat
    then systemMessagesOf history
           ++ drop (length (otherMessagesOf history) - 15) (otherMessagesOf history)
    else history.
Proof.
  unfold trimConversationHistory. rewrite partitionMessages_filter. cbn [app].
  unfold minMessagesToTrim, maxMessagesToKeep.
  destruct (Z.leb_spec (Z.of_nat (length (otherMessagesOf history))) 20) as [Hle|Hgt].
  - destruct (Nat.ltb_spec 20 (length (otherMessagesOf history))); [lia|done].
  - destruct (Nat.ltb_spec 20 (length (otherMessagesOf history))); [|lia].
    destruct (Z.ltb_spec (Z.of_nat (length (otherMessagesOf history)) - 15) 0); [lia|].
    do 2 f_equal. lia.
Qed.

Lemma filter_system_others (l : list ChatCompletionMessage) :
  Forall (λ m, isSystem m = false) l →
  systemMessagesOf l = [] ∧ otherMessagesOf l = l.
Proof.
  unfold systemMessagesOf, otherMessagesOf.
  induction 1 as [|m l Hm _ [IH1 IH2]]; [done|].
  cbn [List.filter]. rewrite Hm. cbn [negb]. by rewrite IH1, IH2.
Qed.

Lemma filter_system_systems (l : list ChatCompletionMessage) :
  Forall (λ m, isSystem m = true) l →
  systemMessagesOf l = l ∧ otherMessagesOf l = [].
Proof.
  unfold systemMessagesOf, otherMessagesOf.
  induction 1 as [|m l Hm _ [IH1 IH2]]; [done|].
  cbn [List.filter]. rewrite Hm. cbn [negb]. by rewrite IH1, IH2.
Qed.

Lemma systemMessagesOf_all (l : list ChatCompletionMessage) :
  Forall (λ m, isSystem m = true) (systemMessagesOf l).
Proof.
  unfold systemMessagesOf. apply Forall_forall. intros m Hin.
  apply list_elem_of_In, List.filter_In in Hin. tauto.
Qed.

Lemma otherMessagesOf_all (l : list ChatCompletionMessage) :
  Forall (λ m, isSystem m = false) (otherMessagesOf l).
Proof.
  unfold otherMessagesOf. apply Forall_forall. intros m Hin.
  apply list_elem_of_In, List.filter_In in Hin. destruct Hin as [_ Hin].
  by destruct (isSystem m).
Qed.

Lemma systemMessagesOf_app (l1 l2 : list ChatCompletionMessage) :
  systemMessagesOf (l1 ++ l2) = systemMessagesOf l1 ++ systemMessagesOf l2.
Proof. apply List.filter_app. Qed.

Lemma otherMessagesOf_app (l1 l2 : list ChatCompletionMessage) :
  otherMessagesOf (l1 ++ l2) = otherMessagesOf l1 ++ otherMessagesOf l2.
Proof. apply List.filter_app. Qed.

(** C3, amended: with [N] non-system messages, trimming keeps [min N 15] of
    them when [N > 20] and all [N] otherwise; the system messages are kept,
    all of them and in their order; when [N > 20] the result is the system
    messages followed by the last 15 other messages, and otherwise the
    history is returned as it is, system messages staying where they are. *)
Theorem trim_keeps_system_and_recent (history : list ChatCompletionMessage) :
  let N := length (otherMessagesOf history) in
  length (otherMessagesOf (trimConversationHistory history))
  = (if (20 <? N)%nat then Nat.min N 15 else N)
  ∧ systemMessagesOf (trimConversationHistory history) = systemMessagesOf history
  ∧ trimConversationHistory history
    = if (20 <? N)%nat
      then systemMessagesOf history ++ drop (N - 15) (otherMessagesOf history)
      else history.
Proof.
  cbv zeta. rewrite trimConversationHistory_unfold.
  destruct (Nat.ltb_spec 20 (length (otherMessagesOf history))) as [Hgt|Hle];
    [|done].
  pose proof (filter_system_systems _ (systemMessagesOf_all history)) as [Hss Hso].
  assert (Hdrop : Forall (λ m, isSystem m = false)
                    (drop (length (otherMessagesOf history) - 15) (otherMessagesOf history)))
    by (apply Forall_drop, otherMessagesOf_all).
  pose proof (filter_system_others _ Hdrop) as [Hds Hdo].
  rewrite otherMessagesOf_app, systemMessagesOf_app, Hss, Hso, Hds, Hdo.
  rewrite app_nil_r. cbn [app]. rewrite length_drop.
  repeat split. lia.
Qed.

(** C3 as stated fails below the threshold: a system message that follows a
    user message stays behind it. *)
Lemma trim_not_reassembled_counterexample :
  let history := [textMessage RoleUser "hi"; textMessage RoleSystem "Content of file 'a'"] in
  trimConversationHistory history = history
  ∧ trimConversationHistory history
    ≠ systemMessagesOf history ++ otherMessagesOf history.
Proof. cbv zeta. split; [reflexivity|]. vm_compute. discriminate. Qed.

(** ** Merging tool-call fragments *)

Lemma sapp_nil_l (s : string) : "" +:+ s = s.
Proof. reflexivity. Qed.

Lemma sapp_cons (c : ascii) (s t : string) : String c s +:+ t = String c (s +:+ t).
Proof. reflexivity. Qed.

Lemma sapp_nil_r (s : string) : s +:+ "" = s.
Proof. induction s as [|c s IH]; [done|]. by rewrite sapp_cons, IH. Qed.

Lemma sapp_assoc (s t u : string) : (s +:+ t) +:+ u = s +:+ (t +:+ u).
Proof. induction s as [|c s IH]; [done|]. by rewrite !sapp_cons, IH. Qed.

(** What a run of fragments makes of one tool call. *)
Lemma foldl_mergeInto (ps : list ToolCall) :
  ∀ tc,
    foldl mergeInto tc ps
    = {| tc_Index := tc_Index tc;
         tc_ID := tc_ID tc +:+ concatStrings (tc_ID <$> ps);
         tc_Type := default (tc_Type tc) (tc_Type <$> last ps);
         tc_Function :=
           {| fc_Name := if bool_decide (fragmentName tc = "")
                         then firstNonEmpty (fragmentName <$> ps)
                         else fragmentName tc;
              fc_Arguments := fragmentArguments tc
                                +:+ concatStrings (fragmentArguments <$> ps) |} |}.
Proof.
  induction ps as [|d ps IH]; intros tc.
  - destruct tc as [i id ty [n a]]. cbn.
    rewrite !sapp_nil_r. by destruct (bool_decide (n = "")) eqn:E;
      [apply bool_decide_eq_true_1 in E; subst|].
  - cbn [foldl]. rewrite IH. destruct tc as [i id ty [n a]], d as [di did dty [dn da]].
    unfold mergeInto, fragmentName, fragmentArguments. cbn -[String.append last].
    rewrite !sapp_assoc. f_equal.
    + rewrite last_cons. by destruct (last ps).
    + f_equal. repeat case_bool_decide; congruence.
Qed.

Lemma foldl_mergeInto_empty (ps : list ToolCall) :
  foldl mergeInto emptyToolCall ps = mergedCall ps.
Proof.
  rewrite foldl_mergeInto. unfold mergedCall, emptyToolCall. cbn -[String.append last].
  by rewrite !sapp_nil_l.
Qed.

Lemma growToolCalls_length (toolCalls : list ToolCall) (idx : Z) :
  length (growToolCalls toolCalls idx) = Nat.max (length toolCalls) (Z.to_nat (idx + 1)).
Proof. unfold growToolCalls. rewrite length_app, length_replicate. lia. Qed.

Lemma growToolCalls_lookup (toolCalls : list ToolCall) (idx : Z) (i : nat) :
  (i < length (growToolCalls toolCalls idx))%nat →
  growToolCalls toolCalls idx !! i = Some (default emptyToolCall (toolCalls !! i)).
Proof.
  intros Hi. unfold growToolCalls in *.
  destruct (decide (i < length toolCalls)%nat) as [Hlt|Hge].
  - rewrite lookup_app_l by done.
    destruct (lookup_lt_is_Some_2 toolCalls i Hlt) as [tc ->]. done.
  - rewrite lookup_app_r by lia. rewrite (lookup_ge_None_2 toolCalls i) by lia.
    rewrite length_app, length_replicate in Hi.
    rewrite lookup_replicate_2 by lia. done.
Qed.

Lemma indicesInRange_cons (d : ToolCall) (fs : list ToolCall) :
  indicesInRange (d :: fs) →
  (∀ idx, tc_Index d = Some idx → 0 ≤ idx) ∧ indicesInRange fs.
Proof.
  intros Hr. split.
  - intros idx. apply Hr. left.
  - intros d' idx Hin. apply Hr. by right.
Qed.

Lemma mergeDeltas_spec (fs : list ToolCall) :
  ∀ toolCalls,
    indicesInRange fs →
    ∃ out,
      mergeDeltas toolCalls fs = Some out
      ∧ length out = Nat.max (length toolCalls) (covered fs)
      ∧ ∀ i, (i < length out)%nat →
             out !! i = Some (foldl mergeInto (default emptyToolCall (toolCalls !! i))
                                (pieces i fs)).
Proof.
  induction fs as [|d fs IH]; intros tcs Hr.
  - exists tcs. split; [done|]. split; [simpl; lia|].
    intros i Hi. destruct (lookup_lt_is_Some_2 tcs i Hi) as [tc ->]. done.
  - apply indicesInRange_cons in Hr as [Hd Hr].
    cbn [mergeDeltas covered]. unfold mergeDelta, pieces. cbn [List.filter].
    destruct (tc_Index d) as [idx|] eqn:Hidx.
    + specialize (Hd idx eq_refl).
      destruct (Z.ltb_spec idx 0) as [|_]; [lia|].
      assert (Hn : (Z.to_nat idx < length (growToolCalls tcs idx))%nat)
        by (rewrite growToolCalls_length; lia).
      rewrite (growToolCalls_lookup _ _ _ Hn). cbn [mbind option_bind].
      destruct (IH (<[Z.to_nat idx := mergeInto (default emptyToolCall (tcs !! Z.to_nat idx)) d]>
                      (growToolCalls tcs idx)) Hr) as (out & Hout & Hlen & Hlook).
      exists out. split; [done|].
      rewrite length_insert, growToolCalls_length in Hlen.
      split; [lia|]. intros i Hi. rewrite (Hlook i Hi). f_equal.
      destruct (decide (i = Z.to_nat idx)) as [->|Hne].
      * rewrite list_lookup_insert_eq by done. cbn [default].
        rewrite bool_decide_eq_true_2 by (f_equal; lia). done.
      * rewrite list_lookup_insert_ne by done.
        rewrite bool_decide_eq_false_2 by (intros [= ->]; lia).
        fold (pieces i fs).
        destruct (decide (i < length (growToolCalls tcs idx))%nat) as [Hlt|Hge].
        -- by rewrite (growToolCalls_lookup _ _ _ Hlt).
        -- rewrite (lookup_ge_None_2 (growToolCalls tcs idx) i) by lia.
           rewrite (lookup_ge_None_2 tcs i); [done|].
           rewrite growToolCalls_length in Hge. lia.
    + cbn [mbind option_bind].
      destruct (IH tcs Hr) as (out & Hout & Hlen & Hlook).
      exists out. split; [done|]. split; [done|].
      intros i Hi. rewrite bool_decide_eq_false_2 by done. by apply Hlook.
Qed.

Lemma mergeDeltas_app (fs1 fs2 : list ToolCall) :
  ∀ toolCalls,
    mergeDeltas toolCalls (fs1 ++ fs2)
    = toolCalls' ← mergeDeltas toolCalls fs1; mergeDeltas toolCalls' fs2.
Proof.
  induction fs1 as [|d fs1 IH]; intros tcs; [done|].
  cbn [app mergeDeltas]. destruct (mergeDelta tcs d) as [tcs'|]; [|done]. apply IH.
Qed.

(** The receive loop merges the fragments of all responses, in arrival
    order, into one collection. *)
Lemma receiveAll_merges (rs : list ChatCompletionStreamResponse) :
  ∀ a a',
    receiveAll a rs = Some a' →
    mergeDeltas (acc_toolCalls a) (fragmentsOf rs) = Some (acc_toolCalls a').
Proof.
  induction rs as [|response rs IH]; intros a a' Hrecv.
  - cbn in Hrecv. injection Hrecv as <-. done.
  - cbn [receiveAll] in Hrecv.
    destruct (receive a response) as [a1|] eqn:Hone; [|done]. cbn in Hrecv.
    unfold fragmentsOf. cbn [fmap list_fmap concat]. fold (fragmentsOf rs).
    rewrite mergeDeltas_app. unfold receive in Hone.
    destruct (Choices response) as [|choice others].
    + injection Hone as <-. cbn. by apply IH.
    + assert (Hmerge : mergeDeltas (acc_toolCalls a) (delta_ToolCalls choice)
                       = Some (acc_toolCalls a1)).
      { destruct (bool_decide (delta_Content choice ≠ "")).
        - destruct (ProcessChunk _ _) as [[f out]|]; [|done]. cbn in Hone.
          destruct (mergeDeltas _ _) as [tcs|]; [|done]. cbn in Hone.
          by injection Hone as <-.
        - cbn in Hone. destruct (mergeDeltas _ _) as [tcs|]; [|done]. cbn in Hone.
          by injection Hone as <-. }
      rewrite Hmerge. cbn. by apply IH.
Qed.

(** A negative index stops the program. *)
Example negative_index_panics :
  mergeDeltas [] [fragment (-1) "call_1" "function" "read_file" "{}"] = None.
Proof. reflexivity. Qed.

(** C1, amended: for fragments without a negative index the aggregator
    returns a collection that covers the highest index seen and whose entry
    [i] has for id and arguments the concatenation, in arrival order, of the
    pieces with index [i], for name the first non-empty name piece and for
    type the type of the last piece; hence two fragment sequences that
    deliver the same of these per index merge to the same collection. *)
Theorem merge_reads_off_pieces (fragments : list ToolCall) :
  indicesInRange fragments →
  ∃ toolCalls,
    mergeDeltas [] fragments = Some toolCalls
    ∧ length toolCalls = covered fragments
    ∧ (∀ i, (i < covered fragments)%nat →
            toolCalls !! i = Some (mergedCall (pieces i fragments)))
    ∧ (∀ fragments', indicesInRange fragments' → sameDelivery fragments fragments' →
                     mergeDeltas [] fragments' = Some toolCalls).
Proof.
  intros Hr.
  destruct (mergeDeltas_spec fragments [] Hr) as (out & Hout & Hlen & Hlook).
  cbn [length] in Hlen. rewrite Nat.max_0_l in Hlen.
  exists out. split; [done|]. split; [done|].
  assert (Hread : ∀ i, (i < covered fragments)%nat →
                       out !! i = Some (mergedCall (pieces i fragments))).
  { intros i Hi. rewrite Hlook by lia. by rewrite lookup_nil, foldl_mergeInto_empty. }
  split; [done|].
  intros fs' Hr' (Hcov & Hsame).
  destruct (mergeDeltas_spec fs' [] Hr') as (out' & Hout' & Hlen' & Hlook').
  cbn [length] in Hlen'. rewrite Nat.max_0_l in Hlen'.
  rewrite Hout'. f_equal. apply list_eq. intros i.
  destruct (decide (i < covered fragments)%nat) as [Hi|Hi].
  - rewrite (Hread i Hi), Hlook' by lia. rewrite lookup_nil, foldl_mergeInto_empty.
    f_equal. unfold mergedCall. destruct (Hsame i) as (-> & -> & -> & ->). done.
  - rewrite !lookup_ge_None_2 by lia. done.
Qed.

(** C1 as stated fails: the same id, name and arguments, cut differently.
    The name arrives whole in one run and in two pieces in the other, and
    the merge keeps the first piece only. *)
Lemma merge_split_name_counterexample :
  let whole := [fragment 0 "call_1" "function" "read_file" "{}"] in
  let split := [fragment 0 "call_1" "function" "read_" "{";
                fragment 0 "" "function" "file" "}"] in
  sameFields whole split
  ∧ mergeDeltas [] whole
    = Some [{| tc_Index := None; tc_ID := "call_1"; tc_Type := "function";
               tc_Function := {| fc_Name := "read_file"; fc_Arguments := "{}" |} |}]
  ∧ mergeDeltas [] split
    = Some [{| tc_Index := None; tc_ID := "call_1"; tc_Type := "function";
               tc_Function := {| fc_Name := "read_"; fc_Arguments := "{}" |} |}]
  ∧ mergeDeltas [] whole ≠ mergeDeltas [] split.
Proof.
  cbv zeta. split; [|split; [reflexivity|split; [reflexivity|vm_compute; discriminate]]].
  intros i. unfold pieces, fragment. cbn [List.filter tc_Index].
  destruct (bool_decide (Some 0 = Some (Z.of_nat i))); done.
Qed.

Lemma merge_reads_off_pieces_witness :
  ∃ toolCalls,
    mergeDeltas [] [fragment 1 "b" "function" "create_file" "{";
                    fragment 0 "a" "function" "read_file" "{}";
                    fragment 1 "" "" "" "}"] = Some toolCalls
    ∧ length toolCalls = 2%nat.
Proof.
  destruct (merge_reads_off_pieces
              [fragment 1 "b" "function" "create_file" "{";
               fragment 0 "a" "function" "read_file" "{}";
               fragment 1 "" "" "" "}"]) as (toolCalls & Hm & Hlen & _).
  - intros d idx Hin Hidx.
    repeat (apply elem_of_cons in Hin as [->|Hin]; [injection Hidx as <-; lia|]).
    by apply elem_of_nil in Hin.
  - exists toolCalls. split; [exact Hm|exact Hlen].
Defined.

(** ** The numbered-item branch of the formatter *)

Lemma Index_of_trimmed_prefix (f : ascii → bool) (pre : string) (s : string) :
  strings_HasPrefix (trimLeftFunc f s) pre = true → is_Some (strings_Index s pre).
Proof.
  induction s as [|c s IH]; cbn [trimLeftFunc strings_Index].
  - intros ->. by eexists.
  - destruct (f c).
    + intros Hpre. destruct (strings_HasPrefix (String c s) pre); [by eexists|].
      destruct (IH Hpre) as [i ->]. by eexists.
    + intros ->. by eexists.
Qed.

(** White space of several bytes is trimmed and splits fields: the no-break
    space U+00A0 and the ideographic space U+3000 are white space, a byte
    [0xA0] on its own is not. *)
Lemma TrimSpace_unicode :
  strings_TrimSpace (String "194"%char (String "160"%char "}")) = "}"
  ∧ strings_TrimSpace ("1." +:+ String "194"%char (String "160"%char "")) = "1."
  ∧ strings_TrimSpace
      (" x " +:+ String "227"%char (String "128"%char (String "128"%char " "))) = "x"
  ∧ strings_TrimSpace (String "160"%char " x ") = String "160"%char " x"
  ∧ strings_Fields ("1." +:+ String "194"%char (String "160"%char "a b"))
    = ["1."; "a"; "b"].
Proof. vm_compute. by repeat split. Qed.

Lemma fields_from_word (s : string) :
  ∀ word, ∃ numPart rest, fields_from (Some word) s = numPart :: rest.
Proof.
  induction s as [|c s IH]; intros word; cbn [fields_from]; [by eexists _, _|].
  destruct (asciiSpace (byteOf c)); [by eexists _, _|]. apply IH.
Qed.

Lemma fieldsFunc_loop_word (f : Z → bool) (fuel : nat) :
  ∀ s word, ∃ numPart rest, fieldsFunc_loop fuel f (Some word) s = numPart :: rest.
Proof.
  induction fuel as [|fuel IH]; intros s word; [by eexists _, _|].
  destruct s as [|c s]; [by eexists _, _|]. cbn [fieldsFunc_loop].
  destruct (utf8_DecodeRuneInString (String c s)) as [r size].
  destruct (f r); [by eexists _, _|]. apply IH.
Qed.

Lemma digit_is_ascii (c : ascii) :
  containsByte "0123456789" c = true →
  (byteOf c <? RuneSelf) = true ∧ unicode_IsSpace (byteOf c) = false
  ∧ asciiSpace (byteOf c) = false.
Proof. destruct c as [[] [] [] [] [] [] [] []]; vm_compute; by intros. Qed.

(** The lines the spec describes do take the numbered-item branch: outside
    a code fence, a line that after trimming begins with a run of digits
    followed by [". "] or [") "] is rendered as a numbered item. *)
Lemma numbered_shape_rendered (f : MatrixTextStreamFormatter) (line : string) :
  inCodeBlock f = false →
  beginsWithNumber (strings_TrimSpace line) = true →
  ∃ numPart restOfLine,
    formatAndPrintLine f line = Some (f, NumberedItem numPart restOfLine).
Proof.
  intros Hfence Hshape. unfold formatAndPrintLine. cbv zeta. rewrite Hfence.
  destruct (strings_TrimSpace line) as [|c t] eqn:Htrim; [done|].
  unfold beginsWithNumber in Hshape. cbv zeta in Hshape.
  apply andb_true_iff in Hshape as [Hdigits Hsep].
  cbn [trimLeftFunc] in Hdigits, Hsep.
  destruct (isDigit c) eqn:Hc;
    [|by rewrite bool_decide_eq_true_2 in Hdigits].
  clear Hdigits.
  assert (Hnot : ∀ pre c', pre = String c' EmptyString ∨ (∃ p, pre = String c' p) →
                           isDigit c' = false →
                           strings_HasPrefix (String c t) pre = false).
  { intros pre c' Hpre Hc'. unfold strings_HasPrefix.
    destruct Hpre as [->|[p ->]]; cbn [String.prefix];
      destruct (ascii_dec c' c) as [->|]; congruence. }
  rewrite (Hnot "```" "`"%char), (Hnot "* " "*"%char), (Hnot "- " "-"%char);
    [|by eauto..].
  cbn [orb].
  assert (Hlen : ∃ c2 t2, t = String c2 t2).
  { destruct t as [|c2 t2]; [|by eauto]. cbn in Hsep. done. }
  destruct Hlen as (c2 & t2 & ->).
  assert (Hcontains : strings_Contains (String c (String c2 t2)) ". "
                      || strings_Contains (String c (String c2 t2)) ") " = true).
  { apply orb_true_iff. apply orb_true_iff in Hsep as [Hsep|Hsep]; [left|right];
      unfold strings_Contains; apply bool_decide_eq_true_2;
      apply (Index_of_trimmed_prefix isDigit); cbn [trimLeftFunc]; by rewrite Hc. }
  unfold numberedCondition.
  change (slen (String c (String c2 t2))) with (Datatypes.S (Datatypes.S (slen t2))).
  cbn [Nat.ltb Nat.leb]. rewrite Hcontains.
  cbn [stake strings_ContainsAny]. unfold isDigit in Hc. rewrite Hc.
  assert (Hempty : strings_HasPrefix
                     (strings_TrimLeft (String c (String c2 t2)) "0123456789. ") "" = true)
    by (unfold strings_HasPrefix; by destruct (strings_TrimLeft _ _)).
  rewrite Hempty. cbn [andb].
  destruct (digit_is_ascii c Hc) as (Hascii & Hrune & Hsp).
  assert (Hfields : ∃ numPart others,
            strings_Fields (String c (String c2 t2)) = numPart :: others).
  { unfold strings_Fields. destruct (hasNonASCII _).
    - unfold strings_FieldsFunc.
      change (slen (String c (String c2 t2))) with (Datatypes.S (slen (String c2 t2))).
      cbn [fieldsFunc_loop utf8_DecodeRuneInString]. rewrite Hascii, Hrune.
      apply fieldsFunc_loop_word.
    - cbn [fields_from]. rewrite Hsp.
      destruct (asciiSpace (byteOf c2)); [by eexists _, _|apply fields_from_word]. }
  destruct Hfields as (numPart & others & ->). by eexists _, _.
Qed.

(** C9, where the code departs from it: outside a code fence the line
    ["a1 b. c"], which does not begin with a digit, is rendered as a numbered
    item with the number token ["a1"]; the line ["3x says. hi"], which
    begins with a digit that no [". "] or [") "] follows, is rendered as a
    numbered item as well; and a line of one byte is not rendered at all, the slice
    [trimmedLine[:2]] being out of range. *)
Theorem numbered_item_misdetected :
  beginsWithNumber "a1 b. c" = false
  ∧ formatAndPrintLine NewMatrixTextStreamFormatter "a1 b. c"
    = Some (NewMatrixTextStreamFormatter, NumberedItem "a1" "b. c")
  ∧ beginsWithNumber "3x says. hi" = false
  ∧ formatAndPrintLine NewMatrixTextStreamFormatter "3x says. hi"
    = Some (NewMatrixTextStreamFormatter, NumberedItem "3x" "says. hi")
  ∧ formatAndPrintLine NewMatrixTextStreamFormatter "}" = None.
Proof. repeat split; reflexivity. Qed.

(** The branch does take the lines the spec describes. *)
Example numbered_item_detected :
  beginsWithNumber "12. first step" = true
  ∧ formatAndPrintLine NewMatrixTextStreamFormatter "12. first step"
    = Some (NewMatrixTextStreamFormatter, NumberedItem "12." "first step")
  ∧ formatAndPrintLine NewMatrixTextStreamFormatter "2) second"
    = Some (NewMatrixTextStreamFormatter, NumberedItem "2)" "second").
Proof. repeat split; reflexivity. Qed.

(** ** Transport errors *)

Section TurnTheorems.
Context {W : Type} `{Platform W} `{JsonCodec}.

Lemma take_all_but_last {A} (l : list A) (x : A) :
  take (length (l ++ [x]) - 1) (l ++ [x]) = l.
Proof.
  rewrite length_app. cbn [length].
  replace (length l + 1 - 1)%nat with (length l) by lia.
  by rewrite take_app_length.
Qed.

(** When the stream cannot be opened, the user message is taken out again. *)
Lemma open_failure_rolls_back (client : Client) (userMessage : string) (s : Session) :
  (∀ req, is_Fail (client req)) →
  StreamAIResponse client userMessage s
  = Some {| ConversationHistory :=
              seedHistory (trimConversationHistory (ConversationHistory s));
            world := world s; terminal := terminal s |}.
Proof.
  intros Hfail. unfold StreamAIResponse.
  fold (seedHistory (trimConversationHistory (ConversationHistory s))).
  match goal with |- context [client ?r] => specialize (Hfail r); destruct (client r) end;
    [done|].
  by rewrite take_all_but_last.
Qed.

(** The turn does not look at how the stream ended. *)
Lemma ending_ignored (rs : list ChatCompletionStreamResponse) (e : Err)
    (userMessage : string) (s : Session) :
  StreamAIResponse (λ _, Ok {| responses := rs; ending := Some e |}) userMessage s
  = StreamAIResponse (λ _, Ok {| responses := rs; ending := None |}) userMessage s.
Proof. reflexivity. Qed.

(** One tool message per call, in order, each with the id and name of its call. *)
Lemma executeTools_per_call (toolCalls : list ToolCall) :
  ∀ w,
    (msg_ToolCallID <$> (executeTools w toolCalls).2) = (tc_ID <$> toolCalls)
    ∧ (msg_Name <$> (executeTools w toolCalls).2) = (fragmentName <$> toolCalls)
    ∧ Forall (λ m, msg_Role m = RoleTool) (executeTools w toolCalls).2.
Proof.
  induction toolCalls as [|tc rest IH]; intros w; [done|].
  cbn [executeTools]. destruct (executeTool w tc) as [w1 content].
  specialize (IH w1). destruct (executeTools w1 rest) as [w2 msgs].
  destruct IH as (IH1 & IH2 & IH3). cbn in *.
  rewrite IH1, IH2. repeat split. by constructor.
Qed.

(** The three names the switch knows are dispatched to their primitives. *)
Lemma read_file_dispatched (w : W) (id arguments : string) (args : ReadFileArgs) :
  unmarshal_ReadFileArgs arguments = Ok args →
  executeTool w (namedCall id "read_file" arguments)
  = match readLocalFile w (rf_FilePath args) with
    | Fail errRead => (w, "Error reading file " +:+ rf_FilePath args +:+ ": " +:+ errRead)
    | Ok content =>
        (w, "Content of file '" +:+ rf_FilePath args +:+ "':" +:+ nl +:+ nl +:+ content)
    end.
Proof. intros Hparse. unfold executeTool. cbn. by rewrite Hparse. Qed.

Lemma create_file_dispatched (w : W) (id arguments : string) (args : FileToCreate) :
  unmarshal_FileToCreate arguments = Ok args →
  executeTool w (namedCall id "create_file" arguments)
  = match createOrOverwriteFile w (ftc_Path args) (ftc_Content args) with
    | (w', Some errCreate) =>
        (w', "Error creating file " +:+ ftc_Path args +:+ ": " +:+ errCreate)
    | (w', None) => (w', "Successfully created/overwrote file " +:+ ftc_Path args)
    end.
Proof. intros Hparse. unfold executeTool. cbn. by rewrite Hparse. Qed.

Lemma edit_file_dispatched (w : W) (id arguments : string) (args : FileToEdit) :
  unmarshal_FileToEdit arguments = Ok args →
  executeTool w (namedCall id "edit_file" arguments)
  = match applyDiffEdit w (fte_Path args) (fte_OriginalSnippet args)
            (fte_NewSnippet args) with
    | (w', Some errEdit) => (w', "Error editing file " +:+ fte_Path args +:+ ": " +:+ errEdit)
    | (w', None) => (w', "Successfully edited file " +:+ fte_Path args)
    end.
Proof. intros Hparse. unfold executeTool. cbn. by rewrite Hparse. Qed.

(** C5, where the code departs from it: a call of [read_multiple_files] or
    of [create_multiple_files], two of the five registered names, reaches
    no primitive; whatever the arguments, the file system is left as it is
    and the result is the placeholder text. *)
Theorem multiple_files_not_dispatched (w : W) (id arguments : string) :
  In "read_multiple_files" tools
  ∧ In "create_multiple_files" tools
  ∧ executeTool w (namedCall id "read_multiple_files" arguments)
    = (w, "Placeholder: No actual execution for read_multiple_files yet.")
  ∧ executeTool w (namedCall id "create_multiple_files" arguments)
    = (w, "Placeholder: No actual execution for create_multiple_files yet.").
Proof. repeat split; cbn; tauto. Qed.
End TurnTheorems.

(** C4, where the code departs from it: the stream opens, delivers ["Hel"]
    and then fails. The turn goes on as if the stream had ended: the user
    message stays in the history and the partial reply is stored behind it. *)
Theorem receive_failure_keeps_user_message :
  let before := [textMessage RoleSystem systemPrompt] in
  let s := {| ConversationHistory := before;
              world := {| Sim.files := ∅; Sim.trees := ∅ |}; terminal := [] |} in
  let client : Client :=
    λ _, Ok {| responses := [textResponse "Hel"]; ending := Some "unexpected EOF" |} in
  ∃ s', StreamAIResponse client "hi" s = Some s'
        ∧ ConversationHistory s'
          = before ++ [textMessage RoleUser "hi"; textMessage RoleAssistant "Hel"]
        ∧ ConversationHistory s' ≠ before.
Proof.
  cbv zeta. eexists. split; [vm_compute; reflexivity|]. split; [reflexivity|discriminate].
Qed.

(** ** The directory walk *)


Section WalkLemmas.
Context {W : Type} `{Platform W}.

Lemma walkDir_unfold {S} (fn : string → WalkArg → S → S * option WalkErr)
    (path : string) (d : DirEntry) (entries : list DirTree) (rderr : option Err) (st : S) :
  walkDir fn path (Node d entries rderr) st
  = match fn path (Visit d) st with
    | (st1, Some e) => (st1, skippedDir d e)
    | (st1, None) =>
        if negb (de_IsDir d) then (st1, None)
        else
          match (match rderr with
                 | Some re => fn path (VisitErr (Some d) re) st1
                 | None => (st1, None)
                 end) with
          | (st2, Some e) => (st2, skippedDir d e)
          | (st2, None) => walkEntries (walkDir fn) path entries st2
          end
    end.
Proof. reflexivity. Qed.

(** A regular entry for which the walk function returns [nil] does not stop
    the loop over its directory. *)
Lemma walkEntries_continues {S} (fn : string → WalkArg → S → S * option WalkErr)
    (path : string) (d : DirEntry) (rest : list DirTree) (st st' : S) :
  de_IsDir d = false →
  fn (filepath_Join path (de_Name d)) (Visit d) st = (st', None) →
  walkEntries (walkDir fn) path (Node d [] None :: rest) st
  = walkEntries (walkDir fn) path rest st'.
Proof.
  intros Hfile Hfn. cbn [walkEntries entry]. rewrite walkDir_unfold, Hfn, Hfile. done.
Qed.

Section Related.
Context {S1 S2 : Type}.
Variable fn1 : string → WalkArg → S1 → S1 * option WalkErr.
Variable fn2 : string → WalkArg → S2 → S2 * option WalkErr.
Variable R : S1 → S2 → Prop.

Hypothesis Hfn : ∀ path a s1 s2, R s1 s2 → related R (fn1 path a s1) (fn2 path a s2).

Lemma walkEntries_related (walk1 : string → DirTree → S1 → S1 * option WalkErr)
    (walk2 : string → DirTree → S2 → S2 * option WalkErr)
    (path : string) (entries : list DirTree) :
  Forall (λ t, ∀ p s1 s2, R s1 s2 → related R (walk1 p t s1) (walk2 p t s2)) entries →
  ∀ s1 s2, R s1 s2 →
           related R (walkEntries walk1 path entries s1) (walkEntries walk2 path entries s2).
Proof.
  induction 1 as [|t entries Ht _ IH]; intros s1 s2 HR; [done|].
  cbn [walkEntries].
  destruct (Ht (filepath_Join path (de_Name (entry t))) s1 s2 HR) as [HR' Heq].
  destruct (walk1 _ t s1) as [s1' r1], (walk2 _ t s2) as [s2' r2].
  cbn in HR', Heq. subst r2. destruct r1 as [[| |e]|]; try done. by apply IH.
Qed.

Lemma walkDir_related (t : DirTree) :
  ∀ path s1 s2, R s1 s2 → related R (walkDir fn1 path t s1) (walkDir fn2 path t s2).
Proof.
  induction t as [d entries rderr IH] using DirTree_nested_ind.
  intros path s1 s2 HR. rewrite !walkDir_unfold.
  destruct (Hfn path (Visit d) s1 s2 HR) as [HR1 Heq1].
  destruct (fn1 path (Visit d) s1) as [s1' r1], (fn2 path (Visit d) s2) as [s2' r2].
  cbn in HR1, Heq1. subst r2. destruct r1 as [e|]; [done|].
  destruct (negb (de_IsDir d)); [done|].
  assert (Hr2 : related R
                  (match rderr with
                   | Some re => fn1 path (VisitErr (Some d) re) s1'
                   | None => (s1', None)
                   end)
                  (match rderr with
                   | Some re => fn2 path (VisitErr (Some d) re) s2'
                   | None => (s2', None)
                   end))
    by (destruct rderr; [by apply Hfn|done]).
  destruct (match rderr with Some re => fn1 path _ s1' | None => _ end) as [s1'' r1].
  destruct (match rderr with Some re => fn2 path _ s2' | None => _ end) as [s2'' r2].
  destruct Hr2 as [HR2 Heq2]. cbn in HR2, Heq2. subst r2.
  destruct r1 as [e|]; [done|]. by apply walkEntries_related.
Qed.

Lemma WalkDir_related (w : W) (root : string) (s1 : S1) (s2 : S2) :
  R s1 s2 →
  R (WalkDir fn1 w root s1).1 (WalkDir fn2 w root s2).1
  ∧ (WalkDir fn1 w root s1).2 = (WalkDir fn2 w root s2).2.
Proof.
  intros HR. unfold WalkDir.
  assert (Hrel : related R
                   (match os_Lstat w root with
                    | Fail e => fn1 root (VisitErr None e) s1
                    | Ok t => walkDir fn1 root t s1
                    end)
                   (match os_Lstat w root with
                    | Fail e => fn2 root (VisitErr None e) s2
                    | Ok t => walkDir fn2 root t s2
                    end))
    by (destruct (os_Lstat w root); [by apply walkDir_related|by apply Hfn]).
  destruct (match os_Lstat w root with Ok t => walkDir fn1 root t s1 | Fail e => _ end)
    as [s1' r1].
  destruct (match os_Lstat w root with Ok t => walkDir fn2 root t s2 | Fail e => _ end)
    as [s2' r2].
  destruct Hrel as [HR' Heq]. cbn in HR', Heq. subst r2.
  by destruct r1 as [[| |e]|].
Qed.
End Related.

(** A walk function that returns [nil] or [SkipDir] only makes a walk
    without error. *)
Lemma walkEntries_mild {S} (walk : string → DirTree → S → S * option WalkErr)
    (path : string) (entries : list DirTree) :
  Forall (λ t, ∀ p st, mild (walk p t st).2) entries →
  ∀ st, (walkEntries walk path entries st).2 = None.
Proof.
  induction 1 as [|t entries Ht _ IH]; intros st; [done|].
  cbn [walkEntries]. specialize (Ht (filepath_Join path (de_Name (entry t))) st).
  destruct (walk _ t st) as [st' r]. destruct Ht as [Hr|Hr]; cbn in Hr; subst r; [|done].
  apply IH.
Qed.

Lemma skippedDir_mild (d : DirEntry) (e : WalkErr) :
  mild (Some e) → mild (skippedDir d e).
Proof.
  intros [?|[= ->]]; [done|]. unfold skippedDir. destruct (de_IsDir d); [by left|by right].
Qed.

Lemma walkDir_mild {S} (fn : string → WalkArg → S → S * option WalkErr) :
  (∀ path a st, mild (fn path a st).2) →
  ∀ t path st, mild (walkDir fn path t st).2.
Proof.
  intros Hfn t. induction t as [d entries rderr IH] using DirTree_nested_ind.
  intros path st. rewrite walkDir_unfold.
  pose proof (Hfn path (Visit d) st) as H1.
  destruct (fn path (Visit d) st) as [st1 [e|]]; [by apply skippedDir_mild|].
  destruct (negb (de_IsDir d)); [by left|].
  destruct rderr as [re|].
  - pose proof (Hfn path (VisitErr (Some d) re) st1) as H2.
    destruct (fn path (VisitErr (Some d) re) st1) as [st2 [e|]];
      [by apply skippedDir_mild|].
    left. by apply walkEntries_mild.
  - left. by apply walkEntries_mild.
Qed.

Lemma WalkDir_mild {S} (fn : string → WalkArg → S → S * option WalkErr)
    (w : W) (root : string) (st : S) :
  (∀ path a st, mild (fn path a st).2) →
  (WalkDir fn w root st).2 = None.
Proof.
  intros Hfn. unfold WalkDir.
  assert (Hm : mild (match os_Lstat w root with
                     | Fail e => fn root (VisitErr None e) st
                     | Ok t => walkDir fn root t st
                     end).2)
    by (destruct (os_Lstat w root); [by apply walkDir_mild|apply Hfn]).
  destruct (match os_Lstat w root with Ok t => _ | Fail e => _ end) as [st' r].
  by destruct Hm as [Hr|Hr]; cbn in Hr; subst r.
Qed.

(** ** Directory ingestion *)

Lemma scanEntry_event (w : W) (root path : string) (a : WalkArg) (st : ScanState) :
  scanEntry w root path a st
  = (applyEvent st (scanEvent w root path a st).1, (scanEvent w root path a st).2).
Proof.
  unfold scanEntry, scanEvent. destruct a as [d|d e]; [|reflexivity].
  cbv zeta.
  repeat match goal with
         | |- context [if ?b then _ else _] => destruct b
         | |- context [match ?r with Ok _ => _ | Fail _ => _ end] => destruct r
         end.
  all: reflexivity.
Qed.

Lemma scanEvent_mild (w : W) (root path : string) (a : WalkArg) (st : ScanState) :
  mild (scanEvent w root path a st).2.
Proof.
  unfold scanEvent. destruct a as [d|d e]; [|left; reflexivity].
  cbv zeta.
  repeat match goal with
         | |- context [if ?b then _ else _] => destruct b
         | |- context [match ?r with Ok _ => _ | Fail _ => _ end] => destruct r
         end.
  all: cbn [snd]; first [left; reflexivity|right; reflexivity].
Qed.

Lemma scanEntry_mild (w : W) (root path : string) (a : WalkArg) (st : ScanState) :
  mild (scanEntry w root path a st).2.
Proof. rewrite scanEntry_event. apply scanEvent_mild. Qed.
End WalkLemmas.

Section IngestionTheorems.
Context {W : Type} `{Platform W}.

Lemma addDirectory_walk (w : W) (directoryPath : string) :
  directoryPath ≠ "error" →
  addDirectoryToConversationHelper w directoryPath
  = (addedFileContents (WalkDir (scanEntry w directoryPath) w directoryPath emptyScan).1,
     skippedFilePaths (WalkDir (scanEntry w directoryPath) w directoryPath emptyScan).1,
     None).
Proof.
  intros Hne. unfold addDirectoryToConversationHelper.
  rewrite (normalizePath_other _ Hne). fold emptyScan.
  pose proof (WalkDir_mild (scanEntry w directoryPath) w directoryPath emptyScan
                (scanEntry_mild w directoryPath)) as Hnil.
  destruct (WalkDir (scanEntry w directoryPath) w directoryPath emptyScan) as [st r].
  cbn in Hnil. by subst r.
Qed.

Lemma admissible_true (st : ScanState) (d : DirEntry) :
  admissible st d = true →
  (maxTotalFiles <=? filesProcessed st)%nat = false
  ∧ de_IsDir d = false
  ∧ strings_HasPrefix (de_Name d) "." = false
  ∧ bool_decide (de_Name d ∈ excludedFiles) = false
  ∧ bool_decide (strings_ToLower (filepath_Ext (de_Name d)) ∈ excludedExtensions) = false.
Proof.
  unfold admissible.
  destruct (maxTotalFiles <=? _)%nat, (de_IsDir d), (strings_HasPrefix _ _),
    (bool_decide (_ ∈ excludedFiles)), (bool_decide (_ ∈ excludedExtensions));
    cbn [negb andb]; intros Ha; first [discriminate Ha|repeat split].
Qed.

(** What the walk function does with the errors at an entry: an error the
    walk reports, and a failure of [Info], of the binary probe or of the read
    on an entry that passed the other checks, becomes a skip record of the
    path and the reason, and the walk function returns [nil]. *)
Lemma entry_errors_become_skips (w : W) (directoryPath : string) :
  (∀ path d e st,
     scanEntry w directoryPath path (VisitErr d e) st
     = (skip st (path +:+ " (walk error: " +:+ e +:+ ")"), None))
  ∧ (∀ path d e st,
       admissible st d = true → de_Info d = Fail e →
       scanEntry w directoryPath path (Visit d) st
       = (skip st (path +:+ " (stat error: " +:+ e +:+ ")"), None))
  ∧ (∀ path d fileInfo e st,
       admissible st d = true → de_Info d = Ok fileInfo →
       fi_Size fileInfo ≤ maxFileSize →
       isBinaryFile w path = Fail e →
       scanEntry w directoryPath path (Visit d) st
       = (skip st (path +:+ " (binary check error: " +:+ e +:+ ")"), None))
  ∧ (∀ path d fileInfo e st,
       admissible st d = true → de_Info d = Ok fileInfo →
       fi_Size fileInfo ≤ maxFileSize →
       isBinaryFile w path = Ok false →
       readLocalFile w path = Fail e →
       scanEntry w directoryPath path (Visit d) st
       = (skip st (path +:+ " (read error: " +:+ e +:+ ")"), None)).
Proof.
  split; [|split; [|split]].
  - done.
  - intros path d e st (Hq & Hdir & Hhid & Hname & Hext)%admissible_true Hinfo.
    unfold scanEntry. cbv zeta. by rewrite Hq, Hdir, Hhid, Hname, Hext, Hinfo.
  - intros path d fileInfo e st (Hq & Hdir & Hhid & Hname & Hext)%admissible_true
      Hinfo Hsize Hbin.
    unfold scanEntry. cbv zeta. rewrite Hq, Hdir, Hhid, Hname, Hext, Hinfo, Hbin.
    destruct (Z.gtb_spec (fi_Size fileInfo) maxFileSize); [lia|done].
  - intros path d fileInfo e st (Hq & Hdir & Hhid & Hname & Hext)%admissible_true
      Hinfo Hsize Hbin Hread.
    unfold scanEntry. cbv zeta. rewrite Hq, Hdir, Hhid, Hname, Hext, Hinfo, Hbin, Hread.
    destruct (Z.gtb_spec (fi_Size fileInfo) maxFileSize); [lia|done].
Qed.

(** C7, where the code departs from it: the walk function answers every
    error it is handed with a skip record and [nil], the [Lstat] error of the
    root included. The walk therefore never fails and the statement that
    returns ["error walking directory ..."] is never reached: the call
    returns no error for any path but ["error"], and a root that cannot be
    opened gives an empty map, one skip record and no error. *)
Theorem root_failure_not_reported (w : W) (directoryPath : string) :
  directoryPath ≠ "error" →
  (addDirectoryToConversationHelper w directoryPath).2 = None
  ∧ (∀ e, os_Lstat w directoryPath = Fail e →
          addDirectoryToConversationHelper w directoryPath
          = (∅, [directoryPath +:+ " (walk error: " +:+ e +:+ ")"], None)).
Proof.
  intros Hne. split.
  - by rewrite addDirectory_walk.
  - intros e Hroot. rewrite addDirectory_walk by done. unfold WalkDir. by rewrite Hroot.
Qed.

(** *** The result of a scan and its trace *)

Lemma skipsOf_snoc (trace : list ScanEvent) (ev : ScanEvent) :
  skipsOf (trace ++ [ev])
  = skipsOf trace ++ match ev with Skipped record => [record] | _ => [] end.
Proof. unfold skipsOf. rewrite omap_app. by destruct ev. Qed.

Lemma storesOf_snoc (trace : list ScanEvent) (ev : ScanEvent) :
  storesOf (trace ++ [ev])
  = storesOf trace ++ match ev with
                      | Stored relativePath content => [(relativePath, content)]
                      | _ => []
                      end.
Proof. unfold storesOf. rewrite omap_app. by destruct ev. Qed.

Lemma storeAll_snoc (m : gmap string string) (stores : list (string * string))
    (k v : string) :
  storeAll m (stores ++ [(k, v)]) = <[k := v]> (storeAll m stores).
Proof. unfold storeAll. by rewrite foldl_app. Qed.

Lemma storeAll_lookup (stores : list (string * string)) :
  ∀ (m : gmap string string) k v,
    storeAll m stores !! k = Some v → m !! k = Some v ∨ (k, v) ∈ stores.
Proof.
  induction stores as [|[k' v'] stores IH]; intros m k v Hl; [by left|].
  cbn [storeAll foldl] in Hl. apply IH in Hl as [Hl|Hl].
  - apply lookup_insert_Some in Hl as [[<- <-]|[_ Hl]]; [right; left|by left].
  - right. by right.
Qed.

Lemma scanEvent_stores (w : W) (root path : string) (a : WalkArg) (st : ScanState) :
  storesWhatWasRead w root (scanEvent w root path a st).1.
Proof.
  unfold scanEvent. destruct a as [d|d e]; [|exact I].
  cbv zeta.
  repeat match goal with
         | |- context [if ?b then _ else _] => destruct b
         | |- context [match ?r with Ok _ => _ | Fail _ => _ end] => destruct r eqn:?
         end.
  all: cbn [fst storesWhatWasRead]; try exact I.
  eexists. split; [reflexivity|eassumption].
Qed.

Lemma tracedEntry_invariant (w : W) (root path : string) (a : WalkArg)
    (stt : ScanState * list ScanEvent) (st : ScanState) :
  traceInvariant w root stt st →
  related (traceInvariant w root) (tracedEntry w root path a stt) (scanEntry w root path a st).
Proof.
  destruct stt as [st1 trace]. intros (Hst & Hskip & Hadd & Hread). cbn in Hst. subst st1.
  unfold tracedEntry. cbn [fst snd]. rewrite scanEntry_event.
  pose proof (scanEvent_stores w root path a st) as Hev.
  destruct (scanEvent w root path a st) as [ev r]. cbn [fst snd] in *.
  split; [|done]. cbn [fst snd]. split; [done|]. cbn [fst snd].
  rewrite skipsOf_snoc, storesOf_snoc.
  split; [|split].
  - destruct ev; cbn; rewrite Hskip; [done|by rewrite app_nil_r..].
  - destruct ev as [record|k v|]; cbn [applyEvent skip store addedFileContents].
    + by rewrite app_nil_r.
    + by rewrite storeAll_snoc, Hadd.
    + by rewrite app_nil_r.
  - apply Forall_app. split; [done|]. by constructor.
Qed.

(** C8, amended: the skip records are the skips of the traversal, in its
    order; the map is what storing the admitted files one after the other,
    in the order of the traversal, leaves in a map: one entry per key, an
    entry holding what [readLocalFile] returned for a path with that key,
    and no order among the entries. *)
Theorem scan_result_follows_trace (w : W) (directoryPath : string) :
  let trace := scanTrace w directoryPath in
  let added := (addDirectoryToConversationHelper w directoryPath).1.1 in
  let skipped := (addDirectoryToConversationHelper w directoryPath).1.2 in
  skipped = skipsOf trace
  ∧ added = storeAll ∅ (storesOf trace)
  ∧ NoDup (map_to_list added).*1
  ∧ (∀ relativePath content,
       added !! relativePath = Some content →
       ∃ path, relativePath = relativeKey directoryPath path
               ∧ readLocalFile w path = Ok content).
Proof.
  cbv zeta.
  destruct (decide (directoryPath = "error")) as [->|Hne].
  { split; [done|]. split; [done|]. split; [apply NoDup_fst_map_to_list|].
    intros k v Hl. change ((∅ : gmap string string) !! k = Some v) in Hl.
    by rewrite lookup_empty in Hl. }
  rewrite addDirectory_walk by done. unfold scanTrace.
  rewrite (normalizePath_other _ Hne). cbn [fst snd].
  destruct (WalkDir_related (tracedEntry w directoryPath) (scanEntry w directoryPath)
              (traceInvariant w directoryPath)
              (tracedEntry_invariant w directoryPath) w directoryPath
              (emptyScan, []) emptyScan) as [(Hst & Hskip & Hadd & Hread) _];
    [by repeat split|].
  split; [done|]. split; [done|]. split; [apply NoDup_fst_map_to_list|].
  intros k v Hl. rewrite Hadd in Hl.
  apply storeAll_lookup in Hl as [Hl|Hl]; [by rewrite lookup_empty in Hl|].
  unfold storesOf in Hl. apply list_elem_of_omap in Hl as (ev & Hin & Hev).
  rewrite Forall_forall in Hread. specialize (Hread ev Hin).
  destruct ev as [|k' v'|]; try done. injection Hev as -> ->. exact Hread.
Qed.
End IngestionTheorems.

Lemma root_failure_not_reported_witness :
  let w := {| Sim.files := ∅; Sim.trees := ∅ |} in
  addDirectoryToConversationHelper w "missing"
  = (∅, ["missing (walk error: lstat missing: no such file or directory)"], None).
Proof.
  cbv zeta.
  refine (proj2 (root_failure_not_reported {| Sim.files := ∅; Sim.trees := ∅ |}
                   "missing" _) "lstat missing: no such file or directory" _).
  - discriminate.
  - vm_compute. reflexivity.
Defined.

(** C8 as stated fails: the traversal stores [a.txt] before [b.txt]; the
    map does not keep that order, and the loop of the [/add] command may put
    [b.txt] into the history first. *)
Lemma scan_order_counterexample :
  let w := {| Sim.files := {[ "r/a.txt" := "A"; "r/b.txt" := "B" ]};
              Sim.trees := {[ "r" := Sim.dirEntry "r" [Sim.fileEntry "a.txt" 1;
                                                     Sim.fileEntry "b.txt" 1] ]} |} in
  let added := (addDirectoryToConversationHelper w "r").1.1 in
  storesOf (scanTrace w "r") = [("a.txt", "A"); ("b.txt", "B")]
  ∧ rangeOrder added [("b.txt", "B"); ("a.txt", "A")]
  ∧ addFilesToHistory "r" added []
      [contextMessage (W:=Sim.World) "r" ("b.txt", "B");
       contextMessage (W:=Sim.World) "r" ("a.txt", "A")].
Proof.
  cbv zeta.
  assert (Hrange : rangeOrder
                     (addDirectoryToConversationHelper
                        {| Sim.files := {[ "r/a.txt" := "A"; "r/b.txt" := "B" ]};
                           Sim.trees := {[ "r" := Sim.dirEntry "r" [Sim.fileEntry "a.txt" 1;
                                                                  Sim.fileEntry "b.txt" 1] ]} |}
                        "r").1.1
                     [("b.txt", "B"); ("a.txt", "A")]).
  { unfold rangeOrder.
    replace (map_to_list _) with [("a.txt", "A"); ("b.txt", "B")]
      by (vm_compute; reflexivity).
    apply Permutation_swap. }
  split; [vm_compute; reflexivity|]. split; [exact Hrange|].
  exists [("b.txt", "B"); ("a.txt", "A")]. split; [exact Hrange|reflexivity].
Qed.

(** *** A turn with one tool call, run on the small platform *)

Example create_file_turn :
  let s := {| ConversationHistory := [textMessage RoleSystem systemPrompt];
              world := {| Sim.files := ∅; Sim.trees := ∅ |}; terminal := [] |} in
  let client : Client :=
    λ req, match req_Tools req with
           | [] => Ok {| responses := [textResponse ("Done." +:+ nl)]; ending := None |}
           | _ => Ok {| responses :=
                          [{| Choices := [{| delta_Content := "";
                                             delta_ToolCalls :=
                                               [fragment 0 "call_1" "function" "create_file"
                                                  "foo.txt|"] |}] |};
                           {| Choices := [{| delta_Content := "";
                                             delta_ToolCalls :=
                                               [fragment 0 "" "function" "" "X"] |}] |}];
                        ending := None |}
           end in
  ∃ s', StreamAIResponse client "create foo.txt with content X" s = Some s'
        ∧ os_ReadFile (world s') "foo.txt" = Ok "X"
        ∧ (msg_Role <$> ConversationHistory s')
          = [RoleSystem; RoleUser; RoleAssistant; RoleTool; RoleAssistant]
        ∧ (msg_Content <$> drop 3 (ConversationHistory s'))
          = ["Successfully created/overwrote file foo.txt"; "Done." +:+ nl]
        ∧ terminal s' = [PlainLine "Done."].
Proof.
  cbv zeta. eexists. split; [vm_compute; reflexivity|].
  repeat split; vm_compute; reflexivity.
Qed.

(** * Further properties of the code *)

(** ** File primitives *)

Lemma HasPrefix_split (pre : string) :
  ∀ s, strings_HasPrefix s pre = true → s = pre +:+ sdrop (slen pre) s.
Proof.
  unfold strings_HasPrefix.
  induction pre as [|c pre IH]; intros s Hpre; [done|].
  destruct s as [|c' s]; [done|]. cbn [String.prefix] in Hpre.
  destruct (ascii_dec c c') as [->|]; [|done].
  rewrite sapp_cons. cbn [slen String.length sdrop]. f_equal. by apply IH.
Qed.

(** [strings.Index] finds an instance, and the leftmost one. *)
Lemma Index_Some_split (sub : string) (s : string) :
  ∀ i, strings_Index s sub = Some i →
       s = stake i s +:+ sub +:+ sdrop (i + slen sub) s
       ∧ slen (stake i s) = i
       ∧ ∀ j, (j < i)%nat → strings_HasPrefix (sdrop j s) sub = false.
Proof.
  induction s as [|c s IH]; intros i; cbn [strings_Index].
  - destruct (strings_HasPrefix "" sub) eqn:Hpre; [|done]. intros [= <-].
    split; [by apply HasPrefix_split|]. split; [done|]. intros j Hj. lia.
  - destruct (strings_HasPrefix (String c s) sub) eqn:Hpre.
    + intros [= <-]. split; [by apply HasPrefix_split|]. split; [done|].
      intros j Hj. lia.
    + destruct (strings_Index s sub) as [k|]; [|done]. intros [= <-].
      destruct (IH k eq_refl) as (Hsplit & Hlen & Hleft).
      cbn [stake sdrop Nat.add slen String.length]. rewrite sapp_cons.
      split; [by f_equal|]. split; [by f_equal|].
      intros [|j] Hj; [exact Hpre|]. cbn [sdrop]. apply Hleft. lia.
Qed.

Section FilePrimitiveProperties.
Context {W : Type} `{Platform W}.

Lemma readLocalFile_checked (w : W) (filePath content : string) :
  readLocalFile w filePath = Ok content →
  filePath ≠ "error"
  ∧ ∃ fileInfo,
      os_Stat w filePath = Ok fileInfo
      ∧ fi_Size fileInfo ≤ maxFileSize
      ∧ fi_IsDir fileInfo = false
      ∧ os_ReadFile w filePath = Ok content.
Proof.
  unfold readLocalFile, normalizePath. case_bool_decide as Hp; [done|].
  destruct (os_Stat w filePath) as [fileInfo|e]; [|done].
  destruct (Z.gtb_spec (fi_Size fileInfo) maxFileSize) as [|Hsize]; [done|].
  destruct (fi_IsDir fileInfo) eqn:Hdir; [done|].
  destruct (os_ReadFile w filePath) as [c|e]; [|done].
  intros [= ->]. split; [done|]. by exists fileInfo.
Qed.

Lemma createOrOverwriteFile_written (w w1 : W) (path content : string) :
  createOrOverwriteFile w path content = (w1, None) →
  path ≠ "error"
  ∧ Z.of_nat (slen content) ≤ maxFileSize
  ∧ ∃ w0, os_MkdirAll w (filepath_Dir path) = (w0, None)
          ∧ os_WriteFile w0 path content = (w1, None).
Proof.
  unfold createOrOverwriteFile, normalizePath. case_bool_decide as Hp; [done|].
  destruct (Z.gtb_spec (Z.of_nat (slen content)) maxFileSize) as [|Hsize]; [done|].
  destruct (os_MkdirAll w (filepath_Dir path)) as [w0 [e|]]; [done|].
  destruct (os_WriteFile w0 path content) as [w2 [e|]] eqn:Hwrite; [done|].
  intros [= <-]. split; [done|]. split; [done|]. by exists w0.
Qed.

Lemma createOrOverwriteFile_readLocalFile (w w1 : W) (path content : string) :
  writesReadBack →
  createOrOverwriteFile w path content = (w1, None) →
  readLocalFile w1 path = Ok content.
Proof.
  intros Hos (Hp & Hsize & w0 & _ & Hwrite)%createOrOverwriteFile_written.
  destruct (Hos _ _ _ _ Hwrite) as [Hread Hstat].
  unfold readLocalFile. rewrite (normalizePath_other _ Hp), Hstat. cbn [fi_Size fi_IsDir].
  destruct (Z.gtb_spec (Z.of_nat (slen content)) maxFileSize) as [|_]; [lia|].
  by rewrite Hread.
Qed.

(** What [createOrOverwriteFile] wrote, [readLocalFile] returns. *)
Theorem create_then_read (w w1 : W) (path content : string) :
  writesReadBack →
  createOrOverwriteFile w path content = (w1, None) →
  readLocalFile w1 path = Ok content.
Proof. apply createOrOverwriteFile_readLocalFile. Qed.

(** Neither way of writing a file writes more than [maxFileSize] bytes, and
    a content above the limit is refused before anything is touched. *)
Theorem writes_respect_size_limit (w w1 : W) (path : string) :
  (∀ content, createOrOverwriteFile w path content = (w1, None) →
              Z.of_nat (slen content) ≤ maxFileSize)
  ∧ (∀ content, maxFileSize < Z.of_nat (slen content) →
                (createOrOverwriteFile w path content).1 = w
                ∧ is_Some (createOrOverwriteFile w path content).2)
  ∧ (∀ originalSnippet newSnippet content,
       os_ReadFile w path = Ok content →
       applyDiffEdit w path originalSnippet newSnippet = (w1, None) →
       Z.of_nat (slen (strings_Replace1 content originalSnippet newSnippet)) ≤ maxFileSize).
Proof.
  split; [|split].
  - intros content Hw. by apply createOrOverwriteFile_written in Hw as (_ & Hsize & _).
  - intros content Hbig. unfold createOrOverwriteFile.
    destruct (normalizePath path); [|by split].
    destruct (Z.gtb_spec (Z.of_nat (slen content)) maxFileSize); [by split|lia].
  - intros originalSnippet newSnippet content Hread Hedit.
    destruct (applyDiffEdit_success _ _ _ _ _ Hedit) as (content' & _ & Hread' & _ & Hw).
    rewrite Hread in Hread'. injection Hread' as <-.
    by apply createOrOverwriteFile_written in Hw as (_ & Hsize & _).
Qed.

Lemma applyDiffEdit_anatomy (w w1 : W) (path originalSnippet newSnippet : string) :
  applyDiffEdit w path originalSnippet newSnippet = (w1, None) →
  ∃ before behind,
    os_ReadFile w path = Ok (before +:+ originalSnippet +:+ behind)
    ∧ createOrOverwriteFile w path (before +:+ newSnippet +:+ behind) = (w1, None)
    ∧ ∀ j, (j < slen before)%nat →
           strings_HasPrefix (sdrop j (before +:+ originalSnippet +:+ behind))
             originalSnippet = false.
Proof.
  intros (content & _ & Hread & Hcount & Hw)%applyDiffEdit_success.
  unfold strings_Replace1 in Hw.
  destruct (strings_Index content originalSnippet) as [i|] eqn:Hi.
  - destruct (Index_Some_split _ _ _ Hi) as (Hsplit & Hlen & Hleft).
    exists (stake i content), (sdrop (i + slen originalSnippet) content).
    rewrite <- Hsplit, Hlen. done.
  - destruct originalSnippet as [|c sub].
    + by destruct content.
    + unfold strings_Count in Hcount. by rewrite Index_None_count in Hcount.
Qed.

(** A successful edit keeps everything before and behind the leftmost
    instance of the original snippet and puts the new snippet in its place. *)
Theorem edit_replaces_leftmost_instance
    (w w1 : W) (path originalSnippet newSnippet : string) :
  applyDiffEdit w path originalSnippet newSnippet = (w1, None) →
  ∃ before behind,
    os_ReadFile w path = Ok (before +:+ originalSnippet +:+ behind)
    ∧ createOrOverwriteFile w path (before +:+ newSnippet +:+ behind) = (w1, None)
    ∧ ∀ j, (j < slen before)%nat →
           strings_HasPrefix (sdrop j (before +:+ originalSnippet +:+ behind))
             originalSnippet = false.
Proof. apply applyDiffEdit_anatomy. Qed.

Lemma hasNullByte_spec (buf : string) :
  hasNullByte buf = true ↔ ∃ before behind, buf = before +:+ String Ascii.zero behind.
Proof.
  induction buf as [|c buf IH]; cbn [hasNullByte].
  - split; [done|]. intros ([|c before] & behind & Heq); discriminate Heq.
  - case_bool_decide as Hc.
    + subst c. split; [|done]. intros _. by exists "", buf.
    + rewrite IH. split.
      * intros (before & behind & ->). by exists (String c before), behind.
      * intros ([|c' before] & behind & Heq).
        -- injection Heq as Hc' _. done.
        -- injection Heq as _ Heq. eauto.
Qed.

(** The binary probe answers only after a read of up to 1024 bytes that
    ended without error or with [EOF], and answers [true] exactly when a
    null byte is among the bytes read. *)
Theorem binary_probe_finds_null_byte (w : W) (filePath : string) (isBin : bool) :
  isBinaryFile w filePath = Ok isBin →
  ∃ buf rerr,
    os_OpenRead w filePath 1024 = Ok (buf, rerr)
    ∧ (rerr = None ∨ rerr = Some "EOF")
    ∧ (isBin = true ↔ ∃ before behind, buf = before +:+ String Ascii.zero behind).
Proof.
  unfold isBinaryFile, normalizePath. case_bool_decide as Hp; [done|].
  destruct (os_OpenRead w filePath 1024) as [[buf rerr]|e]; [|done].
  destruct rerr as [e|].
  - case_bool_decide as He; [done|]. intros [= <-]. exists buf, (Some e).
    split; [done|]. split; [|apply hasNullByte_spec].
    right. f_equal. by destruct (decide (e = "EOF")).
  - intros [= <-]. exists buf, None. split; [done|]. split; [by left|].
    apply hasNullByte_spec.
Qed.
End FilePrimitiveProperties.

Lemma Sim_writesReadBack : writesReadBack (W:=Sim.World).
Proof.
  intros w0 w' path content. simpl. unfold Sim.WriteFile, Sim.ReadFile, Sim.Stat.
  intros [= <-]. simpl. by rewrite lookup_insert_eq.
Qed.

Lemma create_then_read_witness :
  let w := {| Sim.files := ∅; Sim.trees := ∅ |} in
  let w1 := {| Sim.files := {[ "notes.txt" := "hello" ]}; Sim.trees := ∅ |} in
  readLocalFile w1 "notes.txt" = Ok "hello".
Proof.
  cbv zeta.
  refine (create_then_read {| Sim.files := ∅; Sim.trees := ∅ |} _ "notes.txt" "hello"
            Sim_writesReadBack _).
  vm_compute. reflexivity.
Defined.

Lemma edit_replaces_leftmost_instance_witness :
  let w := {| Sim.files := {[ "f" := "one two two" ]}; Sim.trees := ∅ |} in
  ∃ before behind, os_ReadFile w "f" = Ok (before +:+ "one" +:+ behind).
Proof.
  cbv zeta.
  destruct (edit_replaces_leftmost_instance
              {| Sim.files := {[ "f" := "one two two" ]}; Sim.trees := ∅ |}
              {| Sim.files := {[ "f" := "1 two two" ]}; Sim.trees := ∅ |}
              "f" "one" "1") as (before & behind & Hread & _).
  - vm_compute. reflexivity.
  - by exists before, behind.
Defined.

Lemma binary_probe_finds_null_byte_witness :
  let w := {| Sim.files := {[ "f" := "plain text" ]}; Sim.trees := ∅ |} in
  ∃ buf rerr, os_OpenRead w "f" 1024 = Ok (buf, rerr).
Proof.
  cbv zeta.
  destruct (binary_probe_finds_null_byte
              {| Sim.files := {[ "f" := "plain text" ]}; Sim.trees := ∅ |} "f" false)
    as (buf & rerr & Hread & _).
  - vm_compute. reflexivity.
  - by exists buf, rerr.
Defined.

(** ** Directory ingestion *)

Section IngestionProperties.
Context {W : Type} `{Platform W}.

(** A property of the state that every call of the walk function keeps is
    kept by the walk. *)
Lemma WalkDir_invariant {S : Type} (fn : string → WalkArg → S → S * option WalkErr)
    (I : S → Prop) :
  (∀ path a st, I st → I (fn path a st).1) →
  ∀ (w : W) root st, I st → I (WalkDir fn w root st).1.
Proof.
  intros Hfn w root st Hst.
  destruct (WalkDir_related fn fn (λ s1 s2, s1 = s2 ∧ I s1)) with (w := w) (root := root)
    (s1 := st) (s2 := st) as [[_ HI] _]; [|done|done].
  intros path a s1 s2 [<- Hs1]. repeat split. by apply Hfn.
Qed.

(** A property of the state that the walk function keeps at every entry of
    a tree is kept by the walk of the tree. *)
Lemma walkEntries_invariant_at {S : Type}
    (walk : string → DirTree → S → S * option WalkErr) (I : S → Prop)
    (path : string) (entries : list DirTree) :
  Forall (λ t, ∀ st, I st → I (walk (filepath_Join path (de_Name (entry t))) t st).1)
         entries →
  ∀ st, I st → I (walkEntries walk path entries st).1.
Proof.
  induction 1 as [|t entries Ht _ IH]; intros st Hst; [done|].
  cbn [walkEntries]. specialize (Ht st Hst).
  destruct (walk _ t st) as [st' [[| |e]|]]; cbn [fst] in *; try done. by apply IH.
Qed.

Lemma treeEntries_below (path p : string) (d d0 : DirEntry) (entries : list DirTree)
    (rderr : option Err) (t1 : DirTree) :
  t1 ∈ entries →
  (p, d0) ∈ treeEntries (filepath_Join path (de_Name (entry t1))) t1 →
  (p, d0) ∈ treeEntries path (Node d entries rderr).
Proof.
  intros Ht1 Hin. cbn [treeEntries]. apply elem_of_cons. right.
  apply list_elem_of_In, in_flat_map. exists t1. by rewrite <- !list_elem_of_In.
Qed.

Lemma walkDir_invariant_entries {S : Type} (fn : string → WalkArg → S → S * option WalkErr)
    (I : S → Prop) (visited : string → DirEntry → Prop) (t : DirTree) :
  (∀ p d st, visited p d → I st → I (fn p (Visit d) st).1) →
  (∀ p d e st, I st → I (fn p (VisitErr d e) st).1) →
  ∀ path, (∀ p d, (p, d) ∈ treeEntries path t → visited p d) →
          ∀ st, I st → I (walkDir fn path t st).1.
Proof.
  intros Hvisit Herr. induction t as [d entries rderr IH] using DirTree_nested_ind.
  intros path Hin st Hst. rewrite walkDir_unfold.
  assert (Hhere : visited path d)
    by (apply Hin; cbn [treeEntries]; apply elem_of_cons; by left).
  pose proof (Hvisit path d st Hhere Hst) as H1.
  destruct (fn path (Visit d) st) as [st1 [e|]]; [done|]. cbn [fst] in H1.
  destruct (negb (de_IsDir d)); [done|].
  assert (H2 : I (match rderr with
                  | Some re => fn path (VisitErr (Some d) re) st1
                  | None => (st1, None)
                  end).1) by (destruct rderr; [by apply Herr|done]).
  destruct (match rderr with Some re => fn path _ st1 | None => _ end) as [st2 [e|]];
    [done|]. cbn [fst] in H2.
  apply walkEntries_invariant_at; [|done].
  rewrite Forall_forall in IH. apply Forall_forall. intros t1 Ht1 st' Hst'.
  apply (IH t1 Ht1); [|done].
  intros p d0 Hp. apply Hin. by eapply treeEntries_below.
Qed.

(** When the walk function stores a file, the quota was not reached and the
    entry it was called with went through every check. *)
Lemma scanEvent_stored (w : W) (root path : string) (a : WalkArg) (st : ScanState)
    (relativePath content : string) :
  (scanEvent w root path a st).1 = Stored relativePath content →
  (filesProcessed st < maxTotalFiles)%nat
  ∧ ∃ d, a = Visit d ∧ checkedAt w root path d relativePath content.
Proof.
  unfold scanEvent. destruct a as [d|d e]; [|discriminate]. cbv zeta.
  destruct (maxTotalFiles <=? filesProcessed st)%nat eqn:Hq; [discriminate|].
  destruct (de_IsDir d) eqn:Hdir.
  { destruct (strings_HasPrefix (de_Name d) "." && bool_decide (de_Name d ≠ ".")
              && bool_decide (de_Name d ≠ "..")); [discriminate|].
    destruct (bool_decide (de_Name d ∈ excludedFiles)); discriminate. }
  destruct (strings_HasPrefix (de_Name d) ".") eqn:Hhid; [discriminate|].
  destruct (bool_decide (de_Name d ∈ excludedFiles)) eqn:Hname; [discriminate|].
  destruct (bool_decide (strings_ToLower (filepath_Ext (de_Name d)) ∈ excludedExtensions))
    eqn:Hext; [discriminate|].
  destruct (de_Info d) as [fileInfo|e] eqn:Hinfo; [|discriminate].
  destruct (Z.gtb_spec (fi_Size fileInfo) maxFileSize) as [|Hsize]; [discriminate|].
  destruct (isBinaryFile w path) as [[|]|e] eqn:Hbin; [discriminate| |discriminate].
  destruct (readLocalFile w path) as [c|e] eqn:Hread; [|discriminate].
  cbn [fst]. intros [= <- <-]. split; [by apply Nat.leb_gt|].
  exists d. split; [done|]. exists fileInfo. split; [done|]. split; [|done].
  unfold nameAdmitted. by rewrite Hdir, Hhid, Hname, Hext.
Qed.

Lemma scanEntry_quotaKept (w : W) (root path : string) (a : WalkArg) (st : ScanState) :
  quotaKept st → quotaKept (scanEntry w root path a st).1.
Proof.
  intros [Hmax Hsize]. rewrite scanEntry_event. cbn [fst].
  pose proof (scanEvent_stored w root path a st) as Hstored.
  destruct (scanEvent w root path a st).1 as [record|k v|]; [done| |done].
  destruct (Hstored k v eq_refl) as [Hbelow _].
  split; cbn [applyEvent store filesProcessed addedFileContents]; [lia|].
  destruct (addedFileContents st !! k) eqn:Hk.
  - rewrite map_size_insert_Some by done. lia.
  - rewrite map_size_insert_None by done. lia.
Qed.

Lemma scanEntry_allPassedChecks (w : W) (root path : string) (d : DirEntry)
    (st : ScanState) :
  entryAt w root path d →
  allPassedChecks w root st →
  allPassedChecks w root (scanEntry w root path (Visit d) st).1.
Proof.
  intros Hat Hall. rewrite scanEntry_event. cbn [fst].
  pose proof (scanEvent_stored w root path (Visit d) st) as Hstored.
  destruct (scanEvent w root path (Visit d) st).1 as [record|k v|]; [done| |done].
  destruct (Hstored k v eq_refl) as (_ & d' & [= <-] & Hchecked).
  intros k' v'. cbn [applyEvent store addedFileContents].
  intros [[<- <-]|[_ Hl]]%lookup_insert_Some; [by exists path, d|by apply Hall].
Qed.

(** A scan returns at most [maxTotalFiles] files. *)
Theorem scan_within_quota (w : W) (directoryPath : string) :
  (size (addDirectoryToConversationHelper w directoryPath).1.1 ≤ 1000)%nat.
Proof.
  destruct (decide (directoryPath = "error")) as [->|Hne].
  { change (size (∅ : gmap string string) ≤ 1000)%nat. rewrite map_size_empty. lia. }
  rewrite addDirectory_walk by done. cbn [fst].
  destruct (WalkDir_invariant (scanEntry w directoryPath) quotaKept
              (scanEntry_quotaKept w directoryPath) w directoryPath emptyScan)
    as [Hmax Hsize].
  - split; cbn; [lia|]. rewrite map_size_empty. lia.
  - unfold maxTotalFiles in Hmax. lia.
Qed.

(** Nothing gets into the result of a scan but the content [readLocalFile]
    returned at a path of the tree below the root whose entry there is a
    regular one that is not hidden, has no excluded name or extension, is
    not above the size limit and passed the binary probe. *)
Theorem scan_stores_checked_files (w : W) (directoryPath relativePath content : string) :
  (addDirectoryToConversationHelper w directoryPath).1.1 !! relativePath = Some content →
  passedChecks w directoryPath relativePath content.
Proof.
  destruct (decide (directoryPath = "error")) as [->|Hne].
  { intros Hl. change ((∅ : gmap string string) !! relativePath = Some content) in Hl.
    by rewrite lookup_empty in Hl. }
  rewrite addDirectory_walk by done. cbn [fst].
  revert relativePath content.
  change (allPassedChecks w directoryPath
            (WalkDir (scanEntry w directoryPath) w directoryPath emptyScan).1).
  assert (Hempty : allPassedChecks w directoryPath emptyScan).
  { intros k v Hl. cbn in Hl. by rewrite lookup_empty in Hl. }
  unfold WalkDir.
  assert (Hwalk : allPassedChecks w directoryPath
            (match os_Lstat w directoryPath with
             | Fail e => scanEntry w directoryPath directoryPath (VisitErr None e) emptyScan
             | Ok t => walkDir (scanEntry w directoryPath) directoryPath t emptyScan
             end).1).
  { destruct (os_Lstat w directoryPath) as [t|e] eqn:Hroot; [|done].
    apply (walkDir_invariant_entries (scanEntry w directoryPath)
             (allPassedChecks w directoryPath) (entryAt w directoryPath) t); [| | |done].
    - intros p d st. apply scanEntry_allPassedChecks.
    - by intros p d e st Hst.
    - intros p d Hin. by exists t. }
  destruct (match os_Lstat w directoryPath with Ok t => _ | Fail e => _ end)
    as [st [[| |e]|]]; done.
Qed.

(** A hidden directory, and a directory with an excluded name, is recorded
    as one skip and nothing below it is visited, whatever it holds. *)
Theorem pruned_directories_not_entered (w : W) (root path : string)
    (d : DirEntry) (entries : list DirTree) (rderr : option Err) (st : ScanState) :
  de_IsDir d = true →
  (filesProcessed st < maxTotalFiles)%nat →
  (hiddenDirectory d = true →
     walkDir (scanEntry w root) path (Node d entries rderr) st
     = (skip st (path +:+ " (hidden directory)"), None))
  ∧ (hiddenDirectory d = false → de_Name d ∈ excludedFiles →
     walkDir (scanEntry w root) path (Node d entries rderr) st
     = (skip st (path +:+ " (excluded directory name)"), None)).
Proof.
  intros Hdir Hq%Nat.leb_gt. rewrite walkDir_unfold. unfold scanEntry, hiddenDirectory.
  cbv zeta. rewrite Hq, Hdir. split.
  - intros ->. cbn [skippedDir]. by rewrite Hdir.
  - intros -> Hname. rewrite (bool_decide_eq_true_2 _ Hname). cbn [skippedDir].
    by rewrite Hdir.
Qed.

(** Once the quota is reached, no entry is visited any more: the rest of a
    directory, and a tree as a whole, leave the state as it is. *)
Theorem quota_ends_the_scan (w : W) (root path : string)
    (entries : list DirTree) (st : ScanState) :
  (maxTotalFiles ≤ filesProcessed st)%nat →
  walkEntries (walkDir (scanEntry w root)) path entries st = (st, None)
  ∧ ∀ t, (walkDir (scanEntry w root) path t st).1 = st.
Proof.
  intros Hq%Nat.leb_le.
  assert (Hone : ∀ p t, walkDir (scanEntry w root) p t st
                        = (st, skippedDir (entry t) SkipDir)).
  { intros p [d es rderr]. rewrite walkDir_unfold. unfold scanEntry. by rewrite Hq. }
  split; [|intros t; by rewrite Hone].
  induction entries as [|t entries IH]; [done|].
  cbn [walkEntries]. rewrite Hone. unfold skippedDir.
  by destruct (de_IsDir (entry t)).
Qed.
End IngestionProperties.

Lemma scan_stores_checked_files_witness :
  let w := {| Sim.files := {[ "r/a.txt" := "A" ]};
              Sim.trees := {[ "r" := Sim.dirEntry "r" [Sim.fileEntry "a.txt" 1] ]} |} in
  passedChecks w "r" "a.txt" "A".
Proof.
  cbv zeta.
  refine (scan_stores_checked_files
            {| Sim.files := {[ "r/a.txt" := "A" ]};
               Sim.trees := {[ "r" := Sim.dirEntry "r" [Sim.fileEntry "a.txt" 1] ]} |}
            "r" "a.txt" "A" _).
  vm_compute. reflexivity.
Defined.

Lemma pruned_directories_not_entered_witness :
  let w := {| Sim.files := ∅; Sim.trees := ∅ |} in
  let d := {| de_Name := ".git"; de_IsDir := true;
              de_Info := Ok {| fi_Size := 0; fi_IsDir := true |} |} in
  walkDir (scanEntry w "r") "r/.git" (Node d [Sim.fileEntry "config" 1] None) emptyScan
  = (skip emptyScan "r/.git (hidden directory)", None).
Proof.
  cbv zeta.
  refine (proj1 (pruned_directories_not_entered {| Sim.files := ∅; Sim.trees := ∅ |}
                   "r" "r/.git"
                   {| de_Name := ".git"; de_IsDir := true;
                      de_Info := Ok {| fi_Size := 0; fi_IsDir := true |} |}
                   [Sim.fileEntry "config" 1] None emptyScan _ _) _).
  - reflexivity.
  - vm_compute. lia.
  - vm_compute. reflexivity.
Defined.

Lemma quota_ends_the_scan_witness :
  let w := {| Sim.files := {[ "r/a.txt" := "A" ]}; Sim.trees := ∅ |} in
  let st := {| addedFileContents := ∅; skippedFilePaths := []; filesProcessed := 1000 |} in
  walkEntries (walkDir (scanEntry w "r")) "r"
    [Sim.dirEntry "sub" [Sim.fileEntry "b.txt" 1]; Sim.fileEntry "a.txt" 1] st
  = (st, None).
Proof.
  cbv zeta.
  refine (proj1 (quota_ends_the_scan
                   {| Sim.files := {[ "r/a.txt" := "A" ]}; Sim.trees := ∅ |}
                   "r" "r" [Sim.dirEntry "sub" [Sim.fileEntry "b.txt" 1];
                            Sim.fileEntry "a.txt" 1]
                   {| addedFileContents := ∅; skippedFilePaths := [];
                      filesProcessed := 1000 |} _)).
  vm_compute. lia.
Defined.

(** ** The stream formatter *)

Lemma splitLines_nonempty (s : string) : splitLines s ≠ [].
Proof.
  destruct s as [|c s]; [done|]. cbn [splitLines].
  case_bool_decide; [done|]. by destruct (splitLines s).
Qed.

Lemma last_app_nonempty {A} (l1 l2 : list A) (d : A) :
  l2 ≠ [] → List.last (l1 ++ l2) d = List.last l2 d.
Proof.
  intros Hl2. induction l1 as [|a l1 IH]; [done|].
  cbn [app List.last]. destruct (l1 ++ l2) eqn:Happ; [|done].
  by apply app_eq_nil in Happ as [_ ->].
Qed.

(** The lines of a text continued: the lines completed before, then the
    lines of the last, open line continued. *)
Lemma splitLines_app (a b : string) :
  splitLines (a +:+ b)
  = removelast (splitLines a) ++ splitLines (List.last (splitLines a) "" +:+ b).
Proof.
  induction a as [|c a IH]; [done|].
  rewrite sapp_cons. cbn [splitLines]. case_bool_decide as Hc.
  - rewrite IH. pose proof (splitLines_nonempty a) as Hne.
    destruct (splitLines a) as [|l ls]; [done|]. done.
  - rewrite IH. pose proof (splitLines_nonempty a) as Hne.
    destruct (splitLines a) as [|l [|l' ls]]; [done| |].
    + cbn [removelast List.last app]. rewrite sapp_cons. cbn [splitLines].
      by rewrite bool_decide_eq_false_2.
    + done.
Qed.

Lemma splitLines_length (s : string) :
  length (splitLines s) = Datatypes.S (countNewlines s).
Proof.
  induction s as [|c s IH]; [done|]. cbn [splitLines countNewlines].
  case_bool_decide; cbn [length]; [by rewrite IH|].
  pose proof (splitLines_nonempty s). destruct (splitLines s); [done|].
  cbn [length] in *. lia.
Qed.

Lemma splitLines_no_newline (s : string) :
  Forall (λ line, countNewlines line = O) (splitLines s).
Proof.
  induction s as [|c s IH]; [by repeat constructor|]. cbn [splitLines].
  case_bool_decide as Hc; [by constructor|].
  destruct (splitLines s) as [|l ls]; [repeat constructor; cbn; by rewrite bool_decide_eq_false_2|].
  apply Forall_cons in IH as [Hl Hls]. constructor; [|done].
  cbn [countNewlines]. by rewrite bool_decide_eq_false_2.
Qed.

Lemma withBuffer_withBuffer (b b' : string) (f : MatrixTextStreamFormatter) :
  withBuffer b (withBuffer b' f) = withBuffer b f.
Proof. reflexivity. Qed.

Lemma withBuffer_buffer (f : MatrixTextStreamFormatter) : withBuffer (buffer f) f = f.
Proof. by destruct f. Qed.

(** A line is formatted without a look at the buffer, which stays as it is. *)
Lemma formatAndPrintLine_withBuffer (b : string) (f : MatrixTextStreamFormatter)
    (line : string) :
  formatAndPrintLine (withBuffer b f) line
  = match formatAndPrintLine f line with
    | Some (f', r) => Some (withBuffer b f', r)
    | None => None
    end.
Proof.
  destruct f as [buf fenced lang]. unfold formatAndPrintLine, withBuffer.
  cbn [buffer inCodeBlock codeLanguage]. cbv zeta.
  destruct (strings_HasPrefix (strings_TrimSpace line) "```"); [by destruct fenced|].
  destruct fenced; [done|].
  destruct (_ || _); [done|].
  destruct (numberedCondition (strings_TrimSpace line)) as [[|]|]; [|by case_bool_decide|done].
  by destruct (strings_Fields (strings_TrimSpace line)).
Qed.

Lemma formatAndPrintLine_buffer (f f' : MatrixTextStreamFormatter)
    (line : string) (r : Rendered) :
  formatAndPrintLine f line = Some (f', r) → buffer f' = buffer f.
Proof.
  unfold formatAndPrintLine. cbv zeta.
  destruct (strings_HasPrefix (strings_TrimSpace line) "```").
  { destruct (inCodeBlock f); cbn; by intros [= <- _]. }
  destruct (inCodeBlock f); [by intros [= <- _]|].
  destruct (_ || _); [by intros [= <- _]|].
  destruct (numberedCondition (strings_TrimSpace line)) as [[|]|]; [| |done].
  - destruct (strings_Fields (strings_TrimSpace line)); by intros [= <- _].
  - case_bool_decide; by intros [= <- _].
Qed.

Lemma formatLines_withBuffer (b : string) (lines : list string) :
  ∀ f, formatLines (withBuffer b f) lines
       = match formatLines f lines with
         | Some (f', out) => Some (withBuffer b f', out)
         | None => None
         end.
Proof.
  induction lines as [|line lines IH]; intros f; [done|].
  cbn [formatLines]. rewrite formatAndPrintLine_withBuffer.
  destruct (formatAndPrintLine f line) as [[f1 r]|]; [|done]. cbn.
  rewrite IH. by destruct (formatLines f1 lines) as [[f2 rs]|].
Qed.

Lemma formatLines_buffer (lines : list string) :
  ∀ f f' out, formatLines f lines = Some (f', out) →
              buffer f' = buffer f ∧ length out = length lines.
Proof.
  induction lines as [|line lines IH]; intros f f' out; [by intros [= <- <-]|].
  cbn [formatLines].
  destruct (formatAndPrintLine f line) as [[f1 r]|] eqn:Hone; [|done]. cbn.
  destruct (formatLines f1 lines) as [[f2 rs]|] eqn:Hrest; [|done]. cbn.
  intros [= <- <-]. destruct (IH _ _ _ Hrest) as [Hb Hlen].
  split; [|by cbn; rewrite Hlen]. rewrite Hb. by eapply formatAndPrintLine_buffer.
Qed.

Lemma formatLines_app (lines1 lines2 : list string) :
  ∀ f, formatLines f (lines1 ++ lines2)
       = match formatLines f lines1 with
         | Some (f1, out1) =>
             match formatLines f1 lines2 with
             | Some (f2, out2) => Some (f2, out1 ++ out2)
             | None => None
             end
         | None => None
         end.
Proof.
  induction lines1 as [|line lines1 IH]; intros f.
  - cbn. by destruct (formatLines f lines2) as [[f2 out2]|].
  - cbn [app formatLines].
    destruct (formatAndPrintLine f line) as [[f1 r]|]; [|done]. cbn.
    rewrite IH. destruct (formatLines f1 lines1) as [[f2 out1]|]; [|done]. cbn.
    by destruct (formatLines f2 lines2) as [[f3 out2]|].
Qed.

Lemma ProcessChunk_unfold (f : MatrixTextStreamFormatter) (chunk : string) :
  ProcessChunk f chunk
  = match formatLines (withBuffer "" f) (removelast (splitLines (buffer f +:+ chunk))) with
    | Some (f1, out) =>
        Some (withBuffer (List.last (splitLines (buffer f +:+ chunk)) "") f1, out)
    | None => None
    end.
Proof.
  unfold ProcessChunk. cbv zeta. cbn [buffer].
  change {| buffer := buffer f +:+ chunk; inCodeBlock := inCodeBlock f;
            codeLanguage := codeLanguage f |}
    with (withBuffer (buffer f +:+ chunk) (withBuffer "" f)).
  rewrite formatLines_withBuffer.
  by destruct (formatLines (withBuffer "" f) _) as [[f1 out]|].
Qed.

Lemma ProcessChunk_app (f : MatrixTextStreamFormatter) (chunk1 chunk2 : string) :
  ProcessChunk f (chunk1 +:+ chunk2)
  = match ProcessChunk f chunk1 with
    | Some (f1, out1) =>
        match ProcessChunk f1 chunk2 with
        | Some (f2, out2) => Some (f2, out1 ++ out2)
        | None => None
        end
    | None => None
    end.
Proof.
  rewrite !ProcessChunk_unfold. rewrite <- sapp_assoc, splitLines_app.
  set (lines1 := splitLines (buffer f +:+ chunk1)).
  rewrite List.removelast_app by apply splitLines_nonempty.
  rewrite last_app_nonempty by apply splitLines_nonempty.
  rewrite formatLines_app.
  destruct (formatLines (withBuffer "" f) (removelast lines1)) as [[f1 out1]|] eqn:H1;
    [|done].
  rewrite ProcessChunk_unfold. cbn [withBuffer buffer].
  destruct (formatLines_buffer _ _ _ _ H1) as [Hb _]. cbn in Hb.
  rewrite withBuffer_withBuffer.
  assert (Hsame : withBuffer "" f1 = f1) by (rewrite <- Hb; apply withBuffer_buffer).
  rewrite Hsame.
  by destruct (formatLines f1 _) as [[f2 out2]|].
Qed.

(** Feeding a text in two chunks renders the same lines and leaves the same
    formatter as feeding it in one chunk, and panics in the same cases. *)
Theorem ProcessChunk_chunking (f : MatrixTextStreamFormatter) (chunk1 chunk2 : string) :
  ProcessChunk f (chunk1 +:+ chunk2)
  = match ProcessChunk f chunk1 with
    | Some (f1, out1) =>
        match ProcessChunk f1 chunk2 with
        | Some (f2, out2) => Some (f2, out1 ++ out2)
        | None => None
        end
    | None => None
    end.
Proof. apply ProcessChunk_app. Qed.

Lemma ProcessChunk_counts (f f' : MatrixTextStreamFormatter)
    (chunk : string) (out : list Rendered) :
  ProcessChunk f chunk = Some (f', out) →
  length out = countNewlines (buffer f +:+ chunk)
  ∧ countNewlines (buffer f') = O.
Proof.
  rewrite ProcessChunk_unfold.
  destruct (formatLines _ _) as [[f1 out1]|] eqn:Hlines; [|done].
  intros [= <- <-]. destruct (formatLines_buffer _ _ _ _ Hlines) as [_ Hlen].
  pose proof (splitLines_nonempty (buffer f +:+ chunk)) as Hne.
  pose proof (splitLines_length (buffer f +:+ chunk)) as Hcount.
  pose proof (splitLines_no_newline (buffer f +:+ chunk)) as Hno.
  rewrite (app_removelast_last "" Hne) in Hcount, Hno.
  rewrite length_app in Hcount. cbn [length] in Hcount.
  rewrite Forall_app, Forall_singleton in Hno. destruct Hno as [_ Hlast].
  split; [lia|exact Hlast].
Qed.

(** [ProcessChunk] renders one line for every newline in the buffer and the
    chunk together, and leaves no newline in the buffer. *)
Theorem ProcessChunk_line_by_line (f f' : MatrixTextStreamFormatter)
    (chunk : string) (out : list Rendered) :
  ProcessChunk f chunk = Some (f', out) →
  length out = countNewlines (buffer f +:+ chunk)
  ∧ countNewlines (buffer f') = O.
Proof. apply ProcessChunk_counts. Qed.

(** A line makes the formatter panic exactly when it stands outside a code
    fence and is one byte long after trimming. *)
Theorem formatAndPrintLine_panics (f : MatrixTextStreamFormatter) (line : string) :
  formatAndPrintLine f line = None
  ↔ inCodeBlock f = false ∧ slen (strings_TrimSpace line) = 1%nat.
Proof.
  unfold formatAndPrintLine. cbv zeta.
  destruct (strings_TrimSpace line) as [|c [|c2 t]] eqn:Htrim.
  - cbn. destruct (inCodeBlock f); cbn; split; try done; intros [_ ?]; done.
  - assert (Hp : ∀ pre, (2 ≤ slen pre)%nat →
                        strings_HasPrefix (String c "") pre = false).
    { intros [|c1 [|c3 pre]] Hlen; cbn in Hlen; try lia.
      unfold strings_HasPrefix. cbn. by destruct (ascii_dec c1 c). }
    rewrite !Hp by (cbn; lia). cbn [orb].
    destruct (inCodeBlock f); [split; [done|by intros [? _]]|].
    done.
  - destruct (strings_HasPrefix _ "```").
    { destruct (inCodeBlock f); split; try done; intros [_ Hlen]; cbn in Hlen; lia. }
    destruct (inCodeBlock f); [split; [done|by intros [? _]]|].
    destruct (_ || _); [split; [done|intros [_ Hlen]; cbn in Hlen; lia]|].
    unfold numberedCondition.
    change (slen (String c (String c2 t))) with (Datatypes.S (Datatypes.S (slen t))).
    cbn [Nat.ltb Nat.leb].
    destruct (_ && _ && _).
    + destruct (strings_Fields _); split; try done; intros [_ Hlen]; cbn in Hlen; lia.
    + case_bool_decide; split; try done; intros [_ Hlen]; cbn in Hlen; lia.
Qed.

(** [Finalize] leaves an empty buffer and no open fence, and a second
    [Finalize] prints nothing. *)
Theorem Finalize_closes (f f' : MatrixTextStreamFormatter) (out : list Rendered) :
  Finalize f = Some (f', out) →
  buffer f' = "" ∧ inCodeBlock f' = false ∧ Finalize f' = Some (f', []).
Proof.
  unfold Finalize at 1.
  assert (Hdone : ∀ g, buffer g = "" → inCodeBlock g = false → Finalize g = Some (g, [])).
  { intros g Hb Hc. unfold Finalize. rewrite Hb.
    rewrite bool_decide_eq_false_2 by (intros Hn; by apply Hn). cbn. by rewrite Hc. }
  case_bool_decide as Hbuf.
  - destruct (formatAndPrintLine f (buffer f)) as [[f1 r]|]; [|done]. cbn.
    destruct (inCodeBlock f1) eqn:Hf1; intros [= <- <-]; cbn; auto.
  - assert (Hb : buffer f = "") by by destruct (decide (buffer f = "")).
    cbn. destruct (inCodeBlock f) eqn:Hf; intros [= <- <-]; cbn; auto.
Qed.

Lemma ProcessChunk_line_by_line_witness :
  ∃ f' out,
    ProcessChunk NewMatrixTextStreamFormatter ("one" +:+ nl +:+ "two") = Some (f', out)
    ∧ length out = 1%nat.
Proof.
  eexists _, _.
  assert (Hrun : ProcessChunk NewMatrixTextStreamFormatter ("one" +:+ nl +:+ "two")
                 = Some (withBuffer "two" NewMatrixTextStreamFormatter, [PlainLine "one"]))
    by reflexivity.
  split; [exact Hrun|].
  exact (proj1 (ProcessChunk_line_by_line _ _ _ _ Hrun)).
Defined.

Lemma Finalize_closes_witness :
  let f := {| buffer := "x = 1"; inCodeBlock := true; codeLanguage := "go" |} in
  ∃ f', Finalize f = Some (f', [CodeLine "x = 1"; CodeFooter]) ∧ buffer f' = "".
Proof.
  cbv zeta. eexists.
  assert (Hrun : Finalize {| buffer := "x = 1"; inCodeBlock := true; codeLanguage := "go" |}
                 = Some ({| buffer := ""; inCodeBlock := false; codeLanguage := "go" |},
                         [CodeLine "x = 1"; CodeFooter]))
    by reflexivity.
  split; [exact Hrun|].
  exact (proj1 (Finalize_closes _ _ _ Hrun)).
Defined.

(** ** The history *)

(** Trimming a trimmed history changes nothing. *)
Theorem trim_idempotent (history : list ChatCompletionMessage) :
  trimConversationHistory (trimConversationHistory history)
  = trimConversationHistory history.
Proof.
  rewrite (trimConversationHistory_unfold history).
  destruct (Nat.ltb_spec 20 (length (otherMessagesOf history))) as [Hgt|Hle].
  - rewrite trimConversationHistory_unfold.
    pose proof (filter_system_systems _ (systemMessagesOf_all history)) as [_ Hso].
    assert (Hdrop : Forall (λ m, isSystem m = false)
                      (drop (length (otherMessagesOf history) - 15)
                         (otherMessagesOf history)))
      by (apply Forall_drop, otherMessagesOf_all).
    pose proof (filter_system_others _ Hdrop) as [_ Hdo].
    rewrite otherMessagesOf_app, Hso, Hdo. cbn [app]. rewrite length_drop.
    destruct (Nat.ltb_spec 20 (length (otherMessagesOf history)
                               - (length (otherMessagesOf history) - 15))); [lia|done].
  - rewrite trimConversationHistory_unfold.
    by destruct (Nat.ltb_spec 20 (length (otherMessagesOf history))); [lia|].
Qed.

Lemma trim_head_system (history : list ChatCompletionMessage) :
  headIsSystem history →
  head (trimConversationHistory history) = head history.
Proof.
  unfold headIsSystem. rewrite trimConversationHistory_unfold.
  destruct (20 <? _)%nat; [|done].
  destruct history as [|m rest]; [done|]. cbn. intros [= Hm].
  unfold systemMessagesOf. cbn [List.filter]. unfold isSystem.
  by rewrite bool_decide_eq_true_2.
Qed.

Section TurnProperties.
Context {W : Type} `{Platform W} `{JsonCodec}.

Lemma followUp_appends (client : Client) (history : list ChatCompletionMessage) (w : W)
    (formatter : MatrixTextStreamFormatter) (out : list Rendered) (s' : Session) :
  followUp client history w formatter out = Some s' →
  world s' = w
  ∧ ∃ final, ConversationHistory s' = history ++ final
             ∧ (final = [] ∨ ∃ text, final = [textMessage RoleAssistant text]).
Proof.
  unfold followUp. cbv zeta. destruct (client _) as [stream|e].
  - destruct (receiveAllText _ _) as [a|]; [|done]. cbn.
    destruct (Finalize (acc_formatter a)) as [[f out']|]; [|done]. cbn.
    intros [= <-]. cbn. split; [done|]. case_bool_decide.
    + eexists. split; [done|]. right. by eexists.
    + exists []. by rewrite app_nil_r; auto.
  - intros [= <-]. cbn. split; [done|]. exists []. by rewrite app_nil_r; auto.
Qed.

Lemma appendToolCallMessage_appends (history : list ChatCompletionMessage)
    (fullResponse : string) (toolCalls : list ToolCall) :
  appendToolCallMessage (history ++ textPart fullResponse) fullResponse toolCalls
  = history ++ textPart fullResponse ++ [toolCallMessage toolCalls].
Proof.
  unfold appendToolCallMessage, textPart. cbv zeta.
  fold (toolCallMessage toolCalls).
  destruct (decide (fullResponse = "")) as [->|Hne].
  - cbn. by rewrite <- app_assoc.
  - rewrite (bool_decide_eq_false_2 (fullResponse = "")) by done.
    rewrite (bool_decide_eq_true_2 (fullResponse ≠ "")) by done.
    rewrite last_snoc. cbn. by rewrite <- app_assoc.
Qed.

(** The anatomy of a turn whose stream opened. *)
Lemma StreamAIResponse_opened (client : Client) (userMessage : string)
    (s s' : Session) (stream : ChatCompletionStream) :
  client (firstRequest (turnHistory (ConversationHistory s) userMessage)) = Ok stream →
  StreamAIResponse client userMessage s = Some s' →
  ∃ a,
    receiveAll (startAccum (terminal s)) (responses stream) = Some a
    ∧ (acc_toolCalls a = [] →
         ConversationHistory s'
         = turnHistory (ConversationHistory s) userMessage ++ textPart (acc_fullResponse a)
         ∧ world s' = world s)
    ∧ (acc_toolCalls a ≠ [] →
         world s' = (executeTools (world s) (acc_toolCalls a)).1
         ∧ ∃ final,
             ConversationHistory s'
             = turnHistory (ConversationHistory s) userMessage
                 ++ textPart (acc_fullResponse a)
                 ++ [toolCallMessage (acc_toolCalls a)]
                 ++ (executeTools (world s) (acc_toolCalls a)).2 ++ final
             ∧ (final = [] ∨ ∃ text, final = [textMessage RoleAssistant text])).
Proof.
  intros Hopen. unfold StreamAIResponse. cbv zeta.
  change (match trimConversationHistory (ConversationHistory s) with
          | [] => [textMessage RoleSystem systemPrompt]
          | _ :: _ => trimConversationHistory (ConversationHistory s)
          end ++ [textMessage RoleUser userMessage])
    with (turnHistory (ConversationHistory s) userMessage).
  change {| req_Model := "deepseek-coder";
            req_Messages := turnHistory (ConversationHistory s) userMessage;
            req_Tools := tools; req_ToolChoice := "auto"; req_Stream := true;
            req_MaxTokens := 4000 |}
    with (firstRequest (turnHistory (ConversationHistory s) userMessage)).
  rewrite Hopen.
  change {| acc_formatter := NewMatrixTextStreamFormatter; acc_terminal := terminal s;
            acc_fullResponse := ""; acc_toolCalls := [] |}
    with (startAccum (terminal s)).
  destruct (receiveAll (startAccum (terminal s)) (responses stream)) as [a|]; [|done].
  cbn [mbind option_bind]. intros Hrest. exists a. split; [done|].
  destruct (Finalize (acc_formatter a)) as [[formatter out]|]; [|done].
  cbn [mbind option_bind] in Hrest.
  assert (Htext : (if bool_decide (acc_fullResponse a ≠ "")
                   then turnHistory (ConversationHistory s) userMessage
                          ++ [textMessage RoleAssistant (acc_fullResponse a)]
                   else turnHistory (ConversationHistory s) userMessage)
                  = turnHistory (ConversationHistory s) userMessage
                      ++ textPart (acc_fullResponse a)).
  { unfold textPart. case_bool_decide; [done|by rewrite app_nil_r]. }
  rewrite Htext in Hrest. clear Htext.
  destruct (acc_toolCalls a) as [|tc tcs] eqn:Hcalls.
  - cbn in Hrest. injection Hrest as <-. split; [done|]. by intros ?.
  - split; [by intros ?|]. intros _.
    change (0 <? length (tc :: tcs))%nat with true in Hrest. cbv iota in Hrest.
    rewrite appendToolCallMessage_appends in Hrest.
    destruct (executeTools (world s) (tc :: tcs)) as [w toolResponses].
    apply followUp_appends in Hrest as (Hw & final & Hh & Hfinal).
    split; [done|]. exists final. split; [|done].
    rewrite Hh. cbn [snd]. by rewrite <- !app_assoc.
Qed.

Lemma StreamAIResponse_not_opened (client : Client) (userMessage : string)
    (s s' : Session) (e : Err) :
  client (firstRequest (turnHistory (ConversationHistory s) userMessage)) = Fail e →
  StreamAIResponse client userMessage s = Some s' →
  ConversationHistory s' = seedHistory (trimConversationHistory (ConversationHistory s))
  ∧ world s' = world s.
Proof.
  intros Hopen. unfold StreamAIResponse. cbv zeta.
  change (match trimConversationHistory (ConversationHistory s) with
          | [] => [textMessage RoleSystem systemPrompt]
          | _ :: _ => trimConversationHistory (ConversationHistory s)
          end) with (seedHistory (trimConversationHistory (ConversationHistory s))).
  change {| req_Model := "deepseek-coder";
            req_Messages := seedHistory (trimConversationHistory (ConversationHistory s))
                              ++ [textMessage RoleUser userMessage];
            req_Tools := tools; req_ToolChoice := "auto"; req_Stream := true;
            req_MaxTokens := 4000 |}
    with (firstRequest (turnHistory (ConversationHistory s) userMessage)).
  rewrite Hopen. intros [= <-]. cbn. by rewrite take_all_but_last.
Qed.

Lemma StreamAIResponse_prefix (client : Client) (userMessage : string) (s s' : Session) :
  StreamAIResponse client userMessage s = Some s' →
  seedHistory (trimConversationHistory (ConversationHistory s))
    `prefix_of` ConversationHistory s'.
Proof.
  intros Hturn.
  destruct (client (firstRequest (turnHistory (ConversationHistory s) userMessage)))
    as [stream|e] eqn:Hopen.
  - destruct (StreamAIResponse_opened _ _ _ _ _ Hopen Hturn) as (a & _ & Hnone & Hsome).
    destruct (acc_toolCalls a) as [|tc tcs].
    + destruct (Hnone eq_refl) as [-> _]. unfold turnHistory.
      rewrite <- app_assoc. by eexists.
    + destruct (Hsome ltac:(done)) as (_ & final & -> & _). unfold turnHistory.
      rewrite <- app_assoc. by eexists.
  - destruct (StreamAIResponse_not_opened _ _ _ _ _ Hopen Hturn) as [-> _]. done.
Qed.

(** A turn that ends without panic leaves the trimmed and seeded history in
    place and only appends to it: nothing when the stream did not open, and
    otherwise the user message first. *)
Theorem turn_only_appends (client : Client) (userMessage : string) (s s' : Session) :
  StreamAIResponse client userMessage s = Some s' →
  let base := seedHistory (trimConversationHistory (ConversationHistory s)) in
  match client (firstRequest (turnHistory (ConversationHistory s) userMessage)) with
  | Fail _ => ConversationHistory s' = base ∧ world s' = world s
  | Ok _ => (base ++ [textMessage RoleUser userMessage]) `prefix_of` ConversationHistory s'
  end.
Proof.
  intros Hturn. cbv zeta.
  destruct (client (firstRequest (turnHistory (ConversationHistory s) userMessage)))
    as [stream|e] eqn:Hopen.
  - destruct (StreamAIResponse_opened _ _ _ _ _ Hopen Hturn) as (a & _ & Hnone & Hsome).
    fold (turnHistory (ConversationHistory s) userMessage).
    destruct (acc_toolCalls a) as [|tc tcs].
    + destruct (Hnone eq_refl) as [-> _]. by eexists.
    + destruct (Hsome ltac:(done)) as (_ & final & -> & _). by eexists.
  - by apply (StreamAIResponse_not_opened _ _ _ _ _ Hopen Hturn).
Qed.

(** When the reply carries tool calls, the history gets the assistant
    message with the merged calls and right behind it one tool message per
    call, in the order of the calls and with their ids and names; at most
    one assistant message follows. The file system is what running the
    tools in that order leaves. *)
Theorem tool_results_follow_calls (client : Client) (userMessage : string)
    (s s' : Session) (stream : ChatCompletionStream) (toolCalls : list ToolCall) :
  client (firstRequest (turnHistory (ConversationHistory s) userMessage)) = Ok stream →
  mergeDeltas [] (fragmentsOf (responses stream)) = Some toolCalls →
  toolCalls ≠ [] →
  StreamAIResponse client userMessage s = Some s' →
  ∃ before toolResponses final,
    ConversationHistory s'
    = before ++ [toolCallMessage toolCalls] ++ toolResponses ++ final
    ∧ (msg_ToolCallID <$> toolResponses) = (tc_ID <$> toolCalls)
    ∧ (msg_Name <$> toolResponses) = (fragmentName <$> toolCalls)
    ∧ Forall (λ m, msg_Role m = RoleTool) toolResponses
    ∧ (length final ≤ 1)%nat
    ∧ world s' = (executeTools (world s) toolCalls).1.
Proof.
  intros Hopen Hmerge Hcalls Hturn.
  destruct (StreamAIResponse_opened _ _ _ _ _ Hopen Hturn) as (a & Hrecv & _ & Hsome).
  apply receiveAll_merges in Hrecv. cbn [startAccum acc_toolCalls] in Hrecv.
  rewrite Hmerge in Hrecv. injection Hrecv as Ha. rewrite <- Ha in Hsome.
  destruct (Hsome Hcalls) as (Hw & final & Hh & Hfinal).
  destruct (executeTools_per_call toolCalls (world s)) as (Hids & Hnames & Hroles).
  eexists _, _, final. split; [rewrite Hh; by rewrite app_assoc|].
  repeat split; try done.
  destruct Hfinal as [->|[text ->]]; cbn; lia.
Qed.

(** A reply without tool-call fragments leaves the file system as it is. *)
Theorem reply_without_tool_calls_keeps_files (client : Client) (userMessage : string)
    (s s' : Session) (stream : ChatCompletionStream) :
  client (firstRequest (turnHistory (ConversationHistory s) userMessage)) = Ok stream →
  fragmentsOf (responses stream) = [] →
  StreamAIResponse client userMessage s = Some s' →
  world s' = world s.
Proof.
  intros Hopen Hnone Hturn.
  destruct (StreamAIResponse_opened _ _ _ _ _ Hopen Hturn) as (a & Hrecv & Hno & _).
  apply receiveAll_merges in Hrecv. rewrite Hnone in Hrecv.
  cbn in Hrecv. injection Hrecv as Ha. by apply Hno.
Qed.

(** Only [create_file] and [edit_file] can change the file system, and only
    when their arguments parse. *)
Theorem only_writing_tools_touch_files (w : W) (tc : ToolCall) :
  (fragmentName tc ≠ "create_file" → fragmentName tc ≠ "edit_file" →
     (executeTool w tc).1 = w)
  ∧ (fragmentName tc = "create_file" →
     is_Fail (unmarshal_FileToCreate (fragmentArguments tc)) → (executeTool w tc).1 = w)
  ∧ (fragmentName tc = "edit_file" →
     is_Fail (unmarshal_FileToEdit (fragmentArguments tc)) → (executeTool w tc).1 = w).
Proof.
  unfold executeTool, fragmentName, fragmentArguments. cbv zeta.
  split; [|split].
  - intros Hc He. case_bool_decide.
    + destruct (unmarshal_ReadFileArgs _) as [args|e]; [|done].
      by destruct (readLocalFile w (rf_FilePath args)).
    + by rewrite !bool_decide_eq_false_2.
  - intros -> Hfail. cbn.
    by destruct (unmarshal_FileToCreate _).
  - intros -> Hfail. cbn.
    by destruct (unmarshal_FileToEdit _).
Qed.

(** The first message stays the system message it is: [/clear] leaves
    exactly one message, the leading system message where there is one and
    the system prompt otherwise; trimming, the [/add] command and a turn keep
    a leading system message in front; a turn on an empty history puts the
    system prompt in front. *)
Theorem first_message_stays_system :
  (∀ history,
     ∃ m, clearHistory history = [m]
          ∧ msg_Role m = RoleSystem
          ∧ (headIsSystem history → head history = Some m)
          ∧ (¬ headIsSystem history → m = textMessage RoleSystem systemPrompt))
  ∧ (∀ history, headIsSystem history →
                head (trimConversationHistory history) = head history)
  ∧ (∀ pathToAdd addedContents history history',
       headIsSystem history →
       addFilesToHistory pathToAdd addedContents history history' →
       head history' = head history)
  ∧ (∀ client userMessage (s s' : Session),
       StreamAIResponse client userMessage s = Some s' →
       (headIsSystem (ConversationHistory s) →
        head (ConversationHistory s') = head (ConversationHistory s))
       ∧ (ConversationHistory s = [] →
          head (ConversationHistory s') = Some (textMessage RoleSystem systemPrompt))).
Proof.
  split; [|split; [|split]].
  - intros [|m rest].
    + exists (textMessage RoleSystem systemPrompt).
      split; [done|]. split; [done|]. split; [by intros ?|done].
    + unfold clearHistory, headIsSystem. cbn [head fmap option_fmap option_map].
      case_bool_decide as Hm.
      * exists m. split; [done|]. split; [done|]. split; [done|].
        intros Hnot. by rewrite Hm in Hnot.
      * exists (textMessage RoleSystem systemPrompt).
        split; [done|]. split; [done|]. split; [|done].
        intros [= Hsys]. done.
  - apply trim_head_system.
  - intros pathToAdd added history history' Hh (order & _ & ->).
    by destruct history.
  - intros client userMessage s s' Hturn.
    destruct (StreamAIResponse_prefix _ _ _ _ Hturn) as [rest ->]. split.
    + intros Hh. rewrite <- (trim_head_system _ Hh).
      destruct (trimConversationHistory (ConversationHistory s)) as [|m l] eqn:Htrim; [|done].
      pose proof (trim_head_system _ Hh) as Hhead. rewrite Htrim in Hhead.
      unfold headIsSystem in Hh. by rewrite <- Hhead in Hh.
    + by intros ->.
Qed.
End TurnProperties.

Lemma first_message_stays_system_witness :
  let history := [textMessage RoleSystem systemPrompt; textMessage RoleUser "hi"] in
  head (trimConversationHistory history) = head history.
Proof.
  cbv zeta.
  refine (proj1 (proj2 (first_message_stays_system (W := Sim.World))) _ _).
  reflexivity.
Defined.

(** ** The receive loop *)

Lemma splitLines_one_line (s : string) : countNewlines s = O → splitLines s = [s].
Proof.
  induction s as [|c s IH]; [done|]. cbn [countNewlines splitLines].
  case_bool_decide; [done|]. intros Hs. by rewrite IH.
Qed.

Lemma ProcessChunk_empty (f : MatrixTextStreamFormatter) :
  countNewlines (buffer f) = O → ProcessChunk f "" = Some (f, []).
Proof.
  intros Hb. rewrite ProcessChunk_unfold, sapp_nil_r, (splitLines_one_line _ Hb).
  cbn [removelast List.last formatLines].
  by rewrite withBuffer_withBuffer, withBuffer_buffer.
Qed.

(** However the text of a reply is cut into responses, the loop stores the
    concatenation of the pieces and renders what one [ProcessChunk] of the
    whole text renders. *)
Theorem stream_text_as_a_whole (rs : list ChatCompletionStreamResponse) (a a' : Accum) :
  countNewlines (buffer (acc_formatter a)) = O →
  receiveAll a rs = Some a' →
  acc_fullResponse a' = acc_fullResponse a +:+ concatStrings (contentsOf rs)
  ∧ ∃ out,
      ProcessChunk (acc_formatter a) (concatStrings (contentsOf rs))
      = Some (acc_formatter a', out)
      ∧ acc_terminal a' = acc_terminal a ++ out.
Proof.
  revert a. induction rs as [|response rs IH]; intros a Hb Hrecv.
  - cbn in Hrecv. injection Hrecv as <-. cbn [contentsOf fmap list_fmap concatStrings].
    rewrite sapp_nil_r. split; [done|]. exists []. rewrite app_nil_r.
    split; [by apply ProcessChunk_empty|done].
  - cbn [receiveAll] in Hrecv.
    destruct (receive a response) as [a1|] eqn:Hone; [|done]. cbn in Hrecv.
    unfold contentsOf. cbn [fmap list_fmap concatStrings]. fold (contentsOf rs).
    unfold receive in Hone. destruct (Choices response) as [|choice others].
    { injection Hone as <-. rewrite sapp_nil_l. by apply IH. }
    case_bool_decide as Hcontent.
    + destruct (ProcessChunk (acc_formatter a) (delta_Content choice))
        as [[f1 out1]|] eqn:Hchunk; [|done].
      cbn in Hone. destruct (mergeDeltas _ _) as [tcs|]; [|done]. cbn in Hone.
      injection Hone as <-.
      destruct (ProcessChunk_counts _ _ _ _ Hchunk) as [_ Hb1].
      destruct (IH {| acc_formatter := f1; acc_terminal := acc_terminal a ++ out1;
                      acc_fullResponse := acc_fullResponse a +:+ delta_Content choice;
                      acc_toolCalls := tcs |} Hb1 Hrecv) as (Htext & out & Hout & Hterm).
      cbn [acc_formatter acc_terminal acc_fullResponse] in Htext, Hout, Hterm. split; [by rewrite Htext, sapp_assoc|].
      exists (out1 ++ out). rewrite ProcessChunk_app, Hchunk, Hout.
      split; [done|]. by rewrite Hterm, app_assoc.
    + assert (Hempty : delta_Content choice = "")
        by by destruct (decide (delta_Content choice = "")).
      cbn in Hone. destruct (mergeDeltas _ _) as [tcs|]; [|done]. cbn in Hone.
      injection Hone as <-. rewrite Hempty, sapp_nil_l.
      destruct (IH {| acc_formatter := acc_formatter a; acc_terminal := acc_terminal a;
                      acc_fullResponse := acc_fullResponse a; acc_toolCalls := tcs |}
                  Hb Hrecv) as (Htext & out & Hout & Hterm).
      by eauto.
Qed.

(** ** Tools in one reply *)

Section ToolProperties.
Context {W : Type} `{Platform W} `{JsonCodec}.

(** The tools of one reply run one after the other, each on the file system
    the one before left: a [read_file] behind a successful [create_file] of
    the same path returns the content just written. *)
Theorem tools_see_earlier_writes (w : W) (create read : ToolCall)
    (path content : string) :
  writesReadBack →
  fragmentName create = "create_file" →
  unmarshal_FileToCreate (fragmentArguments create)
  = Ok {| ftc_Path := path; ftc_Content := content |} →
  fragmentName read = "read_file" →
  unmarshal_ReadFileArgs (fragmentArguments read) = Ok {| rf_FilePath := path |} →
  (createOrOverwriteFile w path content).2 = None →
  (msg_Content <$> (executeTools w [create; read]).2)
  = [ "Successfully created/overwrote file " +:+ path;
      "Content of file '" +:+ path +:+ "':" +:+ nl +:+ nl +:+ content ].
Proof.
  unfold fragmentName, fragmentArguments.
  intros Hos Hcname Hcargs Hrname Hrargs Hok.
  cbn [executeTools]. unfold executeTool at 1. cbv zeta.
  rewrite Hcname, Hcargs. cbn [bool_decide decide_rel ftc_Path ftc_Content].
  rewrite bool_decide_eq_false_2 by done. rewrite bool_decide_eq_true_2 by done.
  destruct (createOrOverwriteFile w path content) as [w1 [e|]] eqn:Hcreate; [done|].
  unfold executeTool. cbv zeta. rewrite Hrname, Hrargs.
  rewrite bool_decide_eq_true_2 by done. cbn [rf_FilePath].
  by rewrite (createOrOverwriteFile_readLocalFile _ _ _ _ Hos Hcreate).
Qed.
End ToolProperties.

(** ** [centerText] *)

Lemma slen_app (s t : string) : slen (s +:+ t) = (slen s + slen t)%nat.
Proof.
  induction s as [|c s IH]; [done|]. rewrite sapp_cons.
  unfold slen in *. cbn [String.length]. by rewrite IH.
Qed.

Lemma strings_Repeat_space_length (n : nat) : slen (strings_Repeat " " n) = n.
Proof.
  induction n as [|n IH]; [done|]. cbn [strings_Repeat]. rewrite slen_app, IH. done.
Qed.

(** [centerText] never cuts the text: it puts half of the free width,
    rounded down, in blanks before it and adds nothing behind it, and
    returns the text as it is when no width is free. *)
Theorem centerText_pads_left (text : string) (width : Z) :
  let free := Z.max 0 (width - Z.of_nat (slen text)) in
  centerText text width = strings_Repeat " " (Z.to_nat (free / 2)) +:+ text
  ∧ Z.of_nat (slen (centerText text width)) = Z.of_nat (slen text) + free / 2
  ∧ Z.of_nat (slen (centerText text width)) ≤ Z.max width (Z.of_nat (slen text)).
Proof.
  cbv zeta.
  assert (Hshape : centerText text width
                   = strings_Repeat " "
                       (Z.to_nat (Z.max 0 (width - Z.of_nat (slen text)) / 2)) +:+ text).
  { unfold centerText. destruct (Z.geb_spec (Z.of_nat (slen text)) width) as [Hge|Hlt].
    - by rewrite Z.max_l by lia.
    - cbv zeta. rewrite Z.max_r by lia. by rewrite Z.quot_div_nonneg by lia. }
  split; [done|]. rewrite Hshape, slen_app, strings_Repeat_space_length.
  assert (0 ≤ Z.max 0 (width - Z.of_nat (slen text)) / 2) by (apply Z.div_pos; lia).
  assert (Z.max 0 (width - Z.of_nat (slen text)) / 2
          ≤ Z.max 0 (width - Z.of_nat (slen text)))
    by (apply Z.div_le_upper_bound; lia).
  split; lia.
Qed.

(** ** Runs of the further properties on the small platform *)

Lemma stream_text_as_a_whole_witness :
  ∃ a', receiveAll (startAccum []) [textResponse "Hel"; textResponse ("lo" +:+ nl)] = Some a'
        ∧ acc_fullResponse a' = "Hello" +:+ nl.
Proof.
  eexists.
  assert (Hrun : receiveAll (startAccum []) [textResponse "Hel"; textResponse ("lo" +:+ nl)]
                 = Some {| acc_formatter := NewMatrixTextStreamFormatter;
                           acc_terminal := [PlainLine "Hello"];
                           acc_fullResponse := "Hello" +:+ nl; acc_toolCalls := [] |})
    by reflexivity.
  split; [exact Hrun|].
  exact (proj1 (stream_text_as_a_whole _ (startAccum []) _ eq_refl Hrun)).
Defined.

Lemma numbered_shape_rendered_witness :
  ∃ numPart restOfLine,
    formatAndPrintLine NewMatrixTextStreamFormatter "  3) third item"
    = Some (NewMatrixTextStreamFormatter, NumberedItem numPart restOfLine).
Proof.
  apply (numbered_shape_rendered NewMatrixTextStreamFormatter "  3) third item");
    reflexivity.
Defined.

Lemma turn_only_appends_witness :
  let s := {| ConversationHistory := [textMessage RoleSystem systemPrompt];
              world := {| Sim.files := ∅; Sim.trees := ∅ |}; terminal := [] |} in
  let client : Client := λ _, Ok {| responses := [textResponse ("Hi." +:+ nl)];
                                    ending := None |} in
  ∃ s', StreamAIResponse client "hello" s = Some s'
        ∧ ([textMessage RoleSystem systemPrompt; textMessage RoleUser "hello"]
             `prefix_of` ConversationHistory s').
Proof.
  cbv zeta. eexists.
  assert (Hrun : StreamAIResponse
                   (λ _, Ok {| responses := [textResponse ("Hi." +:+ nl)]; ending := None |})
                   "hello"
                   {| ConversationHistory := [textMessage RoleSystem systemPrompt];
                      world := {| Sim.files := ∅; Sim.trees := ∅ |}; terminal := [] |}
                 = Some {| ConversationHistory :=
                             [textMessage RoleSystem systemPrompt;
                              textMessage RoleUser "hello";
                              textMessage RoleAssistant ("Hi." +:+ nl)];
                           world := {| Sim.files := ∅; Sim.trees := ∅ |};
                           terminal := [PlainLine "Hi."] |})
    by (vm_compute; reflexivity).
  split; [exact Hrun|].
  exact (turn_only_appends _ _ _ _ Hrun).
Defined.

Lemma tool_results_follow_calls_witness :
  let s := {| ConversationHistory := [textMessage RoleSystem systemPrompt];
              world := {| Sim.files := ∅; Sim.trees := ∅ |}; terminal := [] |} in
  ∃ s' before toolResponses final,
    StreamAIResponse createFooClient "create foo.txt" s = Some s'
    ∧ ConversationHistory s'
      = before ++ [toolCallMessage [namedCall "call_1" "create_file" "foo.txt|X"]]
          ++ toolResponses ++ final
    ∧ (msg_ToolCallID <$> toolResponses) = ["call_1"].
Proof.
  cbv zeta.
  destruct (StreamAIResponse createFooClient "create foo.txt"
              {| ConversationHistory := [textMessage RoleSystem systemPrompt];
                 world := {| Sim.files := ∅; Sim.trees := ∅ |}; terminal := [] |})
    as [s'|] eqn:Hrun; [|by vm_compute in Hrun].
  destruct (tool_results_follow_calls createFooClient "create foo.txt" _ s'
              {| responses :=
                   [{| Choices := [{| delta_Content := "";
                                      delta_ToolCalls :=
                                        [fragment 0 "call_1" "function" "create_file"
                                           "foo.txt|X"] |}] |}];
                 ending := None |}
              [namedCall "call_1" "create_file" "foo.txt|X"]
              eq_refl eq_refl ltac:(done) Hrun)
    as (before & toolResponses & final & Hh & Hids & _).
  by exists s', before, toolResponses, final.
Defined.

Lemma reply_without_tool_calls_keeps_files_witness :
  let w := {| Sim.files := {[ "a.txt" := "A" ]}; Sim.trees := ∅ |} in
  let s := {| ConversationHistory := [textMessage RoleSystem systemPrompt];
              world := w; terminal := [] |} in
  let client : Client := λ _, Ok {| responses := [textResponse ("Hi." +:+ nl)];
                                    ending := None |} in
  ∃ s', StreamAIResponse client "hello" s = Some s' ∧ world s' = w.
Proof.
  cbv zeta.
  destruct (StreamAIResponse
              (λ _, Ok {| responses := [textResponse ("Hi." +:+ nl)]; ending := None |})
              "hello"
              {| ConversationHistory := [textMessage RoleSystem systemPrompt];
                 world := {| Sim.files := {[ "a.txt" := "A" ]}; Sim.trees := ∅ |};
                 terminal := [] |})
    as [s'|] eqn:Hrun; [|by vm_compute in Hrun].
  exists s'. split; [done|].
  exact (reply_without_tool_calls_keeps_files
           (λ _, Ok {| responses := [textResponse ("Hi." +:+ nl)]; ending := None |})
           "hello" _ s' _ eq_refl eq_refl Hrun).
Defined.

Lemma tools_see_earlier_writes_witness :
  let w := {| Sim.files := ∅; Sim.trees := ∅ |} in
  (msg_Content <$> (executeTools w [namedCall "c1" "create_file" "foo.txt|X";
                                    namedCall "c2" "read_file" "foo.txt"]).2)
  = [ "Successfully created/overwrote file foo.txt";
      "Content of file 'foo.txt':" +:+ nl +:+ nl +:+ "X" ].
Proof.
  cbv zeta.
  exact (tools_see_earlier_writes {| Sim.files := ∅; Sim.trees := ∅ |}
           (namedCall "c1" "create_file" "foo.txt|X") (namedCall "c2" "read_file" "foo.txt")
           "foo.txt" "X" Sim_writesReadBack eq_refl eq_refl eq_refl eq_refl eq_refl).
Defined.

(** ** Code fences *)

Lemma formatAndPrintLine_fence (f f' : MatrixTextStreamFormatter)
    (line : string) (r : Rendered) :
  formatAndPrintLine f line = Some (f', r) →
  inCodeBlock f' = xorb (inCodeBlock f) (isFenceLine line)
  ∧ (inCodeBlock f = true → isFenceLine line = false → f' = f ∧ r = CodeLine line).
Proof.
  unfold formatAndPrintLine, isFenceLine. cbv zeta.
  destruct (strings_HasPrefix (strings_TrimSpace line) "```").
  { destruct (inCodeBlock f) eqn:Hf; cbn; intros [= <- <-]; cbn; by split. }
  destruct (inCodeBlock f) eqn:Hf; [by intros [= <- <-]|].
  destruct (_ || _); [intros [= <- <-]; by rewrite Hf|].
  destruct (numberedCondition (strings_TrimSpace line)) as [[|]|]; [| |done].
  - destruct (strings_Fields (strings_TrimSpace line)); intros [= <- <-]; by rewrite Hf.
  - case_bool_decide; intros [= <- <-]; by rewrite Hf.
Qed.

(** The formatter is inside a code fence after an odd number of fence lines
    and outside after an even number; between the fence lines of a code
    block every line is rendered as it came, untrimmed. *)
Theorem fences_toggle (lines : list string) :
  ∀ f f' out,
    formatLines f lines = Some (f', out) →
    inCodeBlock f' = xorb (inCodeBlock f) (Nat.odd (countFenceLines lines))
    ∧ (inCodeBlock f = true → countFenceLines lines = O →
       f' = f ∧ out = CodeLine <$> lines).
Proof.
  unfold countFenceLines.
  induction lines as [|line lines IH]; intros f f' out.
  - intros [= <- <-]. cbn. split; [by rewrite xorb_false_r|done].
  - cbn [formatLines].
    destruct (formatAndPrintLine f line) as [[f1 r]|] eqn:Hone; [|done]. cbn.
    destruct (formatLines f1 lines) as [[f2 rs]|] eqn:Hrest; [|done]. cbn.
    intros [= <- <-].
    destruct (formatAndPrintLine_fence _ _ _ _ Hone) as [Hstate Hcode].
    destruct (IH _ _ _ Hrest) as [Hstates Hcodes].
    cbn [List.filter]. destruct (isFenceLine line) eqn:Hfence.
    + cbn [length]. rewrite Nat.odd_succ, <- Nat.negb_odd, Hstates, Hstate.
      split; [|done].
      by destruct (inCodeBlock f), (Nat.odd (length (List.filter isFenceLine lines))).
    + rewrite Hstates, Hstate, xorb_false_r. split; [done|].
      intros Hin Hnone. destruct (Hcode Hin eq_refl) as [-> ->].
      destruct (Hcodes Hin Hnone) as [-> ->]. done.
Qed.

Lemma fences_toggle_witness :
  ∃ f' out,
    formatLines NewMatrixTextStreamFormatter ["```go"; "  x := 1"; "```"; "done"]
    = Some (f', out)
    ∧ inCodeBlock f' = false.
Proof.
  eexists _, _.
  assert (Hrun : formatLines NewMatrixTextStreamFormatter
                   ["```go"; "  x := 1"; "```"; "done"]
                 = Some ({| buffer := ""; inCodeBlock := false; codeLanguage := "go" |},
                         [CodeHeader "go"; CodeLine "  x := 1"; CodeFooter;
                          PlainLine "done"]))
    by reflexivity.
  split; [exact Hrun|].
  exact (proj1 (fences_toggle _ _ _ _ Hrun)).
Defined.
